(** * Verification of the usage-reference engine of bulk-property-creation

    Shallow embedding of the helpers of the Express server
    ([toInternalName], [parseOptions], [paginateHubSpot],
    [extractPropNamesFromJson], [extractPropsFromJsonWithTokens],
    [extractFormProps]) and of the [POST /api/fetch-usage-context] handler.

    JavaScript strings are modelled as lists of 8-bit code units
    ([list ascii]); the code units 0..255 are the Latin-1 characters, on
    which [toLowerCase], [trim] and the regular-expression class [\s] are
    written out below. *)

From Stdlib Require Import Ascii String.
From Stdlib Require Import List Arith Lia Bool ZArith.
From Stdlib Require Import Numbers.DecimalString.
Import ListNotations.
Open Scope list_scope.

(** A JavaScript string. *)
Definition jstr := list ascii.

(** String literal helper. *)
Definition lit (s : string) : jstr := list_ascii_of_string s.

Definition code (c : ascii) : nat := nat_of_ascii c.

(** ** Character classes *)

(** [\s] of a JavaScript regular expression (and the characters removed by
    [String.prototype.trim]) restricted to code units 0..255: TAB, LF, VT,
    FF, CR, SPACE and NO-BREAK SPACE. *)
Definition is_ws (c : ascii) : bool :=
  let n := code c in
  ((9 <=? n) && (n <=? 13)) || (n =? 32) || (n =? 160).

Definition is_lower (c : ascii) : bool :=
  let n := code c in (97 <=? n) && (n <=? 122).

Definition is_upper (c : ascii) : bool :=
  let n := code c in (65 <=? n) && (n <=? 90).

Definition is_digit (c : ascii) : bool :=
  let n := code c in (48 <=? n) && (n <=? 57).

(** [[a-z0-9_]] *)
Definition is_name_char (c : ascii) : bool :=
  is_lower c || is_digit c || Ascii.eqb c "_"%char.

(** [[a-zA-Z]] *)
Definition is_alpha (c : ascii) : bool := is_lower c || is_upper c.

(** [[a-z_]] *)
Definition is_lower_us (c : ascii) : bool := is_lower c || Ascii.eqb c "_"%char.

(** [String.prototype.toLowerCase] on one Latin-1 code unit: A-Z and
    U+00C0..U+00DE except U+00D7 map to the code unit 32 above. *)
Definition to_lower_char (c : ascii) : ascii :=
  let n := code c in
  if ((65 <=? n) && (n <=? 90))
     || ((192 <=? n) && (n <=? 222) && negb (n =? 215))
  then ascii_of_nat (n + 32) else c.

Definition toLowerCase (s : jstr) : jstr := map to_lower_char s.

Fixpoint drop_ws (s : jstr) : jstr :=
  match s with
  | [] => []
  | c :: s' => if is_ws c then drop_ws s' else s
  end.

(** [String.prototype.trim]. *)
Definition trim (s : jstr) : jstr := rev (drop_ws (rev (drop_ws s))).

(** [s.replace(/\s+/g, '_')]: every maximal run of whitespace becomes one
    underscore; [in_run] records that the previous code unit was already
    part of a replaced run. *)
Fixpoint replace_ws_runs (in_run : bool) (s : jstr) : jstr :=
  match s with
  | [] => []
  | c :: s' =>
      if is_ws c then
        (if in_run then replace_ws_runs true s'
         else "_"%char :: replace_ws_runs true s')
      else c :: replace_ws_runs false s'
  end.

(** ** toInternalName (the Name Sanitizer) *)

(** <<
function toInternalName(label) {
  let name = label.toLowerCase().trim()
    .replace(/\s+/g, '_').replace(/[^a-z0-9_]/g, '');
  if (/^[0-9]/.test(name)) name = 'p_' + name;
  return name.slice(0, 250);
}
>> *)
Definition starts_with_digit (s : jstr) : bool :=
  match s with
  | c :: _ => is_digit c
  | [] => false
  end.

Definition toInternalName (label : jstr) : jstr :=
  let name := filter is_name_char
                (replace_ws_runs false (trim (toLowerCase label))) in
  let name := if starts_with_digit name then "p"%char :: "_"%char :: name
              else name in
  firstn 250 name.

(** The name [toInternalName] builds before the [p_] test: lower-cased,
    trimmed, whitespace runs replaced by [_], other characters removed. *)
Definition stripped_name (label : jstr) : jstr :=
  filter is_name_char (replace_ws_runs false (trim (toLowerCase label))).

(** ** parseOptions (the Option List Parser) *)

(** [s.split(';')]. *)
Fixpoint split_semi (s : jstr) : list jstr :=
  match s with
  | [] => [[]]
  | c :: s' =>
      let r := split_semi s' in
      if Ascii.eqb c ";"%char then [] :: r
      else match r with
           | p :: ps => (c :: p) :: ps
           | [] => [[c]]
           end
  end.

(** Truthiness of a string ([filter(Boolean)]). *)
Definition str_truthy (s : jstr) : bool :=
  match s with [] => false | _ => true end.

(** Decimal rendering of a natural number, as in a template literal. *)
Definition nat_to_jstr (n : nat) : jstr :=
  lit (NilEmpty.string_of_uint (Nat.to_uint n)).

Record ChoiceOption := mkChoiceOption {
  opt_label : jstr;
  opt_value : jstr;
  opt_displayOrder : nat;
  opt_hidden : bool
}.

(** [.map((label, i) => ({ label, value: toInternalName(label) ||
    `option_${i}`, displayOrder: i, hidden: false }))] *)
Definition make_option (i : nat) (label : jstr) : ChoiceOption :=
  {| opt_label := label;
     opt_value := (let v := toInternalName label in
                   if str_truthy v then v else lit "option_" ++ nat_to_jstr i);
     opt_displayOrder := i;
     opt_hidden := false |}.

Fixpoint mapi_from {A B} (f : nat -> A -> B) (i : nat) (l : list A) : list B :=
  match l with
  | [] => []
  | x :: l' => f i x :: mapi_from f (S i) l'
  end.

(** <<
function parseOptions(optionsStr) {
  if (!optionsStr || !optionsStr.trim()) return [];
  return optionsStr.split(';').map((o) => o.trim()).filter(Boolean)
    .map((label, i) => ({ ... }));
}
>> *)
Definition parseOptions (optionsStr : jstr) : list ChoiceOption :=
  if negb (str_truthy optionsStr) || negb (str_truthy (trim optionsStr))
  then []
  else mapi_from make_option 0
         (filter str_truthy (map trim (split_semi optionsStr))).

(** ** JSON values and [JSON.stringify] *)

(** A value parsed from a JSON response body.  Numbers are the integral
    ones; object members are kept in insertion order. *)
Set Warnings "-register-all".
Inductive json : Type :=
| JNull
| JBool (b : bool)
| JNum (z : Z)
| JStr (s : jstr)
| JArr (l : list json)
| JObj (kvs : list (jstr * json)).

Section JsonInd.
Variable P : json -> Prop.
Hypothesis HNull : P JNull.
Hypothesis HBool : forall b, P (JBool b).
Hypothesis HNum : forall z, P (JNum z).
Hypothesis HStr : forall s, P (JStr s).
Hypothesis HArr : forall l, Forall P l -> P (JArr l).
Hypothesis HObj : forall kvs, Forall (fun kv => P (snd kv)) kvs -> P (JObj kvs).

Fixpoint json_ind' (j : json) : P j :=
  match j with
  | JNull => HNull
  | JBool b => HBool b
  | JNum z => HNum z
  | JStr s => HStr s
  | JArr l =>
      HArr l ((fix go (l : list json) : Forall P l :=
                 match l with
                 | [] => Forall_nil _
                 | x :: l' => Forall_cons x (json_ind' x) (go l')
                 end) l)
  | JObj kvs =>
      HObj kvs ((fix go (kvs : list (jstr * json))
                   : Forall (fun kv => P (snd kv)) kvs :=
                   match kvs with
                   | [] => Forall_nil _
                   | (k, v) :: r => Forall_cons (k, v) (json_ind' v) (go r)
                   end) kvs)
  end.
End JsonInd.

(** The double quote and the backslash. *)
Definition dq : ascii := Ascii false true false false false true false false.
Definition bs : ascii := Ascii false false true true true false true false.

Definition hex_digit (n : nat) : ascii :=
  if n <? 10 then ascii_of_nat (48 + n) else ascii_of_nat (87 + n).

(** One code unit of a string as [JSON.stringify] writes it (QuoteJSONString):
    a double quote or a backslash is preceded by a backslash, BS, TAB, LF,
    FF and CR get their short escapes, the other control characters are
    written [\u00xx] with lowercase hexadecimal digits, and every other
    code unit is written as it is. *)
Definition esc_char (c : ascii) : jstr :=
  if Ascii.eqb c dq then [bs; dq]
  else if Ascii.eqb c bs then [bs; bs]
  else match code c with
       | 8 => [bs; "b"%char]
       | 9 => [bs; "t"%char]
       | 10 => [bs; "n"%char]
       | 12 => [bs; "f"%char]
       | 13 => [bs; "r"%char]
       | n => if n <? 32
              then [bs; "u"%char; "0"%char; "0"%char;
                    hex_digit (n / 16); hex_digit (n mod 16)]
              else [c]
       end.

Definition esc (s : jstr) : jstr := flat_map esc_char s.

Definition quote (s : jstr) : jstr := dq :: esc s ++ [dq].

Definition z_to_jstr (z : Z) : jstr :=
  lit (NilEmpty.string_of_int (Z.to_int z)).

(** [JSON.stringify] without indentation. *)
Fixpoint stringify (j : json) : jstr :=
  match j with
  | JNull => lit "null"
  | JBool true => lit "true"
  | JBool false => lit "false"
  | JNum z => z_to_jstr z
  | JStr s => quote s
  | JArr l =>
      "["%char ::
        (fix elems (first : bool) (l : list json) : jstr :=
           match l with
           | [] => []
           | x :: l' => (if first then [] else [","%char])
                          ++ stringify x ++ elems false l'
           end) true l ++ ["]"%char]
  | JObj kvs =>
      "{"%char ::
        (fix mems (first : bool) (kvs : list (jstr * json)) : jstr :=
           match kvs with
           | [] => []
           | (k, v) :: r => (if first then [] else [","%char])
                              ++ quote k ++ ":"%char :: stringify v
                              ++ mems false r
           end) true kvs ++ ["}"%char]
  end.

(** ** Regular expressions, as backtracking matchers in continuation style *)

Section Matchers.
Variable R : Type.
Definition cont := jstr -> option R.

(** a literal code unit *)
Definition m_chr (c : ascii) (s : jstr) (k : cont) : option R :=
  match s with
  | x :: s' => if Ascii.eqb x c then k s' else None
  | [] => None
  end.

(** a character class *)
Definition m_cls (p : ascii -> bool) (s : jstr) (k : cont) : option R :=
  match s with
  | x :: s' => if p x then k s' else None
  | [] => None
  end.

(** [[...]*]: greedy, backtracking one code unit at a time *)
Fixpoint m_star (p : ascii -> bool) (s : jstr) (k : cont) : option R :=
  match s with
  | x :: s' =>
      if p x then
        match m_star p s' k with
        | Some r => Some r
        | None => k s
        end
      else k s
  | [] => k []
  end.

(** [[...]+] *)
Definition m_plus (p : ascii -> bool) (s : jstr) (k : cont) : option R :=
  m_cls p s (fun s' => m_star p s' k).

(** a literal word *)
Fixpoint m_word (w : jstr) (s : jstr) (k : cont) : option R :=
  match w with
  | [] => k s
  | c :: w' => m_chr c s (fun s' => m_word w' s' k)
  end.

(** [(?:...)?]: greedy optional group *)
Definition m_opt (m : jstr -> cont -> option R) (s : jstr) (k : cont)
  : option R :=
  match m s k with
  | Some r => Some r
  | None => k s
  end.

(** a capturing group: the continuation receives the captured text *)
Definition m_group (m : jstr -> cont -> option R) (s : jstr)
           (k : jstr -> cont) : option R :=
  m s (fun s' => k (firstn (List.length s - List.length s') s) s').
End Matchers.

Arguments m_chr {R}. Arguments m_cls {R}. Arguments m_star {R}.
Arguments m_plus {R}. Arguments m_word {R}. Arguments m_opt {R}.
Arguments m_group {R}.

(** A match at the start of the input: the first capture and the input
    left after the match ([lastIndex]). *)
Definition matcher := jstr -> option (jstr * jstr).

Definition is_P (c : ascii) : bool := Ascii.eqb c "P"%char || Ascii.eqb c "p"%char.
Definition is_N (c : ascii) : bool := Ascii.eqb c "N"%char || Ascii.eqb c "n"%char.

(** The regular expression of [extractPropNamesFromJson], token by token,
    with Q standing for the double quote:
    [Q [a-zA-Z]* [Pp]roperty (?:[Nn]ame)? Q \s* : \s* Q ( [a-z] [a-z0-9_]* ) Q] *)
Definition re_prop : matcher := fun s =>
  m_chr dq s (fun s =>
  m_star is_alpha s (fun s =>
  m_cls is_P s (fun s =>
  m_word (lit "roperty") s (fun s =>
  m_opt (fun s k => m_cls is_N s (fun s => m_word (lit "ame") s k)) s (fun s =>
  m_chr dq s (fun s =>
  m_star is_ws s (fun s =>
  m_chr ":"%char s (fun s =>
  m_star is_ws s (fun s =>
  m_chr dq s (fun s =>
  m_group (fun s k => m_cls is_lower s (fun s => m_star is_name_char s k)) s
    (fun cap s =>
  m_chr dq s (fun s => Some (cap, s))))))))))))).

(** [/\{\{[a-z_]+\.([a-z0-9_]+)\}\}/] *)
Definition re_token : matcher := fun s =>
  m_chr "{"%char s (fun s =>
  m_chr "{"%char s (fun s =>
  m_plus is_lower_us s (fun s =>
  m_chr "."%char s (fun s =>
  m_group (fun s k => m_plus is_name_char s k) s (fun cap s =>
  m_chr "}"%char s (fun s =>
  m_chr "}"%char s (fun s => Some (cap, s)))))))).

(** [while ((m = re.exec(str)) !== null) ...] with the [g] flag: [exec]
    tries every position from [lastIndex] on; a match moves [lastIndex]
    to its end.  Both expressions only match non-empty text, so
    [length s + 1] rounds always suffice. *)
Fixpoint scan_from (re : matcher) (fuel : nat) (s : jstr) : list jstr :=
  match fuel with
  | 0 => []
  | S fuel' =>
      match re s with
      | Some (cap, rest) => cap :: scan_from re fuel' rest
      | None =>
          match s with
          | [] => []
          | _ :: s' => scan_from re fuel' s'
          end
      end
  end.

Definition exec_all (re : matcher) (s : jstr) : list jstr :=
  scan_from re (S (List.length s)) s.

(** ** JavaScript [Set], in insertion order *)

Definition jstr_eqb (a b : jstr) : bool :=
  if list_eq_dec ascii_dec a b then true else false.

Definition set_add {A} (eqb : A -> A -> bool) (x : A) (s : list A) : list A :=
  if existsb (eqb x) s then s else s ++ [x].

Definition set_add_all {A} (eqb : A -> A -> bool) (s : list A) (xs : list A)
  : list A :=
  fold_left (fun acc x => set_add eqb x acc) xs s.

(** ** Reference Extractor: structural and token strategies *)

(** <<
function extractPropNamesFromJson(str) {
  const names = new Set();
  const re = ...;   // the expression of [re_prop], with the g flag
  let m;
  while ((m = re.exec(str)) !== null) names.add(m[1]);
  return names;
}
>> *)
Definition extractPropNamesFromJson (str : jstr) : list jstr :=
  set_add_all jstr_eqb [] (exec_all re_prop str).

(** <<
function extractPropsFromJsonWithTokens(obj) {
  const str = JSON.stringify(obj);
  const names = extractPropNamesFromJson(str);
  const tokenRe = /\{\{[a-z_]+\.([a-z0-9_]+)\}\}/g;
  let m;
  while ((m = tokenRe.exec(str)) !== null) names.add(m[1]);
  return names;
}
>> *)
Definition extractPropsFromJsonWithTokens (obj : json) : list jstr :=
  let str := stringify obj in
  set_add_all jstr_eqb (extractPropNamesFromJson str) (exec_all re_token str).

Definition extractWorkflowProps (workflow : json) : list jstr :=
  extractPropsFromJsonWithTokens workflow.
Definition extractEmailProps (email : json) : list jstr :=
  extractPropsFromJsonWithTokens email.
Definition extractListProps (list0 : json) : list jstr :=
  extractPropNamesFromJson (stringify list0).
Definition extractPipelineProps (pipeline : json) : list jstr :=
  extractPropNamesFromJson (stringify pipeline).
Definition extractReportProps (report : json) : list jstr :=
  extractPropNamesFromJson (stringify report).

(** ** What the structural regular expression accepts *)

(** [[a-zA-Z]*[Pp]roperty(?:[Nn]ame)?]: the key part of a match. *)
Definition key_suffix (K : jstr) : Prop :=
  exists w p n,
    K = w ++ p :: lit "roperty" ++ n
    /\ Forall (fun c => is_alpha c = true) w
    /\ is_P p = true
    /\ (n = [] \/ exists n0, n = n0 :: lit "ame" /\ is_N n0 = true).

(** [[a-z][a-z0-9_]*]: the shape of a HubSpot internal name. *)
Definition is_ident (v : jstr) : Prop :=
  exists c t, v = c :: t /\ is_lower c = true
              /\ Forall (fun x => is_name_char x = true) t.

(** What follows the closing quote of the key: white space, a colon, white
    space, and the captured name between double quotes. *)
Definition cont_match (T cap rest : jstr) : Prop :=
  exists sp1 sp2,
    T = sp1 ++ ":"%char :: sp2 ++ dq :: cap ++ dq :: rest
    /\ Forall (fun c => is_ws c = true) sp1
    /\ Forall (fun c => is_ws c = true) sp2
    /\ is_ident cap.

(** A match of the whole expression at the start of [s]. *)
Definition prop_match (s cap rest : jstr) : Prop :=
  exists K T, s = dq :: K ++ dq :: T /\ key_suffix K /\ cont_match T cap rest.

(** ** Where a matching key can sit in serialised JSON *)

(** Every member [(key, value)] of every object inside a JSON value, at any
    depth, in document order. *)
Fixpoint members (j : json) : list (jstr * json) :=
  match j with
  | JArr l => flat_map members l
  | JObj kvs => flat_map (fun kv => kv :: members (snd kv)) kvs
  | _ => []
  end.

(** A key the structural expression recognises once the key has been
    serialised: its tail [K] matches [[a-zA-Z]*[Pp]roperty(?:[Nn]ame)?] and
    starts at the beginning of the key or right after a double quote that
    the key contains (which [JSON.stringify] writes as a backslash and a
    double quote, so the expression can start at it). *)
Definition key_hit (k : jstr) : Prop :=
  exists pre K, k = pre ++ K
    /\ (pre = [] \/ exists p, pre = p ++ [dq])
    /\ key_suffix K.

(** What can follow a serialised value inside a serialised document: the
    end of the text, a comma, or a closing bracket or brace. *)
Definition delim (rest : jstr) : Prop :=
  rest = [] \/ exists c r, rest = c :: r /\ In c [","%char; "]"%char; "}"%char].

(** Serialised array elements and object members, as [stringify] writes them. *)
Fixpoint ser_elems (first : bool) (l : list json) : jstr :=
  match l with
  | [] => []
  | x :: l' => (if first then [] else [","%char]) ++ stringify x ++ ser_elems false l'
  end.

Fixpoint ser_mems (first : bool) (kvs : list (jstr * json)) : jstr :=
  match kvs with
  | [] => []
  | (k, v) :: r => (if first then [] else [","%char])
                     ++ quote k ++ ":"%char :: stringify v ++ ser_mems false r
  end.

(** The structural expression scanning [stringify j] followed by [rest]:
    the names it captures inside [j] are those of [prop_hit j]. *)
Definition prop_hit (j : json) (v : jstr) : Prop :=
  exists k, In (k, JStr v) (members j) /\ key_hit k /\ is_ident v.

Definition json_scan_ok (j : json) : Prop :=
  forall rest, delim rest ->
  exists l, exec_all re_prop (stringify j ++ rest) = l ++ exec_all re_prop rest
    /\ (forall v, In v l <-> prop_hit j v).

(** A one-member object, for examples. *)
Definition obj1 (k v : string) : json := JObj [(lit k, JStr (lit v))].

(** ** What the token expression accepts *)

(** A match of [\{\{[a-z_]+\.([a-z0-9_]+)\}\}] at the start of [s]: the
    captured field id [f] and the text after the match. *)
Definition token_match (s f rest : jstr) : Prop :=
  exists src, s = "{"%char :: "{"%char :: src ++ "."%char :: f ++ "}"%char :: "}"%char :: rest
    /\ src <> [] /\ Forall (fun c => is_lower_us c = true) src
    /\ f <> [] /\ Forall (fun c => is_name_char c = true) f.

(** [f] is the field id of a placeholder occurring somewhere in [s]. *)
Definition token_occ (s f : jstr) : Prop :=
  exists a t rest, s = a ++ t /\ token_match t f rest.

(** ** JavaScript values read from a parsed response body *)

(** Truthiness ([if (x)], [x || y], [while (x)]). *)
Definition truthy (v : json) : bool :=
  match v with
  | JNull => false
  | JBool b => b
  | JNum z => negb (Z.eqb z 0)
  | JStr s => str_truthy s
  | JArr _ | JObj _ => true
  end.

(** Truthiness of a value that may be [undefined] ([None]). *)
Definition truthy_u (v : option json) : bool :=
  match v with Some j => truthy j | None => false end.

(** The binding of [k] in a parsed object: [JSON.parse] keeps the last of
    duplicate keys. *)
Fixpoint assoc_last {A} (k : jstr) (kvs : list (jstr * A)) : option A :=
  match kvs with
  | [] => None
  | (k', v) :: r => match assoc_last k r with
                    | Some w => Some w
                    | None => if jstr_eqb k k' then Some v else None
                    end
  end.

(** [Some i] when [k] is the canonical decimal key of an index [i] with
    [lo <= i < lo + n]. *)
Fixpoint index_key (k : jstr) (lo n : nat) : option nat :=
  match n with
  | O => None
  | S n' => if jstr_eqb k (nat_to_jstr lo) then Some lo else index_key k (S lo) n'
  end.

(** [v[k]] on a value that is neither [null] nor [undefined] ([None] is
    [undefined]): the members of an object, the elements and [length] of
    an array or a string.  The remaining properties come from the
    prototypes ([Object.prototype], [Array.prototype], ...), and none of
    them has a name the code below reads on a parsed value. *)
Definition js_get (v : json) (k : jstr) : option json :=
  match v with
  | JObj kvs => assoc_last k kvs
  | JArr l =>
      if jstr_eqb k (lit "length") then Some (JNum (Z.of_nat (List.length l)))
      else match index_key k 0 (List.length l) with
           | Some i => nth_error l i
           | None => None
           end
  | JStr s =>
      if jstr_eqb k (lit "length") then Some (JNum (Z.of_nat (List.length s)))
      else match index_key k 0 (List.length s) with
           | Some i => option_map (fun c => JStr [c]) (nth_error s i)
           | None => None
           end
  | _ => None
  end.

(** A thrown exception: its [message] and, for an error of axios that
    carries a response, the [data] of that response. *)
Record js_error := mkError { err_message : jstr; err_data : option json }.

Definition type_error (msg : jstr) : js_error := mkError msg None.

(** [v.k] or [v[k]] where [v] may be [null]: reading a property of [null]
    throws a [TypeError]. *)
Definition member (v : json) (k : jstr) : js_error + option json :=
  match v with
  | JNull => inl (type_error (lit "Cannot read properties of null (reading '"
                              ++ k ++ lit "')"))
  | _ => inr (js_get v k)
  end.

(** [v?.k] *)
Definition get_opt (v : option json) (k : jstr) : option json :=
  match v with
  | None | Some JNull => None
  | Some j => js_get j k
  end.

(** [v ?? d] *)
Definition nullish (v : option json) (d : json) : json :=
  match v with
  | None | Some JNull => d
  | Some j => j
  end.

(** [String(v)], as a template literal converts a value. *)
Fixpoint js_to_string (v : json) : jstr :=
  match v with
  | JNull => lit "null"
  | JBool true => lit "true"
  | JBool false => lit "false"
  | JNum z => z_to_jstr z
  | JStr s => s
  | JArr l =>
      (fix join (first : bool) (l : list json) : jstr :=
         match l with
         | [] => []
         | x :: r => (if first then [] else [","%char])
                       ++ (match x with JNull => [] | _ => js_to_string x end)
                       ++ join false r
         end) true l
  | JObj _ => lit "[object Object]"
  end.

(** ** paginateHubSpot (the Cursor Paginator) *)

(** A query-parameter object, keys in insertion order. *)
Definition params := list (jstr * json).

(** [o[k] = v] on a plain object: an existing key keeps its place. *)
Fixpoint obj_set (k : jstr) (v : json) (o : params) : params :=
  match o with
  | [] => [(k, v)]
  | (k', v') :: r => if jstr_eqb k k' then (k', v) :: r else (k', v') :: obj_set k v r
  end.

(** [{ ...o, ...src }] *)
Definition obj_assign (o src : params) : params :=
  fold_left (fun acc kv => obj_set (fst kv) (snd kv) acc) src o.

(** [{ limit: 100, ...extra, ...(after ? { after } : {}) }] *)
Definition hubspot_params (extra : params) (after : json) : params :=
  obj_assign (obj_assign [(lit "limit", JNum 100)] extra)
             (if truthy after then [(lit "after", after)] else []).

(** An [axios.get] call: the URL, the [Authorization] header and the
    [params] object. *)
Record request := mkRequest {
  req_url : jstr;
  req_auth : jstr;
  req_params : params
}.

(** The CRM as seen by axios: the parsed body of a response with a
    success status, or the error axios throws (transport failure or
    non-success status). *)
Definition server := request -> js_error + json.

(** How a run of asynchronous code ends: with a value, with an uncaught
    exception, or not within the given number of loop iterations. *)
Inductive outcome (A : Type) : Type :=
| Ret (a : A)
| Throw (e : js_error)
| NoFuel.
Arguments Ret {A} a.
Arguments Throw {A} e.
Arguments NoFuel {A}.

Definition bearer (token : json) : jstr := lit "Bearer " ++ js_to_string token.

Definition page_request (token : json) (url : jstr) (extra : params)
  (after : json) : request :=
  mkRequest url (bearer token) (hubspot_params extra after).

(** [res.data.paging?.next?.after ?? null] *)
Definition next_cursor (data : json) : json :=
  nullish (get_opt (get_opt (js_get data (lit "paging")) (lit "next")) (lit "after"))
          JNull.

(** <<
async function paginateHubSpot(token, url, key, extra = {}) {
  const items = [];
  let after = null;
  do {
    const res = await axios.get(url, {
      headers: { Authorization: `Bearer ${token}` },
      params: { limit: 100, ...extra, ...(after ? { after } : {}) },
    });
    const batch = res.data[key];
    if (Array.isArray(batch)) items.push(...batch);
    after = res.data.paging?.next?.after ?? null;
  } while (after);
  return items;
}
>>
    One iteration of the loop per unit of [fuel]; the result pairs the
    requests issued, in order, with the outcome. *)
Fixpoint paginate_go (srv : server) (token : json) (url key : jstr)
  (extra : params) (fuel : nat) (items : list json) (after : json)
  : list request * outcome (list json) :=
  match fuel with
  | O => ([], NoFuel)
  | S fuel' =>
      let r := page_request token url extra after in
      match srv r with
      | inl e => ([r], Throw e)
      | inr data =>
          match member data key with
          | inl e => ([r], Throw e)
          | inr batch =>
              let items' := match batch with
                            | Some (JArr l) => items ++ l
                            | _ => items
                            end in
              let after' := next_cursor data in
              if truthy after'
              then let p := paginate_go srv token url key extra fuel' items' after' in
                   (r :: fst p, snd p)
              else ([r], Ret items')
          end
      end
  end.

Definition paginateHubSpot (fuel : nat) (srv : server) (token : json)
  (url key : jstr) (extra : params) : list request * outcome (list json) :=
  paginate_go srv token url key extra fuel [] JNull.

(** The items a page body contributes: the array under [key], if any. *)
Definition page_batch (key : jstr) (data : json) : list json :=
  match js_get data key with Some (JArr l) => l | _ => [] end.

(** [pages_from a ds a']: starting from cursor [a], the server answers
    with the non-null bodies [ds] in turn, each carrying a truthy next
    cursor, and the cursor after the last of them is [a']. *)
Inductive pages_from (srv : server) (token : json) (url : jstr) (extra : params)
  : json -> list json -> json -> Prop :=
| pages_nil a : pages_from srv token url extra a [] a
| pages_cons a d ds a' :
    srv (page_request token url extra a) = inr d -> d <> JNull ->
    truthy (next_cursor d) = true ->
    pages_from srv token url extra (next_cursor d) ds a' ->
    pages_from srv token url extra a (d :: ds) a'.

(** The cursors sent along the pages [ds], starting from [a]. *)
Fixpoint cursors (a : json) (ds : list json) : list json :=
  match ds with
  | [] => []
  | d :: r => a :: cursors (next_cursor d) r
  end.

(** A page of the consecutive numbers [lo .. lo + n - 1], under
    [results], with the next cursor [next] if any. *)
Definition numbers_page (lo n : nat) (next : option jstr) : json :=
  JObj ((lit "results", JArr (map (fun i => JNum (Z.of_nat i)) (seq lo n)))
        :: match next with
           | Some c => [(lit "paging", JObj [(lit "next", JObj [(lit "after", JStr c)])])]
           | None => []
           end).

(** A CRM endpoint serving 237 items as pages of 100, 100 and 37. *)
Definition srv_237 : server := fun r =>
  match assoc_last (lit "after") (req_params r) with
  | None => inr (numbers_page 0 100 (Some (lit "p2")))
  | Some (JStr c) =>
      if jstr_eqb c (lit "p2") then inr (numbers_page 100 100 (Some (lit "p3")))
      else if jstr_eqb c (lit "p3") then inr (numbers_page 200 37 None)
      else inl (mkError (lit "Request failed with status code 400") None)
  | Some _ => inl (mkError (lit "Request failed with status code 400") None)
  end.

(** ** Sequencing of code that may throw *)

Definition obind {A B} (o : outcome A) (f : A -> outcome B) : outcome B :=
  match o with
  | Ret a => f a
  | Throw e => Throw e
  | NoFuel => NoFuel
  end.

Notation "'let*' x ':=' m 'in' k" := (obind m (fun x => k))
  (at level 200, x name, m at level 100, k at level 200).

Definition of_sum {A} (x : js_error + A) : outcome A :=
  match x with inl e => Throw e | inr a => Ret a end.

(** A [for ... of] loop whose body updates [acc]. *)
Fixpoint ofold {A B} (f : A -> B -> outcome A) (acc : A) (l : list B) : outcome A :=
  match l with
  | [] => Ret acc
  | x :: r => obind (f acc x) (fun acc' => ofold f acc' r)
  end.

(** [for (const x of (v || []))]: the values the loop visits.  A falsy
    value gives the empty array; an array gives its elements, a string
    its characters; any other value is not iterable and the loop throws a
    TypeError naming the iterated expression [what]. *)
Definition iterate (what : jstr) (v : option json) : js_error + list json :=
  match v with
  | None => inr []
  | Some j =>
      if truthy j then
        match j with
        | JArr l => inr l
        | JStr s => inr (map (fun c => JStr [c]) s)
        | _ => inl (type_error (what ++ lit " is not iterable"))
        end
      else inr []
  end.

(** [Object.is]-like comparison of a [Set] on parsed values
    (SameValueZero): primitives by value; two arrays or objects are equal
    only when they are the same object, and every array or object the
    form walk adds is a different node of the parsed tree. *)
Definition same_value_zero (a b : json) : bool :=
  match a, b with
  | JNull, JNull => true
  | JBool x, JBool y => Bool.eqb x y
  | JNum x, JNum y => Z.eqb x y
  | JStr x, JStr y => jstr_eqb x y
  | _, _ => false
  end.

(** ** extractFormProps (the form walk) *)

(** <<
  function scanFields(fields) {
    for (const field of (fields || [])) {
      if (field.name) names.add(field.name);
      for (const dep of (field.dependentFields || [])) {
        for (const filter of (dep.dependentFieldFilters || [])) {
          if (filter.dependentFormField) {
            scanFields([filter.dependentFormField]);
          }
        }
        scanFields(dep.fields);
      }
    }
  }
>>
    The set [names] is threaded through; one unit of [fuel] per nested
    call. *)
Fixpoint scanFields (fuel : nat) (fields : option json) (names : list json)
  : outcome (list json) :=
  match fuel with
  | O => NoFuel
  | S fuel' =>
      let* fs := of_sum (iterate (lit "fields") fields) in
      ofold (fun names field =>
        let* nm := of_sum (member field (lit "name")) in
        let names := match nm with
                     | Some v => if truthy v then set_add same_value_zero v names
                                 else names
                     | None => names
                     end in
        let* dfs := of_sum (member field (lit "dependentFields")) in
        let* deps := of_sum (iterate (lit "field.dependentFields") dfs) in
        ofold (fun names dep =>
          let* dff := of_sum (member dep (lit "dependentFieldFilters")) in
          let* filters := of_sum (iterate (lit "dep.dependentFieldFilters") dff) in
          let* names := ofold (fun names filter =>
              let* g := of_sum (member filter (lit "dependentFormField")) in
              match g with
              | Some g => if truthy g then scanFields fuel' (Some (JArr [g])) names
                          else Ret names
              | None => Ret names
              end) names filters in
          let* sub := of_sum (member dep (lit "fields")) in
          scanFields fuel' sub names) names deps) names fs
  end.

Definition is_arr (j : json) : bool :=
  match j with JArr _ => true | _ => false end.

(** The number of nodes of a value, the [fuel] of the walk. *)
Fixpoint json_size (j : json) : nat :=
  match j with
  | JArr l =>
      S ((fix sz (l : list json) : nat :=
            match l with [] => 0 | x :: r => json_size x + sz r end) l)
  | JObj kvs =>
      S ((fix sz (kvs : list (jstr * json)) : nat :=
            match kvs with [] => 0 | (_, v) :: r => json_size v + sz r end) kvs)
  | _ => 1
  end.

Definition size_opt (v : option json) : nat :=
  match v with Some j => json_size j | None => 0 end.

(** <<
function extractFormProps(form) {
  const names = new Set();
  function scanFields(fields) { ... }
  for (const group of (form.fieldGroups || [])) {
    scanFields(group.fields);
  }
  const legacyFields = form.formFields;
  if (Array.isArray(legacyFields)) {
    if (legacyFields.length > 0 && Array.isArray(legacyFields[0])) {
      for (const row of legacyFields) scanFields(row);
    } else {
      scanFields(legacyFields);
    }
  }
  return names;
}
>> *)
Definition extractFormProps_go (fuel : nat) (form : json) : outcome (list json) :=
  let* fg := of_sum (member form (lit "fieldGroups")) in
  let* groups := of_sum (iterate (lit "form.fieldGroups") fg) in
  let* names := ofold (fun names group =>
      let* gf := of_sum (member group (lit "fields")) in
      scanFields fuel gf names) [] groups in
  let* legacy := of_sum (member form (lit "formFields")) in
  match legacy with
  | Some (JArr l) =>
      if (0 <? List.length l) && is_arr (nth 0 l JNull)
      then ofold (fun names row => scanFields fuel (Some row) names) names l
      else scanFields fuel (Some (JArr l)) names
  | _ => Ret names
  end.

Definition extractFormProps (form : json) : outcome (list json) :=
  extractFormProps_go (json_size form) form.

(** ** What the form walk reaches *)

(** The elements of a list the walk reads: those of an array, none for a
    value that is absent or falsy. *)
Definition arr (v : option json) : list json :=
  match v with Some (JArr l) => l | _ => [] end.

(** A list position holds an array, or a value that is absent or falsy. *)
Definition list_ok (v : option json) : Prop :=
  match v with
  | None | Some (JArr _) => True
  | Some j => truthy j = false
  end.

Definition is_obj (j : json) : Prop := exists kvs, j = JObj kvs.

(** [reach v h]: the field [h] is an element of the field list [v] or is
    [below] one; [below f h]: [h] is reached from the field [f] through a
    conditional field [dependentFields[].dependentFieldFilters[].dependentFormField]
    (itself, or further down from it) or through a legacy sub-list
    [dependentFields[].fields]. *)
Inductive reach : option json -> json -> Prop :=
| reach_here v f : In f (arr v) -> reach v f
| reach_below v f h : In f (arr v) -> below f h -> reach v h
with below : json -> json -> Prop :=
| below_cond f dep flt g h :
    In dep (arr (js_get f (lit "dependentFields"))) ->
    In flt (arr (js_get dep (lit "dependentFieldFilters"))) ->
    js_get flt (lit "dependentFormField") = Some g -> truthy g = true ->
    reach (Some (JArr [g])) h -> below f h
| below_legacy f dep h :
    In dep (arr (js_get f (lit "dependentFields"))) ->
    reach (js_get dep (lit "fields")) h -> below f h.

(** The legacy [formFields] list is laid out in rows when its first
    element is an array. *)
Definition rows_first (l : list json) : bool :=
  match l with x :: _ => is_arr x | [] => false end.

(** The fields of a form: reached from a [fieldGroups[].fields] list, or
    from the legacy [formFields] list, flat or row by row. *)
Definition form_field (form h : json) : Prop :=
  (exists grp, In grp (arr (js_get form (lit "fieldGroups")))
               /\ reach (js_get grp (lit "fields")) h)
  \/ (exists l, js_get form (lit "formFields") = Some (JArr l)
       /\ if rows_first l then exists row, In row l /\ reach (Some row) h
          else reach (Some (JArr l)) h).

(** A truthy name of a field. *)
Definition field_name (h y : json) : Prop :=
  js_get h (lit "name") = Some y /\ truthy y = true.

(** Forms of the expected shape: every list the walk reads is an array
    (or absent or falsy), and every group, field, dependent entry and
    filter it visits is an object. *)
Inductive fields_ok : option json -> Prop :=
| fields_ok_intro v :
    list_ok v -> (forall f, In f (arr v) -> field_ok f) -> fields_ok v
with field_ok : json -> Prop :=
| field_ok_intro f :
    is_obj f -> list_ok (js_get f (lit "dependentFields")) ->
    (forall dep, In dep (arr (js_get f (lit "dependentFields"))) -> dep_ok dep) ->
    field_ok f
with dep_ok : json -> Prop :=
| dep_ok_intro dep :
    is_obj dep -> list_ok (js_get dep (lit "dependentFieldFilters")) ->
    (forall flt, In flt (arr (js_get dep (lit "dependentFieldFilters"))) -> filter_ok flt) ->
    fields_ok (js_get dep (lit "fields")) -> dep_ok dep
with filter_ok : json -> Prop :=
| filter_ok_intro flt :
    is_obj flt ->
    (forall g, js_get flt (lit "dependentFormField") = Some g -> truthy g = true ->
               field_ok g) ->
    filter_ok flt.

Definition form_ok (form : json) : Prop :=
  is_obj form
  /\ list_ok (js_get form (lit "fieldGroups"))
  /\ (forall grp, In grp (arr (js_get form (lit "fieldGroups"))) ->
                  is_obj grp /\ fields_ok (js_get grp (lit "fields")))
  /\ (forall l, js_get form (lit "formFields") = Some (JArr l) ->
        if rows_first l then forall row, In row l -> fields_ok (Some row)
        else fields_ok (Some (JArr l))).

(** Forms for examples: a field whose name is the empty string, a legacy
    list holding [null], and a form using every path of the walk. *)
Definition form_empty_name : json :=
  JObj [(lit "fieldGroups",
         JArr [JObj [(lit "fields",
                      JArr [JObj [(lit "name", JStr [])];
                            JObj [(lit "name", JStr (lit "email"))]])]])].

Definition form_null_field : json :=
  JObj [(lit "formFields", JArr [JNull])].

Definition form_demo : json :=
  JObj [(lit "fieldGroups",
         JArr [JObj [(lit "fields",
           JArr [JObj [(lit "name", JStr (lit "email"));
                       (lit "dependentFields",
                        JArr [JObj [(lit "dependentFieldFilters",
                                     JArr [JObj [(lit "dependentFormField",
                                                  JObj [(lit "name", JStr (lit "plan"))])]]);
                                    (lit "fields",
                                     JArr [JObj [(lit "name", JStr (lit "legacy_dep"))]])]])]])]]);
        (lit "formFields", JArr [JArr [JObj [(lit "name", JStr (lit "row_field"))]]])].

(** An endpoint whose first page holds a string instead of an array
    under [results], and a second page of one item. *)
Definition srv_malformed : server := fun r =>
  match assoc_last (lit "after") (req_params r) with
  | None => inr (JObj [(lit "results", JStr (lit "oops"));
                       (lit "paging", JObj [(lit "next", JObj [(lit "after", JStr (lit "p2"))])])])
  | Some _ => inr (JObj [(lit "results", JArr [JNum 1])])
  end.

(** ** The usage scan: [POST /api/fetch-usage-context] *)

(** *** [usageDetails], a plain object used as a map

    [usageDetails] is created by [{}], so a read [usageDetails[p]] that
    finds no own property goes on to [Object.prototype]: its built-in
    methods, its [__proto__] accessor (which gives [Object.prototype]
    itself) and any property the scan has put there.  The code stores
    only objects below [usageDetails]: the [{}] of a field and the [[]]
    of a field and a kind.  An object met below [usageDetails] is thus
    [Object.prototype], one of its built-in methods, a [{}] or an array
    created by [addUsage]. *)
Inductive oref : Type :=
| OProto
| OBuiltin (name : jstr)
| OFresh (n : nat)
| OArr (n : nat).

Definition oref_eqb (a b : oref) : bool :=
  match a, b with
  | OProto, OProto => true
  | OBuiltin x, OBuiltin y => jstr_eqb x y
  | OFresh x, OFresh y => Nat.eqb x y
  | OArr x, OArr y => Nat.eqb x y
  | _, _ => false
  end.

(** The methods [Object.prototype] has of its own. *)
Definition object_prototype_methods : list jstr :=
  [lit "constructor"; lit "__defineGetter__"; lit "__defineSetter__";
   lit "hasOwnProperty"; lit "__lookupGetter__"; lit "__lookupSetter__";
   lit "isPrototypeOf"; lit "propertyIsEnumerable"; lit "toString";
   lit "valueOf"; lit "toLocaleString"].

(** An item name pushed by [addUsage], with the number of the item it
    was read from.  [includes] compares primitives by value and objects
    by identity, and a name that is an object is a node of its item
    only. *)
Definition item_name := (nat * json)%type.

Definition name_eqb (a b : item_name) : bool :=
  match snd a, snd b with
  | JArr _, JArr _ | JObj _, JObj _ => Nat.eqb (fst a) (fst b)
  | _, _ => same_value_zero (snd a) (snd b)
  end.

(** The objects reachable from [usageDetails]: its own properties, the
    properties named like a kind that [addUsage] set on an object (each
    holds an array, by number), the contents of these arrays, and the
    number of [{}] created so far. *)
Record heap := mkHeap {
  ud_own : list (jstr * oref);
  kind_own : list (oref * jstr * nat);
  arrays : list (list item_name);
  fresh : nat
}.

Fixpoint kind_lookup (ks : list (oref * jstr * nat)) (r : oref) (t : jstr)
  : option nat :=
  match ks with
  | [] => None
  | (r', t', a) :: ks' =>
      if oref_eqb r r' && jstr_eqb t t' then Some a else kind_lookup ks' r t
  end.

(** [usageDetails[p]] *)
Definition ud_get (h : heap) (p : jstr) : option oref :=
  match assoc_last p (ud_own h) with
  | Some r => Some r
  | None =>
      match kind_lookup (kind_own h) OProto p with
      | Some a => Some (OArr a)
      | None =>
          if jstr_eqb p (lit "__proto__") then Some OProto
          else if existsb (jstr_eqb p) object_prototype_methods
               then Some (OBuiltin p) else None
      end
  end.

(** [o[t]] for an object [o] below [usageDetails] and a kind [t]: the
    own property of [o], else the one of [Object.prototype], which ends
    the prototype chain of every such object ([Function.prototype] and
    [Array.prototype], in between, have no property named like a kind). *)
Definition kind_get (h : heap) (r : oref) (t : jstr) : option nat :=
  match kind_lookup (kind_own h) r t with
  | Some a => Some a
  | None => kind_lookup (kind_own h) OProto t
  end.

Fixpoint upd_nth {A} (n : nat) (x : A) (l : list A) : list A :=
  match l, n with
  | [], _ => []
  | _ :: r, O => x :: r
  | y :: r, S n' => y :: upd_nth n' x r
  end.

(** <<
  function addUsage(propName, type, sourceName) {
    if (!usageDetails[propName]) usageDetails[propName] = {};
    if (!usageDetails[propName][type]) usageDetails[propName][type] = [];
    if (!usageDetails[propName][type].includes(sourceName)) {
      usageDetails[propName][type].push(sourceName);
    }
  }
>>
    [p] is [String(propName)], the key the object is indexed with; every
    value read below [usageDetails] is an object, hence truthy.  Each
    [usageDetails[propName]] and [usageDetails[propName][type]] is read
    again, as the code does; after the assignments the reads succeed, and
    the default values of the [match]es are never used. *)
Definition addUsage (h : heap) (p t : jstr) (s : item_name) : heap :=
  let h := match ud_get h p with
           | Some _ => h
           | None => mkHeap (ud_own h ++ [(p, OFresh (fresh h))]) (kind_own h)
                            (arrays h) (S (fresh h))
           end in
  let r := match ud_get h p with Some r => r | None => OProto end in
  let h := match kind_get h r t with
           | Some _ => h
           | None => mkHeap (ud_own h) (kind_own h ++ [(r, t, List.length (arrays h))])
                            (arrays h ++ [[]]) (fresh h)
           end in
  let a := match kind_get h r t with Some a => a | None => 0 end in
  let l := nth a (arrays h) [] in
  if existsb (name_eqb s) l then h
  else mkHeap (ud_own h) (kind_own h) (upd_nth a (l ++ [s]) (arrays h)) (fresh h).

(** [usageDetails[p]?.[t]]: the item names of field [p] and kind [t], as
    the code reads the map. *)
Definition usage_read (h : heap) (p t : jstr) : option (list item_name) :=
  match ud_get h p with
  | Some r => option_map (fun a => nth a (arrays h) []) (kind_get h r t)
  | None => None
  end.

(** The same pair in the body of the reply: [JSON.stringify] writes the
    own enumerable properties only. *)
Definition usage_reply (h : heap) (p t : jstr) : option (list item_name) :=
  match assoc_last p (ud_own h) with
  | Some r => option_map (fun a => nth a (arrays h) []) (kind_lookup (kind_own h) r t)
  | None => None
  end.

(** *** The state of the handler

    The local variables the six [try] blocks update.  The counts
    ([workflowCount], ...) are not modelled: they are written and never
    read, and reading [length] of the values involved never throws.
    [items_seen] numbers the items, for the identity of their names. *)
Record scan := mkScan {
  warnings : list jstr;
  usageDetails : heap;
  items_seen : nat;
  workflowProps : list jstr;
  formProps : list json;
  listProps : list jstr;
  pipelineProps : list jstr;
  emailProps : list jstr;
  reportProps : list jstr
}.

Definition push_warning (w : jstr) (s : scan) : scan :=
  mkScan (warnings s ++ [w]) (usageDetails s) (items_seen s) (workflowProps s)
         (formProps s) (listProps s) (pipelineProps s) (emailProps s) (reportProps s).

Definition set_usage (s : scan) (h : heap) : scan :=
  mkScan (warnings s) h (items_seen s) (workflowProps s)
         (formProps s) (listProps s) (pipelineProps s) (emailProps s) (reportProps s).

Definition set_items (s : scan) (i : nat) : scan :=
  mkScan (warnings s) (usageDetails s) i (workflowProps s)
         (formProps s) (listProps s) (pipelineProps s) (emailProps s) (reportProps s).

(** [workflowProps.add(name)], and so on for the other sets. *)
Definition add_workflow (n : jstr) (s : scan) : scan :=
  mkScan (warnings s) (usageDetails s) (items_seen s)
         (set_add jstr_eqb n (workflowProps s))
         (formProps s) (listProps s) (pipelineProps s) (emailProps s) (reportProps s).

Definition add_form (n : json) (s : scan) : scan :=
  mkScan (warnings s) (usageDetails s) (items_seen s) (workflowProps s)
         (set_add same_value_zero n (formProps s))
         (listProps s) (pipelineProps s) (emailProps s) (reportProps s).

Definition add_list (n : jstr) (s : scan) : scan :=
  mkScan (warnings s) (usageDetails s) (items_seen s) (workflowProps s)
         (formProps s) (set_add jstr_eqb n (listProps s))
         (pipelineProps s) (emailProps s) (reportProps s).

Definition add_pipeline (n : jstr) (s : scan) : scan :=
  mkScan (warnings s) (usageDetails s) (items_seen s) (workflowProps s)
         (formProps s) (listProps s) (set_add jstr_eqb n (pipelineProps s))
         (emailProps s) (reportProps s).

Definition add_email (n : jstr) (s : scan) : scan :=
  mkScan (warnings s) (usageDetails s) (items_seen s) (workflowProps s)
         (formProps s) (listProps s) (pipelineProps s)
         (set_add jstr_eqb n (emailProps s)) (reportProps s).

Definition add_report (n : jstr) (s : scan) : scan :=
  mkScan (warnings s) (usageDetails s) (items_seen s) (workflowProps s)
         (formProps s) (listProps s) (pipelineProps s) (emailProps s)
         (set_add jstr_eqb n (reportProps s)).

(** *** Statements that may throw, on the state of the handler

    An exception leaves the updates made before it in place. *)
Definition M (A : Type) := scan -> scan * outcome A.

Definition mret {A} (a : A) : M A := fun s => (s, Ret a).

Definition mbind {A B} (m : M A) (f : A -> M B) : M B := fun s =>
  match m s with
  | (s', Ret a) => f a s'
  | (s', Throw e) => (s', Throw e)
  | (s', NoFuel) => (s', NoFuel)
  end.

Notation "'letM' x ':=' m 'in' k" := (mbind m (fun x => k))
  (at level 200, x name, m at level 100, k at level 200).

Definition mseq (m : M unit) (k : M unit) : M unit := mbind m (fun _ => k).

Definition lift {A} (o : outcome A) : M A := fun s => (s, o).

Definition modify (f : scan -> scan) : M unit := fun s => (f s, Ret tt).

Definition next_item : M nat := fun s => (set_items s (S (items_seen s)), Ret (items_seen s)).

Fixpoint mfor {A} (l : list A) (f : A -> M unit) : M unit :=
  match l with
  | [] => mret tt
  | x :: r => mseq (f x) (mfor r f)
  end.

(** [`${label}: ${err.response?.data?.message || err.message}`] *)
Definition warning (label : jstr) (err : js_error) : jstr :=
  label ++ lit ": " ++
  match get_opt (err_data err) (lit "message") with
  | Some v => if truthy v then js_to_string v else err_message err
  | None => err_message err
  end.

(** [try { body } catch (err) { warnings.push(warning(label, err)); }] *)
Definition try_catch (label : jstr) (body : M unit) : M unit := fun s =>
  match body s with
  | (s', Throw e) => (push_warning (warning label e) s', Ret tt)
  | r => r
  end.

(** *** The item names *)

(** [a || b] *)
Definition or_else (a : option json) (b : json) : json :=
  match a with Some v => if truthy v then v else b | None => b end.

(** [a || (b)] where evaluating [b] may throw. *)
Definition or_else_m (a : option json) (b : outcome json) : outcome json :=
  match a with Some v => if truthy v then Ret v else b | None => b end.

(** [item.k1 || item.k2 || dflt] *)
Definition name_or_id (k1 k2 dflt : jstr) (item : json) : outcome json :=
  let* a := of_sum (member item k1) in
  or_else_m a (let* b := of_sum (member item k2) in Ret (or_else b (JStr dflt))).

(** [wf.name || `Workflow ${wf.id || ''}`.trim()] *)
Definition workflow_name (wf : json) : outcome json :=
  let* a := of_sum (member wf (lit "name")) in
  or_else_m a (let* b := of_sum (member wf (lit "id")) in
               Ret (JStr (trim (lit "Workflow " ++ js_to_string (or_else b (JStr [])))))).

(** *** The six sources *)

(** The loop every source runs on its items, for its set [add], its
    reference extractor [extract] and its kind:
    <<
    for (const item of items) {
      const itemName = <name of item>;
      for (const name of extract(item)) {
        props.add(name);
        addUsage(name, kind, itemName);
      }
    }
>>
    [key] is [String(name)]. *)
Definition item_loop {K} (name_of : json -> outcome json)
  (extract : json -> outcome (list K)) (add : K -> scan -> scan)
  (key : K -> jstr) (kind : jstr) (items : list json) : M unit :=
  mfor items (fun item =>
    letM nm := lift (name_of item) in
    letM id := next_item in
    letM names := lift (extract item) in
    mfor names (fun name =>
      mseq (modify (add name))
           (modify (fun s => set_usage s (addUsage (usageDetails s) (key name) kind (id, nm)))))).

Definition url_workflows : jstr := lit "https://api.hubapi.com/automation/v3/workflows".
Definition url_forms : jstr := lit "https://api.hubapi.com/marketing/v3/forms".
Definition url_lists : jstr := lit "https://api.hubapi.com/crm/v3/lists".
Definition url_emails : jstr := lit "https://api.hubapi.com/marketing/v3/emails".
Definition url_reports : jstr := lit "https://api.hubapi.com/reporting/v1/reports".

Definition pipeline_request (token : json) (pipelineObj : jstr) : request :=
  mkRequest (lit "https://api.hubapi.com/crm/v3/pipelines/" ++ pipelineObj) (bearer token) [].

Definition report_request (token : json) : request :=
  mkRequest url_reports (bearer token) [(lit "limit", JNum 300)].

(** The pipelines a response body gives, [res.data.results || []], as
    the [for ... of] loop visits them. *)
Definition pipeline_items (data : json) : js_error + list json :=
  match member data (lit "results") with
  | inl e => inl e
  | inr r => iterate (lit "pipelines") (Some (or_else r (JArr [])))
  end.

(** The reports of [reportRes.data.objects || reportRes.data.results || []]. *)
Definition report_items (data : json) : js_error + list json :=
  match member data (lit "objects") with
  | inl e => inl e
  | inr o =>
      if truthy_u o then iterate (lit "reports") o
      else match member data (lit "results") with
           | inl e => inl e
           | inr r => iterate (lit "reports") (Some (or_else r (JArr [])))
           end
  end.

Section Sources.
Variable fuel : nat.
Variable srv : server.
Variable token : json.

Definition workflows_block : M unit :=
  letM workflows := lift (snd (paginateHubSpot fuel srv token url_workflows (lit "workflows") [])) in
  item_loop workflow_name (fun wf => Ret (extractWorkflowProps wf)) add_workflow
            (fun n => n) (lit "workflows") workflows.

Definition forms_block : M unit :=
  letM forms := lift (snd (paginateHubSpot fuel srv token url_forms (lit "results") [])) in
  item_loop (name_or_id (lit "name") (lit "id") (lit "Unnamed Form")) extractFormProps
            add_form js_to_string (lit "forms") forms.

Definition lists_block : M unit :=
  letM lists := lift (snd (paginateHubSpot fuel srv token url_lists (lit "lists")
                             [(lit "includeFilters", JBool true)])) in
  item_loop (name_or_id (lit "name") (lit "listId") (lit "Unnamed List"))
            (fun l => Ret (extractListProps l)) add_list (fun n => n) (lit "lists") lists.

Definition pipelines_block : M unit :=
  mfor [lit "deals"; lit "tickets"] (fun pipelineObj =>
    letM data := lift (of_sum (srv (pipeline_request token pipelineObj))) in
    letM pipelines := lift (of_sum (pipeline_items data)) in
    item_loop (name_or_id (lit "label") (lit "id") (lit "Unnamed Pipeline"))
              (fun p => Ret (extractPipelineProps p)) add_pipeline (fun n => n)
              (lit "pipelines") pipelines).

Definition emails_block : M unit :=
  letM emails := lift (snd (paginateHubSpot fuel srv token url_emails (lit "results") [])) in
  item_loop (name_or_id (lit "name") (lit "id") (lit "Unnamed Email"))
            (fun e => Ret (extractEmailProps e)) add_email (fun n => n) (lit "emails") emails.

Definition reports_block : M unit :=
  letM data := lift (of_sum (srv (report_request token))) in
  letM reports := lift (of_sum (report_items data)) in
  item_loop (name_or_id (lit "name") (lit "id") (lit "Unnamed Report"))
            (fun r => Ret (extractReportProps r)) add_report (fun n => n) (lit "reports") reports.

(** The six [try] blocks, in the order of the handler. *)
Definition scan_all : M unit :=
  mseq (try_catch (lit "Workflows") workflows_block)
  (mseq (try_catch (lit "Forms") forms_block)
  (mseq (try_catch (lit "Lists") lists_block)
  (mseq (try_catch (lit "Pipelines") pipelines_block)
  (mseq (try_catch (lit "Marketing emails") emails_block)
        (try_catch (lit "Reports") reports_block))))).

End Sources.

(** The six sources of the scan with the labels of their warnings, in
    the order of the handler. *)
Definition usage_sources (fuel : nat) (srv : server) (token : json) : list (jstr * M unit) :=
  [(lit "Workflows", workflows_block fuel srv token);
   (lit "Forms", forms_block fuel srv token);
   (lit "Lists", lists_block fuel srv token);
   (lit "Pipelines", pipelines_block srv token);
   (lit "Marketing emails", emails_block fuel srv token);
   (lit "Reports", reports_block srv token)].

(** Sources run one after the other, each from the state the previous one
    left: a source that throws adds one warning [<label>: <message>] and
    the next source runs all the same. *)
Fixpoint run_isolated (bs : list (jstr * M unit)) (s : scan) : scan * outcome unit :=
  match bs with
  | [] => (s, Ret tt)
  | (label, b) :: r =>
      match b s with
      | (s', Ret _) => run_isolated r s'
      | (s', Throw e) => run_isolated r (push_warning (warning label e) s')
      | (s', NoFuel) => (s', NoFuel)
      end
  end.

(** The state when the handler starts, in a process whose
    [Object.prototype] has no property of the scan yet. *)
Definition init_scan : scan :=
  mkScan [] (mkHeap [] [] [] 0) 0 [] [] [] [] [] [].

(** The reply: [400] without a token, else the state the scan ends in,
    which [res.json] sends. *)
Inductive reply : Type :=
| Bad_request
| Usage (s : scan).

(** <<
app.post('/api/fetch-usage-context', async (req, res) => {
  const { token } = req.body;
  if (!token) return res.status(400).json({ success: false, error: 'token is required.' });
  const warnings = [];
  const usageDetails = {};
  function addUsage(propName, type, sourceName) { ... }
  // the six try blocks
  res.json({ success: true, workflowProperties: Array.from(workflowProps), ... });
});
>>
    [token] is [req.body.token], [None] when absent. *)
Definition fetch_usage_context (fuel : nat) (srv : server) (token : option json)
  : outcome reply :=
  match token with
  | Some t =>
      if truthy t then
        match scan_all fuel srv t init_scan with
        | (s, Ret _) => Ret (Usage s)
        | (_, Throw e) => Throw e
        | (_, NoFuel) => NoFuel
        end
      else Ret Bad_request
  | None => Ret Bad_request
  end.

(** *** Example CRM accounts *)

Definition http_error (status : jstr) (msg : option jstr) : js_error :=
  mkError (lit "Request failed with status code " ++ status)
          (option_map (fun m => JObj [(lit "message", JStr m)]) msg).

(** A server answering each endpoint of the scan with one page. *)
Definition srv_pages (wf forms lists deals tickets emails reports : js_error + json)
  : server := fun r =>
  let u := req_url r in
  if jstr_eqb u url_workflows then wf
  else if jstr_eqb u url_forms then forms
  else if jstr_eqb u url_lists then lists
  else if jstr_eqb u (req_url (pipeline_request JNull (lit "deals"))) then deals
  else if jstr_eqb u (req_url (pipeline_request JNull (lit "tickets"))) then tickets
  else if jstr_eqb u url_emails then emails
  else if jstr_eqb u url_reports then reports
  else inl (http_error (lit "404") None).

Definition demo_workflow : json :=
  JObj [(lit "name", JStr (lit "Welcome"));
        (lit "actions", JArr [JObj [(lit "propertyName", JStr (lit "lead_status"))]])].

Definition demo_list : json :=
  JObj [(lit "name", JStr (lit "Leads"));
        (lit "filters", JArr [JObj [(lit "property", JStr (lit "lifecyclestage"))]])].

Definition demo_pipeline : json :=
  JObj [(lit "label", JStr (lit "Sales"));
        (lit "stages", JArr [JObj [(lit "requiredProperty", JStr (lit "amount"))]])].

Definition demo_email : json :=
  JObj [(lit "name", JStr (lit "Newsletter"));
        (lit "subject", JStr (lit "Hi {{contact.firstname}}"))].

Definition demo_report : json :=
  JObj [(lit "name", JStr (lit "Deals by stage"));
        (lit "config", JObj [(lit "property", JStr (lit "dealstage"))])].

Definition forms_error : js_error := http_error (lit "403") (Some (lit "Missing scopes")).
Definition deals_page : json := JObj [(lit "results", JArr [demo_pipeline])].
Definition tickets_page : json := JObj [(lit "results", JArr [])].
Definition reports_page : json := JObj [(lit "objects", JArr [demo_report])].

(** An account whose forms endpoint refuses the token. *)
Definition srv_forms_down : server :=
  srv_pages (inr (JObj [(lit "workflows", JArr [demo_workflow])]))
            (inl forms_error)
            (inr (JObj [(lit "lists", JArr [demo_list])]))
            (inr deals_page) (inr tickets_page)
            (inr (JObj [(lit "results", JArr [demo_email])]))
            (inr reports_page).

(** An account with a workflow holding the token [{{contact.__proto__}}]
    and a list filtering on [phone]. *)
Definition srv_proto : server :=
  srv_pages (inr (JObj [(lit "workflows",
                         JArr [JObj [(lit "name", JStr (lit "W"));
                                     (lit "body", JStr (lit "{{contact.__proto__}}"))]])]))
            (inr (JObj [(lit "results", JArr [])]))
            (inr (JObj [(lit "lists",
                         JArr [JObj [(lit "name", JStr (lit "L"));
                                     (lit "filters", JArr [JObj [(lit "property", JStr (lit "phone"))]])]])]))
            (inr (JObj [(lit "results", JArr [])]))
            (inr (JObj [(lit "results", JArr [])]))
            (inr (JObj [(lit "results", JArr [])]))
            (inr (JObj [(lit "objects", JArr [])])).

(** ** The other routes of the server *)

(** *** Constants and their lookup *)

(** What reading a property of an object literal gives: an own property,
    a property inherited from [Object.prototype] (a built-in method, or
    [Object.prototype] itself through [__proto__]), or [undefined].  The
    process is one whose [Object.prototype] holds only its built-ins. *)
Inductive const_get (A : Type) : Type :=
| CG_own (a : A)
| CG_proto (k : jstr)
| CG_none.
Arguments CG_own {A} a.
Arguments CG_proto {A} k.
Arguments CG_none {A}.

Definition is_proto_key (k : jstr) : bool :=
  jstr_eqb k (lit "__proto__") || existsb (jstr_eqb k) object_prototype_methods.

(** [tbl[k]] *)
Definition const_lookup {A} (tbl : list (jstr * A)) (k : jstr) : const_get A :=
  match assoc_last k tbl with
  | Some a => CG_own a
  | None => if is_proto_key k then CG_proto k else CG_none
  end.

(** An entry of [PROPERTY_TYPES]; [enumeration] absent is [false]. *)
Record type_info := mkTypeInfo {
  ti_type : jstr;
  ti_fieldType : jstr;
  ti_enumeration : bool
}.

Definition PROPERTY_TYPES : list (jstr * type_info) :=
  [(lit "Drop-down Select", mkTypeInfo (lit "enumeration") (lit "select") true);
   (lit "Radio Select", mkTypeInfo (lit "enumeration") (lit "radio") true);
   (lit "Multiple Checkboxes", mkTypeInfo (lit "enumeration") (lit "checkbox") true);
   (lit "Single Line Text", mkTypeInfo (lit "string") (lit "text") false);
   (lit "Multi-line Text", mkTypeInfo (lit "string") (lit "textarea") false);
   (lit "Phone Number", mkTypeInfo (lit "string") (lit "phonenumber") false);
   (lit "URL", mkTypeInfo (lit "string") (lit "text") false);
   (lit "Rich Text", mkTypeInfo (lit "string") (lit "html") false);
   (lit "Number", mkTypeInfo (lit "number") (lit "number") false);
   (lit "Date Picker", mkTypeInfo (lit "date") (lit "date") false);
   (lit "Date and Time Picker", mkTypeInfo (lit "datetime") (lit "date") false)].

(** [Object.keys(PROPERTY_TYPES)] *)
Definition VALID_TYPES : list jstr := map fst PROPERTY_TYPES.

Definition DEFAULT_GROUPS : list (jstr * jstr) :=
  [(lit "contacts", lit "contactinformation");
   (lit "companies", lit "companyinformation");
   (lit "deals", lit "dealinformation");
   (lit "tickets", lit "ticketinformation");
   (lit "products", lit "productinformation")].

Definition standard_object (value label : string) : json :=
  JObj [(lit "value", JStr (lit value)); (lit "label", JStr (lit label))].

Definition STANDARD_OBJECTS : list json :=
  [standard_object "contacts" "Contacts"; standard_object "companies" "Companies";
   standard_object "deals" "Deals"; standard_object "tickets" "Tickets";
   standard_object "products" "Products"].

(** A value a route may hold: a JSON value, [undefined], or the property
    [k] of [Object.prototype]. *)
Inductive jsval : Type :=
| JSV (j : json)
| JSUndef
| JSProto (k : jstr).

(** A member of an object written by [JSON.stringify]: [undefined] and
    functions are left out, and [Object.prototype] is written [{}]. *)
Definition opt_field (k : jstr) (v : option json) : params :=
  match v with Some j => [(k, j)] | None => [] end.

Definition jsval_json (v : jsval) : option json :=
  match v with
  | JSV j => Some j
  | JSUndef => None
  | JSProto k => if jstr_eqb k (lit "__proto__") then Some (JObj []) else None
  end.

(** [String(v)] of a value that may be [undefined]. *)
Definition js_to_string_u (v : option json) : jstr :=
  match v with Some j => js_to_string j | None => lit "undefined" end.

(** [a || b] where [b] may be [undefined]. *)
Definition or_else_u (a b : option json) : option json :=
  if truthy_u a then a else b.

(** *** Calls to the CRM *)

(** An error axios throws: its [message] and, when the CRM answered,
    the status and the parsed body of the response.  Other exceptions
    (a [TypeError]) have no response. *)
Record axios_error := mkHttpError {
  he_message : jstr;
  he_response : option (Z * json)
}.

Definition of_js (e : js_error) : axios_error := mkHttpError (err_message e) None.

(** A call: the method, the URL, the [Authorization] header, the query
    parameters and the JSON body. *)
Record http_call := mkCall {
  call_method : jstr;
  call_url : jstr;
  call_auth : jstr;
  call_params : params;
  call_body : option json
}.

(** The CRM: the parsed body of a success response, or the error axios
    throws. *)
Definition api := http_call -> axios_error + json.

Definition get_call (url : jstr) (token : json) (ps : params) : http_call :=
  mkCall (lit "GET") url (bearer token) ps None.

(** A reply of a route: its status and its JSON body. *)
Record http_reply := mkReply {
  reply_status : Z;
  reply_body : params
}.

Definition bad_request (msg : jstr) : http_reply :=
  mkReply 400 [(lit "success", JBool false); (lit "error", JStr msg)].

(** [err.response?.status || 500] *)
Definition error_status (err : axios_error) : Z :=
  match he_response err with
  | Some (st, _) => if Z.eqb st 0 then 500 else st
  | None => 500
  end.

(** [err.response?.data] *)
Definition error_data (err : axios_error) : option json :=
  option_map snd (he_response err).

(** [err.response?.data?.message || err.message] *)
Definition route_error_message (err : axios_error) : json :=
  or_else (get_opt (error_data err) (lit "message")) (JStr (he_message err)).

(** [res.status(err.response?.status || 500).json({ success: false, error: msg })] *)
Definition route_error_reply (err : axios_error) : http_reply :=
  mkReply (error_status err) [(lit "success", JBool false); (lit "error", route_error_message err)].

(** *** resolveGroupName *)

Definition groups_url (objectType : jstr) : jstr :=
  lit "https://api.hubapi.com/crm/v3/properties/groups/" ++ objectType.

(** [groups.find(g => !g.hubspotDefined)] on an array. *)
Fixpoint find_not_hubspot (groups : list json) : js_error + option json :=
  match groups with
  | [] => inr None
  | g :: r =>
      match member g (lit "hubspotDefined") with
      | inl e => inl e
      | inr d => if truthy_u d then find_not_hubspot r else inr (Some g)
      end
  end.

(** [const groups = res.data.results || [];
     const preferred = groups.find(g => !g.hubspotDefined) || groups[0];]
    A value that is not an array has no [find] method. *)
Definition preferred_group (data : json) : js_error + option json :=
  match member data (lit "results") with
  | inl e => inl e
  | inr r =>
      match or_else r (JArr []) with
      | JArr l =>
          match find_not_hubspot l with
          | inl e => inl e
          | inr f => inr (or_else_u f (nth_error l 0))
          end
      | _ => inl (type_error (lit "groups.find is not a function"))
      end
  end.

(** <<
async function resolveGroupName(token, objectType) {
  if (DEFAULT_GROUPS[objectType]) return DEFAULT_GROUPS[objectType];
  try {
    const res = await axios.get(
      `https://api.hubapi.com/crm/v3/properties/groups/${objectType}`,
      { headers: { Authorization: `Bearer ${token}` } }
    );
    const groups = res.data.results || [];
    const preferred = groups.find(g => !g.hubspotDefined) || groups[0];
    if (preferred) return preferred.name;
  } catch { }
  return `${objectType}information`;
}
>>
    The calls made, and the value returned. *)
Definition resolveGroupName (srv : api) (token objectType : json) : list http_call * jsval :=
  let ot := js_to_string objectType in
  let fallback := JSV (JStr (ot ++ lit "information")) in
  match const_lookup DEFAULT_GROUPS ot with
  | CG_own g => ([], JSV (JStr g))
  | CG_proto k => ([], JSProto k)
  | CG_none =>
      let c := get_call (groups_url ot) token [] in
      ([c], match srv c with
            | inl _ => fallback
            | inr data =>
                match preferred_group data with
                | inr (Some p) =>
                    if truthy p
                    then match js_get p (lit "name") with Some n => JSV n | None => JSUndef end
                    else fallback
                | _ => fallback
                end
            end)
  end.

(** *** POST /api/parse-csv, after the CSV library

    The rows are those [parse] of csv-parse returns (with [columns: true],
    each row an object from the header cells to the cells of the row), or
    the error it throws; the library itself is not modelled. *)
Definition csv_row := list (jstr * jstr).

Definition row_get (row : csv_row) (k : jstr) : option jstr := assoc_last k row.

(** [(row[k] || '')] *)
Definition cell (row : csv_row) (k : jstr) : jstr :=
  match row_get row k with Some s => s | None => [] end.

(** [!v || !v.trim()] *)
Definition blank (v : option jstr) : bool :=
  match v with
  | Some s => negb (str_truthy s) || negb (str_truthy (trim s))
  | None => true
  end.

(** [l.join(sep)] *)
Fixpoint join (sep : jstr) (l : list jstr) : jstr :=
  match l with
  | [] => []
  | [x] => x
  | x :: r => x ++ sep ++ join sep r
  end.

Definition row_prefix (i : nat) : jstr := lit "Row " ++ nat_to_jstr (i + 2) ++ lit ": ".

(** <<
    records.forEach((row, i) => {
      const rowNum = i + 2;
      if (!row.Name || !row.Name.trim()) {
        errors.push(`Row ${rowNum}: Name is required`);
      }
      if (!row.Type || !row.Type.trim()) {
        errors.push(`Row ${rowNum}: Type is required`);
      } else if (!PROPERTY_TYPES[row.Type.trim()]) {
        errors.push(`Row ${rowNum}: Invalid type "${row.Type}". Must be one of: ${VALID_TYPES.join(', ')}`);
      }
    });
>>
    The errors of the row [row] at index [i]; in the last branch [row.Type]
    is present. *)
Definition row_errors (i : nat) (row : csv_row) : list jstr :=
  (if blank (row_get row (lit "Name")) then [row_prefix i ++ lit "Name is required"] else [])
  ++ (if blank (row_get row (lit "Type")) then [row_prefix i ++ lit "Type is required"]
      else match const_lookup PROPERTY_TYPES (trim (cell row (lit "Type"))) with
           | CG_none => [row_prefix i ++ lit "Invalid type " ++ [dq] ++ cell row (lit "Type")
                         ++ [dq] ++ lit ". Must be one of: " ++ join (lit ", ") VALID_TYPES]
           | _ => []
           end).

(** A normalised row [{ Name, Type, Description, Options }]. *)
Record csv_data := mkCsvData {
  d_Name : jstr;
  d_Type : jstr;
  d_Description : jstr;
  d_Options : jstr
}.

(** <<
    records.map((row) => ({
      Name:        row.Name.trim(),
      Type:        row.Type.trim(),
      Description: (row.Description || '').trim(),
      Options:     (row.Options || '').trim(),
    }))
>>  reached when every row has a [Name] and a [Type]. *)
Definition normalize_row (row : csv_row) : csv_data :=
  mkCsvData (trim (cell row (lit "Name"))) (trim (cell row (lit "Type")))
            (trim (cell row (lit "Description"))) (trim (cell row (lit "Options"))).

(** The reply: status 400 with a list of errors, or the rows and their
    number. *)
Inductive csv_reply : Type :=
| Csv_rejected (errors : list jstr)
| Csv_parsed (data : list csv_data) (count : nat).

(** [upload] is [None] without a file, else what [parse] gave. *)
Definition parse_csv (upload : option (js_error + list csv_row)) : csv_reply :=
  match upload with
  | None => Csv_rejected [lit "No file uploaded."]
  | Some (inl e) => Csv_rejected [err_message e]
  | Some (inr records) =>
      match records with
      | [] => Csv_rejected [lit "The CSV file is empty."]
      | r0 :: _ =>
          let headers := map (fun kv => trim (fst kv)) r0 in
          if existsb (jstr_eqb (lit "Name")) headers && existsb (jstr_eqb (lit "Type")) headers
          then match concat (mapi_from row_errors 0 records) with
               | [] => Csv_parsed (map normalize_row records) (List.length records)
               | errors => Csv_rejected errors
               end
          else Csv_rejected [lit "CSV must have at least the columns: Name, Type"]
      end
  end.

(** *** POST /api/create-property *)

Definition properties_url (objectType : jstr) : jstr :=
  lit "https://api.hubapi.com/crm/v3/properties/" ++ objectType.

(** [toInternalName(property.Name)]: a value that is not a string has no
    [toLowerCase] method. *)
Definition internal_name_of (v : option json) : js_error + jstr :=
  match v with
  | Some (JStr s) => inr (toInternalName s)
  | Some JNull => inl (type_error (lit "Cannot read properties of null (reading 'toLowerCase')"))
  | None => inl (type_error (lit "Cannot read properties of undefined (reading 'toLowerCase')"))
  | Some _ => inl (type_error (lit "label.toLowerCase is not a function"))
  end.

(** [parseOptions(property.Options)]: a falsy value gives [[]], a string
    is parsed, and any other value has no [trim] method. *)
Definition options_of (v : option json) : js_error + list ChoiceOption :=
  match v with
  | Some (JStr s) => inr (parseOptions s)
  | Some j => if truthy j then inl (type_error (lit "optionsStr.trim is not a function")) else inr []
  | None => inr []
  end.

Definition option_json (o : ChoiceOption) : json :=
  JObj [(lit "label", JStr (opt_label o)); (lit "value", JStr (opt_value o));
        (lit "displayOrder", JNum (Z.of_nat (opt_displayOrder o)));
        (lit "hidden", JBool (opt_hidden o))].

(** [typeInfo.type] and [typeInfo.fieldType]: none on an inherited
    property. *)
Definition type_fields (ti : const_get type_info) : params :=
  match ti with
  | CG_own t => [(lit "type", JStr (ti_type t)); (lit "fieldType", JStr (ti_fieldType t))]
  | _ => []
  end.

Definition is_enumeration (ti : const_get type_info) : bool :=
  match ti with CG_own t => ti_enumeration t | _ => false end.

(** [hsError?.message || (hsError?.errors?.[0]?.message) || err.message || 'Unknown error'] *)
Definition create_error_message (err : axios_error) : json :=
  let hs := error_data err in
  or_else (get_opt hs (lit "message"))
    (or_else (get_opt (get_opt (get_opt hs (lit "errors")) (lit "0")) (lit "message"))
       (if str_truthy (he_message err) then JStr (he_message err) else JStr (lit "Unknown error"))).

Definition create_error_reply (err : axios_error) : http_reply :=
  mkReply (error_status err) [(lit "success", JBool false); (lit "error", create_error_message err)].

(** After the checks: the group, the name, the body, the call. *)
Definition create_property_go (srv : api) (token objectType property : json)
  (defaultGroup : option json) : list http_call * outcome http_reply :=
  let ty := js_get property (lit "Type") in
  match const_lookup PROPERTY_TYPES (js_to_string_u ty) with
  | CG_none => ([], Ret (bad_request (lit "Unknown property type: " ++ js_to_string_u ty)))
  | typeInfo =>
      let (calls, groupName) :=
        match defaultGroup with
        | Some d => if truthy d then ([], JSV d) else resolveGroupName srv token objectType
        | None => resolveGroupName srv token objectType
        end in
      match internal_name_of (js_get property (lit "Name")) with
      | inl e => (calls, Throw e)
      | inr internalName =>
          let opts := if is_enumeration typeInfo
                      then match options_of (js_get property (lit "Options")) with
                           | inl e => inl e
                           | inr os => inr [(lit "options", JArr (map option_json os))]
                           end
                      else inr [] in
          match opts with
          | inl e => (calls, Throw e)
          | inr optf =>
              let body := JObj ([(lit "name", JStr internalName)]
                                ++ opt_field (lit "label") (js_get property (lit "Name"))
                                ++ type_fields typeInfo
                                ++ opt_field (lit "groupName") (jsval_json groupName)
                                ++ [(lit "description",
                                     or_else (js_get property (lit "Description")) (JStr []))]
                                ++ optf) in
              let c := mkCall (lit "POST") (properties_url (js_to_string objectType))
                              (bearer token) [] (Some body) in
              (calls ++ [c],
               Ret (match srv c with
                    | inl err => create_error_reply err
                    | inr data =>
                        match member data (lit "name") with
                        | inl e => create_error_reply (of_js e)
                        | inr n =>
                            mkReply 200 ([(lit "success", JBool true)]
                                         ++ opt_field (lit "internalName") n
                                         ++ opt_field (lit "label") (js_get data (lit "label")))
                        end
                    end))
          end
      end
  end.

(** <<
app.post('/api/create-property', async (req, res) => {
  const { token, objectType, property, defaultGroup } = req.body;
  if (!token || !objectType || !property) {
    return res.status(400).json({ success: false, error: 'Missing required fields.' });
  }
  const typeInfo = PROPERTY_TYPES[property.Type];
  if (!typeInfo) {
    return res.status(400).json({ success: false, error: `Unknown property type: ${property.Type}` });
  }
  const groupName = defaultGroup || await resolveGroupName(token, objectType);
  const internalName = toInternalName(property.Name);
  const body = {
    name: internalName, label: property.Name, type: typeInfo.type,
    fieldType: typeInfo.fieldType, groupName,
    description: property.Description || '',
    ...(typeInfo.enumeration ? { options: parseOptions(property.Options) } : {}),
  };
  try {
    const response = await axios.post(
      `https://api.hubapi.com/crm/v3/properties/${objectType}`, body, { headers: ... });
    res.json({ success: true, internalName: response.data.name, label: response.data.label });
  } catch (err) {
    const hsError = err.response?.data;
    const message = hsError?.message || (hsError?.errors?.[0]?.message) || err.message || 'Unknown error';
    res.status(err.response?.status || 500).json({ success: false, error: message });
  }
});
>>
    [req] is [req.body].  The calls made, and the reply or the exception
    that escapes the handler. *)
Definition create_property (srv : api) (req : json) : list http_call * outcome http_reply :=
  match js_get req (lit "token"), js_get req (lit "objectType"), js_get req (lit "property") with
  | Some token, Some objectType, Some property =>
      if truthy token && truthy objectType && truthy property
      then create_property_go srv token objectType property (js_get req (lit "defaultGroup"))
      else ([], Ret (bad_request (lit "Missing required fields.")))
  | _, _, _ => ([], Ret (bad_request (lit "Missing required fields.")))
  end.

(** *** GET /api/list-object-types *)

Definition schemas_url : jstr := lit "https://api.hubapi.com/crm/v3/schemas".

(** The callback of [map] on one schema:
    <<
      async schema => {
        let defaultGroup = null;
        try {
          const groupsRes = await axios.get(
            `https://api.hubapi.com/crm/v3/properties/groups/${schema.objectTypeId}`, ...);
          const groups = groupsRes.data.results || [];
          const preferred = groups.find(g => !g.hubspotDefined) || groups[0];
          defaultGroup = preferred?.name || null;
        } catch { }
        return {
          value:        schema.objectTypeId,
          label:        schema.labels?.plural || schema.name,
          defaultGroup,
        };
      }
>>
    The calls it makes, and the entry it returns or the exception it
    rejects with. *)
Definition schema_entry (srv : api) (token schema : json) : list http_call * (js_error + json) :=
  let (calls, defaultGroup) :=
    match member schema (lit "objectTypeId") with
    | inl _ => ([], JNull)
    | inr oid =>
        let c := get_call (groups_url (js_to_string_u oid)) token [] in
        ([c], match srv c with
              | inl _ => JNull
              | inr data =>
                  match preferred_group data with
                  | inl _ => JNull
                  | inr p => or_else (get_opt p (lit "name")) JNull
                  end
              end)
    end in
  (calls,
   match member schema (lit "objectTypeId") with
   | inl e => inl e
   | inr oid =>
       inr (JObj (opt_field (lit "value") oid
                  ++ opt_field (lit "label")
                       (or_else_u (get_opt (js_get schema (lit "labels")) (lit "plural"))
                                  (js_get schema (lit "name")))
                  ++ [(lit "defaultGroup", defaultGroup)]))
   end).

(** [Promise.all] on the promises of the callbacks: all of them run, and
    the result is the first rejection in the order of the array, or all
    the entries.  A callback rejects only on a [null] schema, before its
    first [await], so the first rejection to settle is the first in the
    array. *)
Fixpoint promise_all (rs : list (js_error + json)) : js_error + list json :=
  match rs with
  | [] => inr []
  | inl e :: _ => inl e
  | inr v :: r => match promise_all r with inl e => inl e | inr vs => inr (v :: vs) end
  end.

(** The [try] block around the schemas: the calls, and the custom
    objects or the error caught. *)
Definition custom_objects (srv : api) (token : json) : list http_call * (axios_error + list json) :=
  let c0 := get_call schemas_url token [(lit "archived", JBool false)] in
  match srv c0 with
  | inl err => ([c0], inl err)
  | inr data =>
      match member data (lit "results") with
      | inl e => ([c0], inl (of_js e))
      | inr r =>
          match or_else r (JArr []) with
          | JArr l =>
              let rs := map (schema_entry srv token) l in
              (c0 :: concat (map fst rs),
               match promise_all (map snd rs) with
               | inl e => inl (of_js e)
               | inr vs => inr vs
               end)
          | _ => ([c0], inl (of_js (type_error
                          (lit "(schemasRes.data.results || []).map is not a function"))))
          end
      end
  end.

(** <<
app.get('/api/list-object-types', async (req, res) => {
  const { token } = req.query;
  if (!token) return res.status(400).json({ success: false, error: 'token is required.' });
  let customObjects = [];
  let warning = null;
  try {
    const schemasRes = await axios.get('https://api.hubapi.com/crm/v3/schemas', {
      headers: { Authorization: `Bearer ${token}` }, params: { archived: false } });
    customObjects = await Promise.all((schemasRes.data.results || []).map(async schema => { ... }));
  } catch (err) {
    warning = `Custom objects could not be loaded: ${err.response?.data?.message || err.message}`;
  }
  res.json({ success: true, objectTypes: [...STANDARD_OBJECTS, ...customObjects], warning });
});
>>
    [token] is [req.query.token]. *)
Definition list_object_types (srv : api) (token : option json) : list http_call * http_reply :=
  match token with
  | Some t =>
      if truthy t then
        let (calls, res) := custom_objects srv t in
        (calls,
         mkReply 200
           [(lit "success", JBool true);
            (lit "objectTypes",
             JArr (STANDARD_OBJECTS ++ match res with inr vs => vs | inl _ => [] end));
            (lit "warning",
             match res with
             | inl err => JStr (lit "Custom objects could not be loaded: "
                                ++ js_to_string (route_error_message err))
             | inr _ => JNull
             end)])
      else ([], bad_request (lit "token is required."))
  | None => ([], bad_request (lit "token is required."))
  end.

(** *** POST /api/check-property-records and DELETE /api/delete-property *)

Definition search_body (propertyName : json) : json :=
  JObj [(lit "filterGroups",
         JArr [JObj [(lit "filters",
                      JArr [JObj [(lit "propertyName", propertyName);
                                  (lit "operator", JStr (lit "HAS_PROPERTY"))]])]]);
        (lit "limit", JNum 1);
        (lit "properties", JArr [])].

Definition search_call (token objectType propertyName : json) : http_call :=
  mkCall (lit "POST")
         (lit "https://api.hubapi.com/crm/v3/objects/" ++ js_to_string objectType ++ lit "/search")
         (bearer token) [] (Some (search_body propertyName)).

Definition missing_fields : http_reply :=
  bad_request (lit "token, objectType, propertyName are required.").

(** <<
app.post('/api/check-property-records', async (req, res) => {
  const { token, objectType, propertyName } = req.body;
  if (!token || !objectType || !propertyName) {
    return res.status(400).json({ success: false, error: 'token, objectType, propertyName are required.' });
  }
  try {
    const response = await axios.post(
      `https://api.hubapi.com/crm/v3/objects/${objectType}/search`,
      { filterGroups: [{ filters: [{ propertyName, operator: 'HAS_PROPERTY' }] }],
        limit: 1, properties: [] }, { headers: ... });
    res.json({ success: true, total: response.data.total ?? 0 });
  } catch (err) {
    const msg = err.response?.data?.message || err.message;
    res.status(err.response?.status || 500).json({ success: false, error: msg });
  }
});
>> *)
Definition check_property_records (srv : api) (req : json) : list http_call * http_reply :=
  match js_get req (lit "token"), js_get req (lit "objectType"), js_get req (lit "propertyName") with
  | Some token, Some objectType, Some propertyName =>
      if truthy token && truthy objectType && truthy propertyName then
        let c := search_call token objectType propertyName in
        ([c], match srv c with
              | inl err => route_error_reply err
              | inr data =>
                  match member data (lit "total") with
                  | inl e => route_error_reply (of_js e)
                  | inr tot => mkReply 200 [(lit "success", JBool true);
                                            (lit "total", nullish tot (JNum 0))]
                  end
              end)
      else ([], missing_fields)
  | _, _, _ => ([], missing_fields)
  end.

Definition delete_call (token objectType propertyName : json) : http_call :=
  mkCall (lit "DELETE")
         (properties_url (js_to_string objectType) ++ lit "/" ++ js_to_string propertyName)
         (bearer token) [] None.

(** <<
app.delete('/api/delete-property', async (req, res) => {
  const { token, objectType, propertyName } = req.body;
  if (!token || !objectType || !propertyName) { return res.status(400).json(...); }
  try {
    await axios.delete(
      `https://api.hubapi.com/crm/v3/properties/${objectType}/${propertyName}`,
      { headers: { Authorization: `Bearer ${token}` } });
    res.json({ success: true });
  } catch (err) {
    const msg = err.response?.data?.message || err.message;
    res.status(err.response?.status || 500).json({ success: false, error: msg });
  }
});
>> *)
Definition delete_property (srv : api) (req : json) : list http_call * http_reply :=
  match js_get req (lit "token"), js_get req (lit "objectType"), js_get req (lit "propertyName") with
  | Some token, Some objectType, Some propertyName =>
      if truthy token && truthy objectType && truthy propertyName then
        let c := delete_call token objectType propertyName in
        ([c], match srv c with
              | inl err => route_error_reply err
              | inr _ => mkReply 200 [(lit "success", JBool true)]
              end)
      else ([], missing_fields)
  | _, _, _ => ([], missing_fields)
  end.

(** A row [parse-csv] accepts: a [Name] and a [Type] that are not blank,
    and a [Type] that, trimmed, is a key of [PROPERTY_TYPES] or the name
    of a property of [Object.prototype]. *)
Definition row_valid (row : csv_row) : Prop :=
  (exists s, row_get row (lit "Name") = Some s /\ trim s <> [])
  /\ (exists t, row_get row (lit "Type") = Some t /\ trim t <> []
        /\ (In (trim t) VALID_TYPES \/ is_proto_key (trim t) = true)).

(** *** Example inputs *)

(** A file whose second data row (row 3) has a blank name and an unknown
    type. *)
Definition csv_demo : list csv_row :=
  [[(lit "Name", lit "Lead score"); (lit "Type", lit "Number")];
   [(lit "Name", lit " "); (lit "Type", lit "Bogus")]].

(** A custom object whose groups are one of HubSpot's and one of its own. *)
Definition groups_demo_list : list json :=
  [JObj [(lit "name", JStr (lit "hs_group")); (lit "hubspotDefined", JBool true)];
   JObj [(lit "name", JStr (lit "own_group")); (lit "hubspotDefined", JBool false)]].

Definition groups_demo_data : json := JObj [(lit "results", JArr groups_demo_list)].

Definition groups_demo : api := fun _ => inr groups_demo_data.

(** A token without the needed scopes. *)
Definition forbidden : axios_error :=
  mkHttpError (lit "Request failed with status code 403")
              (Some (403%Z, JObj [(lit "message", JStr (lit "Missing scopes"))])).

Definition api_forbidden : api := fun _ => inl forbidden.

(** A request body of [create-property] for the contacts. *)
Definition create_req (property : json) : json :=
  JObj [(lit "token", JStr (lit "t")); (lit "objectType", JStr (lit "contacts"));
        (lit "property", property)].

Definition property_demo (name ty : json) : json :=
  JObj [(lit "Name", name); (lit "Type", ty); (lit "Options", JStr (lit "Hot; Cold"))].

(** HubSpot creating the property. *)
Definition api_created : api := fun _ =>
  inr (JObj [(lit "name", JStr (lit "lead_temperature"));
             (lit "label", JStr (lit "Lead temperature"))]).

(** A body whose [Name] is a number. *)
Definition throwing_req : json :=
  JObj [(lit "token", JStr (lit "t")); (lit "objectType", JStr (lit "p_1"));
        (lit "property", property_demo (JNum 42) (JStr (lit "Number")))].

(** An account with the schemas [schemas], whose group requests fail. *)
Definition schemas_demo (schemas : list json) : api := fun c =>
  if jstr_eqb (call_url c) schemas_url then inr (JObj [(lit "results", JArr schemas)])
  else inl forbidden.

Definition schema_demo : json :=
  JObj [(lit "objectTypeId", JStr (lit "2-123")); (lit "name", JStr (lit "car"));
        (lit "labels", JObj [(lit "plural", JStr (lit "Cars"))])].

(** What reading [objectTypeId] of a [null] schema throws. *)
Definition null_schema_error : js_error :=
  type_error (lit "Cannot read properties of null (reading 'objectTypeId')").

(** A search that finds no record. *)
Definition api_total0 : api := fun _ => inr (JObj [(lit "total", JNum 0)]).

Definition check_req : json :=
  JObj [(lit "token", JStr (lit "t")); (lit "objectType", JStr (lit "contacts"));
        (lit "propertyName", JStr (lit "lead_temperature"))].

(** * Proofs *)

(** ** Name Sanitizer *)

Example toInternalName_ex1 :
  toInternalName (lit "Lead Source") = lit "lead_source".
Proof. reflexivity. Qed.
Example toInternalName_ex2 :
  toInternalName (lit "  9 Lives! ") = lit "p_9_lives".
Proof. reflexivity. Qed.
Example parseOptions_ex :
  map (fun o => (o.(opt_label), o.(opt_value), o.(opt_displayOrder)))
      (parseOptions (lit "A;B;;  C ;"))
  = [(lit "A", lit "a", 0); (lit "B", lit "b", 1); (lit "C", lit "c", 2)].
Proof. reflexivity. Qed.
Example parseOptions_ex2 :
  map opt_value (parseOptions (lit "!!;x")) = [lit "option_0"; lit "x"].
Proof. reflexivity. Qed.


Lemma filter_all {A} (p : A -> bool) (l : list A) :
  Forall (fun x => p x = true) (filter p l).
Proof.
  induction l as [|x l IH]; simpl; [constructor|].
  destruct (p x) eqn:E; auto.
Qed.

Lemma Forall_firstn {A} (P : A -> Prop) n (l : list A) :
  Forall P l -> Forall P (firstn n l).
Proof.
  revert l; induction n as [|n IH]; intros [|x l] H; simpl; auto.
  inversion H; subst; constructor; auto.
Qed.

Lemma ws_not_name_char c : is_ws c = true -> is_name_char c = false.
Proof.
  unfold is_ws, is_name_char, is_lower, is_digit.
  destruct c as [b0 b1 b2 b3 b4 b5 b6 b7].
  destruct b0, b1, b2, b3, b4, b5, b6, b7; vm_compute; congruence.
Qed.

Lemma name_char_lower c : is_name_char c = true -> to_lower_char c = c.
Proof.
  unfold is_name_char, to_lower_char, is_lower, is_digit.
  destruct c as [b0 b1 b2 b3 b4 b5 b6 b7].
  destruct b0, b1, b2, b3, b4, b5, b6, b7; vm_compute; congruence.
Qed.

Lemma ws_lower c : is_ws c = true -> to_lower_char c = c.
Proof.
  unfold is_ws, to_lower_char.
  destruct c as [b0 b1 b2 b3 b4 b5 b6 b7].
  destruct b0, b1, b2, b3, b4, b5, b6, b7; vm_compute; congruence.
Qed.

Lemma drop_ws_all_ws s :
  (forall c, In c s -> is_ws c = true) -> drop_ws s = [].
Proof.
  induction s as [|c s IH]; simpl; intros H; auto.
  rewrite (H c (or_introl eq_refl)); auto.
Qed.

Lemma trim_all_ws s :
  (forall c, In c s -> is_ws c = true) -> trim s = [].
Proof.
  intros H; unfold trim; rewrite (drop_ws_all_ws s H); reflexivity.
Qed.

Lemma drop_ws_no_ws s :
  (forall c, In c s -> is_ws c = false) -> drop_ws s = s.
Proof.
  destruct s as [|c s]; simpl; intros H; auto.
  rewrite (H c (or_introl eq_refl)); auto.
Qed.

Lemma trim_no_ws s :
  (forall c, In c s -> is_ws c = false) -> trim s = s.
Proof.
  intros H; unfold trim.
  rewrite (drop_ws_no_ws s H), drop_ws_no_ws, rev_involutive; auto.
  intros c Hc; apply H, in_rev; auto.
Qed.

Lemma replace_ws_runs_no_ws b s :
  (forall c, In c s -> is_ws c = false) -> replace_ws_runs b s = s.
Proof.
  revert b; induction s as [|c s IH]; simpl; intros b H; auto.
  rewrite (H c (or_introl eq_refl)), IH; auto.
Qed.

Lemma filter_id {A} (p : A -> bool) l :
  (forall x, In x l -> p x = true) -> filter p l = l.
Proof.
  induction l as [|x l IH]; simpl; intros H; auto.
  rewrite (H x (or_introl eq_refl)), IH; auto.
Qed.

Lemma digit_name_char c : is_digit c = true -> is_name_char c = true.
Proof. unfold is_name_char; intros ->; rewrite orb_true_r; reflexivity. Qed.

Lemma firstn_head {A} n (x : A) l : firstn (S n) (x :: l) = x :: firstn n l.
Proof. reflexivity. Qed.

(** The output of [toInternalName] only holds [[a-z0-9_]], does not
    start with a digit, has at most 250 code units, and a whitespace-only
    (or empty) label gives the empty string. *)
Lemma toInternalName_shape_core (L : jstr) :
  Forall (fun c => is_name_char c = true) (toInternalName L)
  /\ starts_with_digit (toInternalName L) = false
  /\ length (toInternalName L) <= 250
  /\ ((forall c, In c L -> is_ws c = true) -> toInternalName L = []).
Proof.
  unfold toInternalName.
  set (name := filter is_name_char _).
  assert (Hn : Forall (fun c => is_name_char c = true) name)
    by apply filter_all.
  split; [|split; [|split]].
  - apply Forall_firstn.
    destruct (starts_with_digit name); auto.
  - destruct (starts_with_digit name) eqn:E.
    + reflexivity.
    + destruct name as [|c name']; [reflexivity|].
      rewrite firstn_head; exact E.
  - apply firstn_le_length.
  - intros Hws.
    assert (Ht : trim (toLowerCase L) = []).
    { apply trim_all_ws; intros c Hc.
      unfold toLowerCase in Hc; apply in_map_iff in Hc.
      destruct Hc as [c' [<- Hc']].
      rewrite ws_lower; auto. }
    subst name; rewrite Ht; reflexivity.
Qed.

(** C7: the output of [toInternalName] only holds [[a-z0-9_]], does not
    start with a digit, has at most 250 code units, and a whitespace-only
    (or empty) label gives the empty string; when the stripped name starts
    with a digit the output is [p_] followed by it (cut to 250 code units
    in all), and otherwise it is the stripped name cut to 250. *)
Theorem toInternalName_shape (L : jstr) :
  Forall (fun c => is_name_char c = true) (toInternalName L)
  /\ starts_with_digit (toInternalName L) = false
  /\ length (toInternalName L) <= 250
  /\ ((forall c, In c L -> is_ws c = true) -> toInternalName L = [])
  /\ (starts_with_digit (stripped_name L) = true ->
      toInternalName L = "p"%char :: "_"%char :: firstn 248 (stripped_name L))
  /\ (starts_with_digit (stripped_name L) = false ->
      toInternalName L = firstn 250 (stripped_name L)).
Proof.
  destruct (toInternalName_shape_core L) as [H1 [H2 [H3 H4]]].
  split; [exact H1|]; split; [exact H2|]; split; [exact H3|]; split; [exact H4|].
  unfold toInternalName; cbv zeta; fold (stripped_name L).
  split; intros E; rewrite E; reflexivity.
Qed.

(** The sanitizer is the identity on its own output shape. *)
Lemma toInternalName_fixed s :
  Forall (fun c => is_name_char c = true) s ->
  starts_with_digit s = false -> length s <= 250 ->
  toInternalName s = s.
Proof.
  intros Hs Hd Hl.
  rewrite Forall_forall in Hs.
  assert (Hnw : forall c, In c s -> is_ws c = false).
  { intros c Hc; destruct (is_ws c) eqn:E; auto.
    apply ws_not_name_char in E; rewrite Hs in E; auto. }
  unfold toInternalName.
  assert (Hlow : toLowerCase s = s).
  { unfold toLowerCase; rewrite <- (map_id s) at 2; apply map_ext_in.
    intros c Hc; apply name_char_lower, Hs; auto. }
  rewrite Hlow, trim_no_ws, replace_ws_runs_no_ws, filter_id, Hd; auto.
  apply firstn_all2; auto.
Qed.

(** C8: the Name Sanitizer is idempotent. *)
Theorem toInternalName_idempotent (L : jstr) :
  toInternalName (toInternalName L) = toInternalName L.
Proof.
  destruct (toInternalName_shape_core L) as [H1 [H2 [H3 _]]].
  apply toInternalName_fixed; auto.
Qed.

(** ** Option List Parser *)

Lemma drop_ws_nil_all_ws s :
  drop_ws s = [] -> forall c, In c s -> is_ws c = true.
Proof.
  induction s as [|c s IH]; simpl; intros H x Hx; [contradiction|].
  destruct (is_ws c) eqn:E; [|discriminate].
  destruct Hx as [<-|Hx]; auto.
Qed.

Lemma drop_ws_app_non_ws l c :
  is_ws c = false -> drop_ws (l ++ [c]) <> [].
Proof.
  intros Hc; induction l as [|x l IH]; simpl.
  - rewrite Hc; discriminate.
  - destruct (is_ws x); auto; discriminate.
Qed.

Lemma trim_nil_all_ws s :
  trim s = [] -> forall c, In c s -> is_ws c = true.
Proof.
  unfold trim; intros H.
  apply drop_ws_nil_all_ws.
  destruct (drop_ws s) as [|c t] eqn:E; auto.
  exfalso.
  assert (Hc : is_ws c = false).
  { clear H; induction s as [|x s IH]; simpl in E; [discriminate|].
    destruct (is_ws x) eqn:Ex; auto; congruence. }
  apply (drop_ws_app_non_ws (rev t) c Hc).
  simpl in H; apply (f_equal (@rev ascii)) in H; rewrite rev_involutive in H.
  exact H.
Qed.

Lemma split_semi_chars s p c :
  In p (split_semi s) -> In c p -> In c s.
Proof.
  revert p; induction s as [|x s IH]; simpl; intros p Hp Hc.
  - destruct Hp as [<-|[]]; contradiction.
  - destruct (Ascii.eqb x ";"%char).
    + destruct Hp as [<-|Hp]; [contradiction|right; eapply IH; eauto].
    + destruct (split_semi s) as [|q qs] eqn:E.
      * destruct Hp as [<-|[]]; destruct Hc as [<-|[]]; auto.
      * destruct Hp as [<-|Hp].
        -- destruct Hc as [<-|Hc];
             [left; auto|right; apply (IH q); [left|]; auto].
        -- right; apply (IH p); [right|]; auto.
Qed.

Lemma parse_labels_all_ws s :
  (forall c, In c s -> is_ws c = true) ->
  filter str_truthy (map trim (split_semi s)) = [].
Proof.
  intros H.
  assert (Hp : forall p, In p (split_semi s) -> trim p = []).
  { intros p Hp; apply trim_all_ws; intros c Hc.
    apply H; eapply split_semi_chars; eauto. }
  induction (split_semi s) as [|p ps IH]; simpl; auto.
  rewrite (Hp p (or_introl eq_refl)); simpl.
  apply IH; intros q Hq; apply Hp; right; auto.
Qed.

Lemma parseOptions_labels s :
  parseOptions s = mapi_from make_option 0
                     (filter str_truthy (map trim (split_semi s))).
Proof.
  unfold parseOptions.
  destruct (str_truthy s) eqn:E1; simpl.
  - destruct (str_truthy (trim s)) eqn:E2; simpl; auto.
    destruct (trim s) eqn:E3; [|discriminate].
    rewrite parse_labels_all_ws; auto.
    apply trim_nil_all_ws; auto.
  - destruct s; [reflexivity|discriminate].
Qed.

Lemma mapi_from_length {A B} (f : nat -> A -> B) k l :
  List.length (mapi_from f k l) = List.length l.
Proof. revert k; induction l; simpl; auto. Qed.

Lemma mapi_from_nth {A B} (f : nat -> A -> B) k l i x :
  nth_error l i = Some x -> nth_error (mapi_from f k l) i = Some (f (k + i) x).
Proof.
  revert k i; induction l as [|y l IH]; intros k [|i] H; simpl in *;
    try discriminate.
  - injection H as ->; rewrite Nat.add_0_r; auto.
  - rewrite (IH (S k) i H); f_equal; f_equal; lia.
Qed.

(** C9: [parseOptions] splits on [;], trims, drops empty pieces, and the
    surviving label of post-filter index [i] gives the option with that
    label, value [toInternalName label] or [option_i], display order [i]
    and [hidden = false]; ["A;B;;  C ;"] gives A, B, C at orders 0, 1, 2,
    and an empty or whitespace-only input gives no option. *)
Theorem parseOptions_spec (s : jstr) :
  let labels := filter str_truthy (map trim (split_semi s)) in
  List.length (parseOptions s) = List.length labels
  /\ (forall i label, nth_error labels i = Some label ->
        nth_error (parseOptions s) i =
        Some {| opt_label := label;
                opt_value := if str_truthy (toInternalName label)
                             then toInternalName label
                             else lit "option_" ++ nat_to_jstr i;
                opt_displayOrder := i;
                opt_hidden := false |})
  /\ map (fun o => (o.(opt_label), o.(opt_displayOrder)))
       (parseOptions (lit "A;B;;  C ;"))
     = [(lit "A", 0); (lit "B", 1); (lit "C", 2)]
  /\ ((forall c, In c s -> is_ws c = true) -> parseOptions s = []).
Proof.
  intros labels; subst labels.
  split; [|split; [|split]].
  - rewrite parseOptions_labels, mapi_from_length; reflexivity.
  - intros i label H; rewrite parseOptions_labels.
    erewrite mapi_from_nth; [reflexivity|exact H].
  - reflexivity.
  - intros H; rewrite parseOptions_labels, parse_labels_all_ws; auto.
Qed.

(** ** Reference Extractor: examples *)

Example extract_ex1 :
  extractPropNamesFromJson (stringify (obj1 "filterProperty" "lead_status"))
  = [lit "lead_status"].
Proof. reflexivity. Qed.
Example extract_ex2 :
  extractPropNamesFromJson (stringify (obj1 "propertyType" "ENUMERATION")) = [].
Proof. reflexivity. Qed.
Example extract_ex3 :
  extractPropsFromJsonWithTokens
    (obj1 "body" "Hi {{contact.favorite_color}}, {{{x.y}}}")
  = [lit "favorite_color"; lit "y"].
Proof. reflexivity. Qed.
Example extract_ex4 :
  extractPropNamesFromJson
    (stringify (JObj [(lit "a", JArr [obj1 "targetPropertyName" "x1";
                                      obj1 "PropertyName" "y_2";
                                      obj1 "property" "x1"])]))
  = [lit "x1"; lit "y_2"].
Proof. reflexivity. Qed.

(** ** The matcher combinators *)

Section MatcherLemmas.
Context {R : Type}.

Lemma m_chr_some c s (k : cont R) r :
  m_chr c s k = Some r -> exists s', s = c :: s' /\ k s' = Some r.
Proof.
  destruct s as [|x s]; simpl; [discriminate|].
  destruct (Ascii.eqb x c) eqn:E; [|discriminate].
  apply Ascii.eqb_eq in E; subst; eauto.
Qed.

Lemma m_cls_some p s (k : cont R) r :
  m_cls p s k = Some r ->
  exists x s', s = x :: s' /\ p x = true /\ k s' = Some r.
Proof.
  destruct s as [|x s]; simpl; [discriminate|].
  destruct (p x) eqn:E; [eauto|discriminate].
Qed.

Lemma m_star_some p s (k : cont R) r :
  m_star p s k = Some r ->
  exists pre post, s = pre ++ post
    /\ Forall (fun x => p x = true) pre /\ k post = Some r.
Proof.
  induction s as [|x s IH]; simpl; intros H.
  - exists [], []; auto.
  - destruct (p x) eqn:E.
    + destruct (m_star p s k) eqn:E2.
      * injection H as <-.
        destruct (IH eq_refl) as [pre [post [-> [H1 H2]]]].
        exists (x :: pre), post; auto.
      * exists [], (x :: s); auto.
    + exists [], (x :: s); auto.
Qed.

Lemma m_star_complete p pre post (k : cont R) :
  Forall (fun x => p x = true) pre -> k post <> None ->
  m_star p (pre ++ post) k <> None.
Proof.
  intros Hp Hk; induction Hp as [|x pre Hx Hp IH]; simpl.
  - destruct post as [|y post]; simpl; auto.
    destruct (p y); auto.
    destruct (m_star p post k); auto; discriminate.
  - rewrite Hx; destruct (m_star p (pre ++ post) k); [discriminate|].
    contradiction.
Qed.

Lemma m_word_some w s (k : cont R) r :
  m_word w s k = Some r -> exists s', s = w ++ s' /\ k s' = Some r.
Proof.
  revert s; induction w as [|c w IH]; simpl; intros s H; eauto.
  apply m_chr_some in H; destruct H as [s1 [-> H]].
  destruct (IH s1 H) as [s2 [-> H2]]; eauto.
Qed.

Lemma m_word_app w s (k : cont R) : m_word w (w ++ s) k = k s.
Proof.
  induction w as [|c w IH]; simpl; auto.
  rewrite Ascii.eqb_refl; apply IH.
Qed.

Lemma m_opt_some m s (k : cont R) r :
  m_opt m s k = Some r -> m s k = Some r \/ k s = Some r.
Proof. unfold m_opt; destruct (m s k); auto. Qed.

Lemma m_opt_left m s (k : cont R) :
  m s k <> None -> m_opt m s k <> None.
Proof. unfold m_opt; destruct (m s k); auto; discriminate. Qed.

Lemma m_opt_right m s (k : cont R) :
  k s <> None -> m_opt m s k <> None.
Proof. unfold m_opt; destruct (m s k); auto; discriminate. Qed.
End MatcherLemmas.

Lemma firstn_len_app {A} (a b : list A) :
  firstn (List.length (a ++ b) - List.length b) (a ++ b) = a.
Proof.
  rewrite length_app, Nat.add_sub, firstn_app, Nat.sub_diag, firstn_all.
  simpl; apply app_nil_r.
Qed.

Lemma firstn_len_cons_app {A} (x : A) (a b : list A) :
  firstn (List.length (x :: a ++ b) - List.length b) (x :: a ++ b) = x :: a.
Proof. apply (firstn_len_app (x :: a) b). Qed.

Lemma firstn_cap {A} (x c : A) (a b : list A) :
  firstn (List.length (a ++ c :: b) - List.length b) (x :: a ++ c :: b)
  = x :: a.
Proof.
  rewrite length_app; simpl.
  replace (List.length a + S (List.length b) - List.length b)
    with (S (List.length a)) by lia.
  simpl; f_equal.
  rewrite firstn_app, Nat.sub_diag, firstn_all; simpl; apply app_nil_r.
Qed.

Ltac peel H :=
  cbv beta in H;
  match type of H with
  | m_chr _ _ _ = Some _ =>
      apply m_chr_some in H; destruct H as [? [? H]]; subst
  | m_cls _ _ _ = Some _ =>
      apply m_cls_some in H; destruct H as [? [? [? [? H]]]]; subst
  | m_star _ _ _ = Some _ =>
      apply m_star_some in H; destruct H as [? [? [? [? H]]]]; subst
  | m_word _ _ _ = Some _ =>
      apply m_word_some in H; destruct H as [? [? H]]; subst
  | m_plus _ _ _ = Some _ => unfold m_plus in H
  | m_group _ _ _ = Some _ => unfold m_group in H
  end.

Lemma alpha_P c : is_P c = true -> is_alpha c = true.
Proof.
  unfold is_P; intros H; apply orb_prop in H.
  destruct H as [H|H]; apply Ascii.eqb_eq in H; subst; reflexivity.
Qed.

Lemma alpha_N c : is_N c = true -> is_alpha c = true.
Proof.
  unfold is_N; intros H; apply orb_prop in H.
  destruct H as [H|H]; apply Ascii.eqb_eq in H; subst; reflexivity.
Qed.

Lemma key_suffix_alpha K :
  key_suffix K -> Forall (fun c => is_alpha c = true) K /\ K <> [].
Proof.
  intros [w [p [n [-> [Hw [Hp Hn]]]]]]; split.
  - apply Forall_app; split; auto.
    constructor; [apply alpha_P; auto|].
    apply Forall_app; split; [repeat constructor|].
    destruct Hn as [->|[n0 [-> Hn0]]]; [constructor|].
    constructor; [apply alpha_N; auto|repeat constructor].
  - destruct w; discriminate.
Qed.

Lemma prop_match_intro w p n sp1 sp2 c t rest :
  Forall (fun c => is_alpha c = true) w -> is_P p = true ->
  (n = [] \/ exists n0, n = n0 :: lit "ame" /\ is_N n0 = true) ->
  Forall (fun c => is_ws c = true) sp1 -> Forall (fun c => is_ws c = true) sp2 ->
  is_lower c = true -> Forall (fun x => is_name_char x = true) t ->
  prop_match (dq :: (w ++ p :: lit "roperty" ++ n) ++ dq :: sp1 ++ ":"%char
                 :: sp2 ++ dq :: c :: t ++ dq :: rest) (c :: t) rest.
Proof.
  intros Hw Hp Hn H1 H2 Hc Ht.
  eexists _, _; split; [reflexivity|]; split.
  - exists w, p, n; auto.
  - exists sp1, sp2; repeat split; auto.
    exists c, t; auto.
Qed.

(** The matcher [re_prop] only returns decompositions of its input. *)
Lemma re_prop_sound s cap rest :
  re_prop s = Some (cap, rest) -> prop_match s cap rest.
Proof.
  unfold re_prop; intros H.
  peel H. peel H. peel H. peel H.
  cbv beta in H; apply m_opt_some in H; destruct H as [H|H].
  - peel H. peel H. peel H. peel H. peel H. peel H. peel H. peel H. peel H.
    peel H. peel H. injection H as <- <-.
    rewrite firstn_cap.
    match goal with
    | |- prop_match (dq :: ?w ++ ?p :: _ ++ ?n0 :: _ ++ dq :: ?sp1 ++ _
                     :: ?sp2 ++ dq :: ?c :: ?t ++ dq :: ?rest) _ _ =>
        pose proof (prop_match_intro w p (n0 :: lit "ame") sp1 sp2 c t rest)
          as Hi; rewrite <- !app_assoc in Hi; apply Hi; auto
    end.
    right; eexists; split; [reflexivity|auto].
  - peel H. peel H. peel H. peel H. peel H. peel H. peel H. peel H.
    peel H. injection H as <- <-.
    rewrite firstn_cap.
    match goal with
    | |- prop_match (dq :: ?w ++ ?p :: _ ++ dq :: ?sp1 ++ _
                     :: ?sp2 ++ dq :: ?c :: ?t ++ dq :: ?rest) _ _ =>
        pose proof (prop_match_intro w p [] sp1 sp2 c t rest)
          as Hi; rewrite app_nil_r, <- !app_assoc in Hi; apply Hi; auto
    end.
Qed.

Lemma m_chr_cons {R} c s (k : cont R) : m_chr c (c :: s) k = k s.
Proof. simpl; rewrite Ascii.eqb_refl; reflexivity. Qed.

Lemma m_cls_true {R} p x s (k : cont R) : p x = true -> m_cls p (x :: s) k = k s.
Proof. simpl; intros ->; reflexivity. Qed.

Ltac fwd :=
  repeat (cbv beta;
    first [ rewrite m_chr_cons
          | rewrite <- app_comm_cons
          | rewrite <- app_assoc
          | rewrite m_word_app
          | (rewrite m_cls_true by assumption)
          | unfold m_group, m_plus ]).

(** Every decomposition is found by the backtracking search. *)
Lemma re_prop_complete s cap rest :
  prop_match s cap rest -> re_prop s <> None.
Proof.
  intros [K [T [-> [HK HT]]]].
  destruct HK as [w [p [n [-> [Hw [Hp Hn]]]]]].
  destruct HT as [sp1 [sp2 [-> [H1 [H2 [c [t [-> [Hc Ht]]]]]]]]].
  unfold re_prop; fwd.
  apply m_star_complete; [exact Hw|]; fwd.
  destruct Hn as [->|[n0 [-> Hn0]]].
  - apply m_opt_right; simpl app; fwd.
    apply m_star_complete; [exact H1|]; fwd.
    apply m_star_complete; [exact H2|]; fwd.
    apply m_star_complete; [exact Ht|]; fwd; discriminate.
  - apply m_opt_left; fwd.
    apply m_star_complete; [exact H1|]; fwd.
    apply m_star_complete; [exact H2|]; fwd.
    apply m_star_complete; [exact Ht|]; fwd; discriminate.
Qed.

Lemma sep_unique {A} (p : A -> bool) a b x y u v :
  Forall (fun c => p c = true) a -> Forall (fun c => p c = true) b ->
  p x = false -> p y = false ->
  a ++ x :: u = b ++ y :: v -> a = b /\ x = y /\ u = v.
Proof.
  intros Ha; revert b; induction Ha as [|a0 a Ha0 Ha IH];
    intros [|b0 b] Hb Hx Hy E; simpl in E.
  - injection E; auto.
  - injection E as -> _; inversion Hb; congruence.
  - injection E as <- _; congruence.
  - injection E as -> E; inversion Hb; subst.
    destruct (IH b H2 Hx Hy E) as [-> [-> ->]]; auto.
Qed.

Lemma dq_not_alpha : is_alpha dq = false. Proof. reflexivity. Qed.
Lemma dq_not_ws : is_ws dq = false. Proof. reflexivity. Qed.
Lemma dq_not_name : is_name_char dq = false. Proof. reflexivity. Qed.
Lemma colon_not_ws : is_ws ":"%char = false. Proof. reflexivity. Qed.

Lemma lower_name c : is_lower c = true -> is_name_char c = true.
Proof. unfold is_name_char; intros ->; reflexivity. Qed.

Lemma ident_name v :
  is_ident v -> Forall (fun x => is_name_char x = true) v.
Proof. intros [c [t [-> [Hc Ht]]]]; constructor; auto; apply lower_name; auto. Qed.

Lemma cont_match_unique T c1 r1 c2 r2 :
  cont_match T c1 r1 -> cont_match T c2 r2 -> c1 = c2 /\ r1 = r2.
Proof.
  intros [a1 [b1 [-> [Ha1 [Hb1 Hi1]]]]] [a2 [b2 [E [Ha2 [Hb2 Hi2]]]]].
  apply (sep_unique is_ws) in E; auto using colon_not_ws.
  destruct E as [-> [_ E]].
  apply (sep_unique is_ws) in E; auto using dq_not_ws.
  destruct E as [-> [_ E]].
  apply (sep_unique is_name_char) in E; auto using dq_not_name, ident_name.
  destruct E as [-> [_ ->]]; auto.
Qed.

Lemma prop_match_unique s c1 r1 c2 r2 :
  prop_match s c1 r1 -> prop_match s c2 r2 -> c1 = c2 /\ r1 = r2.
Proof.
  intros [K1 [T1 [-> [HK1 HT1]]]] [K2 [T2 [E [HK2 HT2]]]].
  injection E as E.
  apply (sep_unique is_alpha) in E; auto using dq_not_alpha.
  - destruct E as [-> [_ ->]]; eapply cont_match_unique; eauto.
  - apply key_suffix_alpha; auto.
  - apply key_suffix_alpha; auto.
Qed.

Lemma re_prop_spec s cap rest :
  re_prop s = Some (cap, rest) <-> prop_match s cap rest.
Proof.
  split; [apply re_prop_sound|].
  intros H.
  destruct (re_prop s) as [[c r]|] eqn:E.
  - apply re_prop_sound in E.
    destruct (prop_match_unique _ _ _ _ _ H E) as [-> ->]; reflexivity.
  - exfalso; apply (re_prop_complete s cap rest H); exact E.
Qed.

(** ** The [exec] loop *)

Definition shortening (re : matcher) : Prop :=
  forall s cap rest, re s = Some (cap, rest) ->
    List.length rest < List.length s.

Lemma scan_from_fuel re : shortening re ->
  forall n m s, List.length s < n -> List.length s < m ->
  scan_from re n s = scan_from re m s.
Proof.
  intros Hs n; induction n as [|n IH]; intros m s Hn Hm; [lia|].
  destruct m as [|m]; [lia|]; simpl.
  destruct (re s) as [[cap rest]|] eqn:E.
  - f_equal; apply IH; apply Hs in E; lia.
  - destruct s as [|c s]; auto.
    apply IH; simpl in *; lia.
Qed.

Lemma exec_all_cons re c s : shortening re ->
  exec_all re (c :: s) =
  match re (c :: s) with
  | Some (cap, rest) => cap :: exec_all re rest
  | None => exec_all re s
  end.
Proof.
  intros Hs; unfold exec_all at 1.
  change (List.length (c :: s)) with (S (List.length s)).
  change (scan_from re (S (S (List.length s))) (c :: s)) with
    (match re (c :: s) with
     | Some (cap, rest) => cap :: scan_from re (S (List.length s)) rest
     | None => scan_from re (S (List.length s)) s
     end).
  destruct (re (c :: s)) as [[cap rest]|] eqn:E.
  - f_equal; unfold exec_all; apply scan_from_fuel; auto.
    apply Hs in E; simpl in E; lia.
  - reflexivity.
Qed.

Lemma exec_all_nil re : re [] = None -> exec_all re [] = [].
Proof. intros H; unfold exec_all; simpl; rewrite H; reflexivity. Qed.

Lemma re_prop_shortening : shortening re_prop.
Proof.
  intros s cap rest H; apply re_prop_sound in H.
  destruct H as [K [T [-> [_ [sp1 [sp2 [-> _]]]]]]].
  simpl; repeat (rewrite length_app; simpl); lia.
Qed.

Lemma re_prop_not_dq c s : c <> dq -> re_prop (c :: s) = None.
Proof.
  intros H; unfold re_prop, m_chr.
  destruct (Ascii.eqb c dq) eqn:E; auto.
  apply Ascii.eqb_eq in E; contradiction.
Qed.

Lemma re_prop_nil : re_prop [] = None.
Proof. reflexivity. Qed.

Lemma exec_prop_skip t s :
  ~ In dq t -> exec_all re_prop (t ++ s) = exec_all re_prop s.
Proof.
  induction t as [|c t IH]; simpl; intros H; auto.
  rewrite exec_all_cons by apply re_prop_shortening.
  rewrite re_prop_not_dq; auto.
Qed.

(** ** Facts about [JSON.stringify]'s escaping *)

Definition esc_has_dq_b (c : ascii) : bool :=
  implb (existsb (Ascii.eqb dq) (esc_char c)) (Ascii.eqb c dq).

Definition esc_form_b (c : ascii) : bool :=
  match esc_char c with
  | [x] => Ascii.eqb x c && negb (Ascii.eqb x bs)
  | x :: _ :: _ => Ascii.eqb x bs
  | [] => false
  end.

Lemma esc_has_dq_all c : esc_has_dq_b c = true.
Proof. destruct c as [[] [] [] [] [] [] [] []]; vm_compute; reflexivity. Qed.

Lemma esc_form_all c : esc_form_b c = true.
Proof. destruct c as [[] [] [] [] [] [] [] []]; vm_compute; reflexivity. Qed.

Lemma esc_char_dq c : In dq (esc_char c) -> c = dq.
Proof.
  intros H; pose proof (esc_has_dq_all c) as E; unfold esc_has_dq_b in E.
  assert (Hx : existsb (Ascii.eqb dq) (esc_char c) = true).
  { apply existsb_exists; exists dq; split; auto; apply Ascii.eqb_refl. }
  rewrite Hx in E; simpl in E; apply Ascii.eqb_eq; auto.
Qed.

Lemma esc_char_form c :
  (esc_char c = [c] /\ c <> bs) \/ exists t, esc_char c = bs :: t.
Proof.
  pose proof (esc_form_all c) as E; unfold esc_form_b in E.
  destruct (esc_char c) as [|x [|y t]]; [discriminate| |].
  - apply andb_prop in E; destruct E as [E1 E2].
    apply Ascii.eqb_eq in E1; subst; left; split; auto.
    intros ->; discriminate.
  - apply Ascii.eqb_eq in E; subst; right; eauto.
Qed.

Lemma esc_cons c s : esc (c :: s) = esc_char c ++ esc s.
Proof. reflexivity. Qed.

Lemma esc_app a b : esc (a ++ b) = esc a ++ esc b.
Proof. unfold esc; apply flat_map_app. Qed.

(** In escaped text every double quote follows a backslash. *)
Lemma esc_dq_after_bs s a b :
  esc s = a ++ dq :: b -> exists a', a = a' ++ [bs].
Proof.
  revert a; induction s as [|c s IH]; intros a E.
  - destruct a; discriminate.
  - rewrite esc_cons in E.
    apply app_eq_app in E; destruct E as [l [[E1 E2]|[E1 E2]]].
    + destruct l as [|x l].
      * simpl in E2; rewrite app_nil_r in E1; subst a.
        destruct (IH [] (eq_sym E2)) as [a' Ha'].
        destruct a'; discriminate.
      * injection E2 as <- E2.
        assert (Hc : c = dq) by (apply esc_char_dq; rewrite E1; apply in_app_iff;
                                  right; left; auto).
        subst c; change (esc_char dq) with [bs; dq] in E1.
        destruct a as [|a0 [|a1 a]]; simpl in E1.
        -- injection E1 as E1 _; discriminate.
        -- injection E1 as E1 _; exists []; rewrite E1; reflexivity.
        -- injection E1 as _ _ E1.
           destruct a; discriminate.
    + destruct (IH l E2) as [a' ->].
      exists (esc_char c ++ a'); rewrite E1, app_assoc; reflexivity.
Qed.

Lemma esc_no_dq s : ~ In dq s -> ~ In dq (esc s).
Proof.
  intros H Hin; unfold esc in Hin; apply in_flat_map in Hin.
  destruct Hin as [c [Hc Hd]]; apply esc_char_dq in Hd; subst; auto.
Qed.

(** Escaped text made of characters other than the backslash is the text
    itself. *)
Lemma esc_plain (p : ascii -> bool) s :
  p bs = false -> Forall (fun c => p c = true) (esc s) -> esc s = s.
Proof.
  intros Hbs; induction s as [|c s IH]; intros H; [reflexivity|].
  rewrite esc_cons in H |- *; apply Forall_app in H; destruct H as [H1 H2].
  destruct (esc_char_form c) as [[-> _]|[t Ht]].
  - simpl; rewrite IH; auto.
  - rewrite Ht in H1; inversion H1; congruence.
Qed.

Lemma Forall_esc_plain (p : ascii -> bool) s :
  p bs = false -> Forall (fun c => p c = true) (esc s) ->
  Forall (fun c => p c = true) s.
Proof.
  intros Hbs H; rewrite <- (esc_plain p s Hbs H); auto.
Qed.

(** ** Scanning serialised JSON with the structural expression *)

Lemma stringify_arr l : stringify (JArr l) = "["%char :: ser_elems true l ++ ["]"%char].
Proof.
  cbn [stringify].
  match goal with |- _ :: ?F true l ++ _ = _ =>
    enough (E : forall b l', F b l' = ser_elems b l') by (rewrite E; reflexivity) end.
  intros b l'; revert b; induction l' as [|x l' IH]; intros b; [reflexivity|].
  cbn [ser_elems]; rewrite IH; reflexivity.
Qed.

Lemma stringify_obj kvs :
  stringify (JObj kvs) = "{"%char :: ser_mems true kvs ++ ["}"%char].
Proof.
  cbn [stringify].
  match goal with |- _ :: ?F true kvs ++ _ = _ =>
    enough (E : forall b l', F b l' = ser_mems b l') by (rewrite E; reflexivity) end.
  intros b l'; revert b; induction l' as [|[k v] l' IH]; intros b; [reflexivity|].
  cbn [ser_mems]; rewrite IH; reflexivity.
Qed.

Definition num_char (c : ascii) : bool := is_digit c || Ascii.eqb c "-"%char.

Lemma uint_digits d :
  Forall (fun c => num_char c = true) (lit (NilEmpty.string_of_uint d)).
Proof. induction d; simpl; auto. Qed.

Lemma z_to_jstr_chars z : Forall (fun c => num_char c = true) (z_to_jstr z).
Proof.
  unfold z_to_jstr; destruct (Z.to_int z) as [d|d]; simpl;
    auto using uint_digits.
Qed.

Lemma num_char_not_dq_ws c : num_char c = true -> c <> dq /\ is_ws c = false.
Proof.
  intros H; split.
  - intros ->; discriminate.
  - destruct c as [[] [] [] [] [] [] [] []]; try reflexivity; discriminate.
Qed.

Lemma delim_char c : In c [","%char; "]"%char; "}"%char] ->
  c <> dq /\ c <> ":"%char /\ is_ws c = false /\ is_alpha c = false.
Proof.
  simpl; intros H; repeat destruct H as [<-|H]; try contradiction;
    repeat split; try discriminate; reflexivity.
Qed.

Lemma Forall_last {A} (p : A -> Prop) l x : Forall p (l ++ [x]) -> p x.
Proof. intros H; apply Forall_app in H; destruct H as [_ H]; inversion H; auto. Qed.

(** A non-empty run of characters that are neither a backslash nor a double
    quote, followed by a double quote, can only end at an unescaped double
    quote: in escaped text it reaches the end of the text. *)
Lemma esc_split (p : ascii -> bool) s a Z T K T0 :
  p bs = false -> p dq = false -> K <> [] -> Forall (fun c => p c = true) K ->
  esc s = a ++ Z -> Z ++ dq :: T = K ++ dq :: T0 -> Z = K /\ T = T0.
Proof.
  intros Hbs Hdq HK HF Hs E.
  apply app_eq_app in E; destruct E as [l [[E1 E2]|[E1 E2]]].
  - destruct l as [|x l].
    + rewrite app_nil_r in E1; simpl in E2; injection E2 as ->; auto.
    + injection E2 as <- E2.
      rewrite E1, app_assoc in Hs.
      apply esc_dq_after_bs in Hs; destruct Hs as [a' Ha'].
      destruct (exists_last HK) as [K' [y ->]].
      apply Forall_last in HF.
      assert (Ey : y = bs).
      { rewrite ?app_assoc in Ha'; apply app_inj_tail in Ha'; apply Ha'. }
      subst; congruence.
  - destruct l as [|x l].
    + rewrite app_nil_r in E1; simpl in E2; injection E2 as ->; auto.
    + injection E2 as <- E2; subst K.
      apply Forall_app in HF; destruct HF as [_ HF]; inversion HF; congruence.
Qed.

(** A match that starts at a double quote of escaped text reads the rest of
    that text as the key part. *)
Lemma string_tail s a Z T cap r :
  esc s = a ++ Z -> prop_match (dq :: Z ++ dq :: T) cap r ->
  key_suffix Z /\ cont_match T cap r.
Proof.
  intros Hs [K [T0 [E [HK HT]]]].
  injection E as E.
  destruct (key_suffix_alpha K HK) as [HF Hne].
  destruct (esc_split is_alpha s a Z T K T0) as [-> ->]; auto.
Qed.

Lemma prop_match_dq T cap r :
  prop_match (dq :: T) cap r -> exists c T', T = c :: T' /\ is_alpha c = true.
Proof.
  intros [K [T0 [E [HK _]]]]; injection E as E.
  destruct (key_suffix_alpha K HK) as [HF Hne].
  destruct K as [|c K]; [congruence|]; inversion HF; subst.
  exists c, (K ++ dq :: T0); auto.
Qed.

Lemma cont_match_delim T cap r : delim T -> cont_match T cap r -> False.
Proof.
  intros [->|[c [t [-> Hc]]]] [sp1 [sp2 [E [H1 _]]]].
  - destruct sp1; discriminate.
  - apply delim_char in Hc; destruct Hc as [_ [Hc [Hw _]]].
    destruct sp1 as [|x sp1]; injection E as -> _; [congruence|].
    inversion H1; congruence.
Qed.

Lemma re_prop_none_of s : (forall cap r, ~ prop_match s cap r) -> re_prop s = None.
Proof.
  intros H; destruct (re_prop s) as [[cap r]|] eqn:E; auto.
  apply re_prop_spec in E; exfalso; eapply H; eauto.
Qed.

Lemma scan_prefix X rest :
  (forall Xa c Xb, X = Xa ++ c :: Xb -> re_prop (c :: Xb ++ rest) = None) ->
  exec_all re_prop (X ++ rest) = exec_all re_prop rest.
Proof.
  induction X as [|c X IH]; intros H; auto.
  simpl; rewrite exec_all_cons by apply re_prop_shortening.
  rewrite (H [] c X); auto.
  apply IH; intros Xa c' Xb ->; apply (H (c :: Xa)); reflexivity.
Qed.

Lemma esc_suffix s Xa Xb :
  dq :: esc s = Xa ++ dq :: Xb -> exists a, esc s = a ++ Xb.
Proof.
  destruct Xa as [|x Xa]; simpl; intros E; injection E as E.
  - exists []; auto.
  - exists (Xa ++ [dq]); rewrite <- app_assoc; auto.
Qed.

Lemma split_snoc {A} (X Xa Xb : list A) y z :
  X ++ [y] = Xa ++ z :: Xb ->
  (Xb = [] /\ X = Xa /\ y = z) \/
  exists Xb', Xb = Xb' ++ [y] /\ X = Xa ++ z :: Xb'.
Proof.
  intros E; destruct Xb as [|b Xb].
  - left; apply app_inj_tail in E; intuition.
  - right; assert (Hne : b :: Xb <> []) by discriminate.
    destruct (exists_last Hne) as [Xb' [w Hw]].
    rewrite Hw in E |- *; rewrite app_comm_cons, app_assoc in E.
    apply app_inj_tail in E; destruct E as [E ->]; eauto.
Qed.

(** A serialised string that is not an object key yields no match. *)
Lemma scan_string s rest :
  delim rest -> exec_all re_prop (quote s ++ rest) = exec_all re_prop rest.
Proof.
  intros Hd; apply scan_prefix; intros Xa c Xb E.
  destruct (ascii_dec c dq) as [->|Hc]; [|apply re_prop_not_dq; auto].
  apply re_prop_none_of; intros cap r Hm.
  unfold quote in E; rewrite app_comm_cons in E.
  apply split_snoc in E; destruct E as [[-> [_ _]]|[Xb' [-> E]]].
  - simpl in Hm; apply prop_match_dq in Hm; destruct Hm as [c' [T' [-> Ha]]].
    destruct Hd as [Hd|[c0 [r0 [Hd Hc0]]]]; [discriminate|].
    injection Hd as <- _; apply delim_char in Hc0; destruct Hc0 as [_ [_ [_ Hc0]]].
    congruence.
  - apply esc_suffix in E; destruct E as [a Ea].
    rewrite <- app_assoc in Hm; simpl in Hm.
    apply (string_tail s a) in Hm; auto.
    destruct Hm as [_ Hm]; eapply cont_match_delim; eauto.
Qed.

Lemma stringify_head v rest c Y :
  (forall s, v <> JStr s) -> delim rest -> stringify v ++ rest = c :: Y ->
  c <> dq /\ is_ws c = false.
Proof.
  intros Hv Hd E; destruct v as [| [] | z | s | l | kvs].
  - injection E as <- _; split; [discriminate|reflexivity].
  - injection E as <- _; split; [discriminate|reflexivity].
  - injection E as <- _; split; [discriminate|reflexivity].
  - cbn [stringify] in E; pose proof (z_to_jstr_chars z) as Hz.
    destruct (z_to_jstr z) as [|x t].
    + destruct Hd as [->|[c0 [r0 [-> Hc0]]]]; [discriminate|].
      injection E as ->; apply delim_char in Hc0; tauto.
    + injection E as -> _; inversion Hz; apply num_char_not_dq_ws; auto.
  - exfalso; eapply Hv; reflexivity.
  - rewrite stringify_arr in E; injection E as <- _; split; [discriminate|reflexivity].
  - rewrite stringify_obj in E; injection E as <- _; split; [discriminate|reflexivity].
Qed.

Lemma name_not_bs : is_name_char bs = false. Proof. reflexivity. Qed.
Lemma alpha_not_bs : is_alpha bs = false. Proof. reflexivity. Qed.

(** After a key's closing quote the expression needs a colon and a string
    value holding an internal name; in serialised JSON that value is the
    whole member value. *)
Lemma value_cont v rest cap r :
  delim rest -> cont_match (":"%char :: stringify v ++ rest) cap r ->
  v = JStr cap /\ r = rest /\ is_ident cap.
Proof.
  intros Hd [sp1 [sp2 [E [H1 [H2 Hi]]]]].
  destruct sp1 as [|x sp1]; simpl in E.
  2: { injection E as Ex _; subst x; inversion H1 as [|? ? Hx];
       rewrite colon_not_ws in Hx; discriminate. }
  injection E as E.
  assert (Hv : exists s, v = JStr s).
  { destruct v as [| b | z | s | l | kvs]; eauto; exfalso;
      (destruct sp2 as [|y sp2];
       match type of E with stringify ?w ++ _ = _ =>
         assert (Hw0 : forall s, w <> JStr s) by (intros ? ?; discriminate) end;
       pose proof (stringify_head _ rest _ _ Hw0 Hd E) as [Hq Hw];
       [ congruence | inversion H2; congruence ]). }
  destruct Hv as [s ->].
  unfold stringify, quote in E.
  destruct sp2 as [|y sp2]; simpl in E.
  2: { injection E as Ey _; subst y; inversion H2 as [|? ? Hx];
       vm_compute in Hx; discriminate. }
  injection E as E; rewrite <- app_assoc in E; simpl in E.
  destruct Hi as [c0 [t0 [Ecap [Hc0 Ht0]]]].
  destruct (esc_split is_name_char s [] (esc s) rest cap r) as [Es Er];
    auto; [subst; discriminate | rewrite Ecap; constructor; auto; apply lower_name; auto |].
  assert (Hs : esc s = s).
  { apply (esc_plain is_name_char); auto. rewrite Es, Ecap.
    constructor; auto; apply lower_name; auto. }
  rewrite Hs in Es; subst; repeat split; auto.
  exists c0, t0; auto.
Qed.

Lemma esc_id (p : ascii -> bool) s :
  (forall c, p c = true -> esc_char c = [c]) ->
  Forall (fun c => p c = true) s -> esc s = s.
Proof.
  intros Hp; induction s as [|c s IH]; intros H; [reflexivity|]; inversion H; subst.
  rewrite esc_cons, IH, Hp by auto; reflexivity.
Qed.

Lemma alpha_esc_char c : is_alpha c = true -> esc_char c = [c].
Proof. destruct c as [[] [] [] [] [] [] [] []]; vm_compute; congruence. Qed.

Lemma name_esc_char c : is_name_char c = true -> esc_char c = [c].
Proof. destruct c as [[] [] [] [] [] [] [] []]; vm_compute; congruence. Qed.

Lemma esc_alpha s : Forall (fun c => is_alpha c = true) s -> esc s = s.
Proof. apply esc_id, alpha_esc_char. Qed.

Lemma esc_name s : Forall (fun c => is_name_char c = true) s -> esc s = s.
Proof. apply esc_id, name_esc_char. Qed.

Lemma re_prop_dq_nonalpha c T :
  is_alpha c = false -> re_prop (dq :: c :: T) = None.
Proof.
  intros Hc; apply re_prop_none_of; intros cap r Hm.
  apply prop_match_dq in Hm; destruct Hm as [c' [T' [E Ha]]].
  injection E as -> _; congruence.
Qed.

(** The tail of a key after its last double quote, followed by the member's
    colon and value: a match exactly when the tail is a [...Property] key
    and the value a string holding an internal name. *)
Lemma scan_key_tail k2 v rest :
  ~ In dq k2 -> delim rest ->
  exists l, exec_all re_prop (dq :: esc k2 ++ dq :: ":"%char :: stringify v ++ rest)
            = l ++ exec_all re_prop (stringify v ++ rest)
    /\ (forall x, In x l <-> key_suffix k2 /\ v = JStr x /\ is_ident x).
Proof.
  intros Hk Hd.
  rewrite exec_all_cons by apply re_prop_shortening.
  destruct (re_prop (dq :: esc k2 ++ dq :: ":"%char :: stringify v ++ rest))
    as [[cap r]|] eqn:E.
  - apply re_prop_spec in E.
    apply (string_tail k2 []) in E; [|reflexivity].
    destruct E as [HK HT]; apply value_cont in HT; auto.
    destruct HT as [-> [-> Hi]].
    assert (Ek : esc k2 = k2).
    { apply (esc_plain is_alpha); [reflexivity|]; apply key_suffix_alpha; auto. }
    rewrite Ek in HK.
    exists [cap]; split.
    + simpl; f_equal; symmetry; apply scan_string; auto.
    + intros x; simpl; split.
      * intros [<-|[]]; auto.
      * intros [_ [Ex _]]; injection Ex as ->; auto.
  - exists []; split.
    + simpl; rewrite exec_prop_skip by (apply esc_no_dq; auto).
      rewrite exec_all_cons by apply re_prop_shortening.
      rewrite re_prop_dq_nonalpha by reflexivity.
      rewrite exec_all_cons by apply re_prop_shortening.
      rewrite re_prop_not_dq by discriminate; reflexivity.
    + intros x; simpl; split; [intros []|].
      intros [HK [-> Hi]].
      assert (Ek : esc k2 = k2) by (apply esc_alpha, key_suffix_alpha; auto).
      apply (re_prop_complete
               (dq :: esc k2 ++ dq :: ":"%char :: stringify (JStr x) ++ rest) x rest);
        auto.
      exists k2, (":"%char :: stringify (JStr x) ++ rest); repeat split; auto.
      * rewrite Ek; reflexivity.
      * exists [], []; repeat split; auto.
        unfold stringify, quote; rewrite esc_name by (apply ident_name; auto).
        simpl; rewrite <- app_assoc; reflexivity.
Qed.

Lemma last_dq_split (k : jstr) :
  exists k1 k2, k = k1 ++ k2 /\ ~ In dq k2 /\ (k1 = [] \/ exists p, k1 = p ++ [dq]).
Proof.
  induction k as [|x k IH] using rev_ind.
  - exists [], []; simpl; auto.
  - destruct (ascii_dec x dq) as [->|Hx].
    + exists (k ++ [dq]), []; rewrite app_nil_r; repeat split; eauto; intros [].
    + destruct IH as [k1 [k2 [-> [H2 H1]]]].
      exists k1, (k2 ++ [x]); rewrite app_assoc; repeat split; auto.
      intros Hin; apply in_app_iff in Hin; destruct Hin as [Hin|[Hin|[]]]; auto.
Qed.

Lemma no_dq_forall (s : jstr) :
  ~ In dq s -> Forall (fun c => negb (Ascii.eqb c dq) = true) s.
Proof.
  intros H; apply Forall_forall; intros c Hc.
  destruct (Ascii.eqb c dq) eqn:E; auto.
  apply Ascii.eqb_eq in E; subst; contradiction.
Qed.

Lemma alpha_no_dq (s : jstr) : Forall (fun c => is_alpha c = true) s -> ~ In dq s.
Proof.
  intros H Hin; rewrite Forall_forall in H; apply H in Hin; discriminate.
Qed.

Lemma key_hit_iff k k1 k2 :
  k = k1 ++ k2 -> ~ In dq k2 -> (k1 = [] \/ exists p, k1 = p ++ [dq]) ->
  (key_hit k <-> key_suffix k2).
Proof.
  intros -> H2 H1; split.
  - intros [pre [K [E [Hpre HK]]]].
    destruct (key_suffix_alpha K HK) as [HKa _].
    pose proof (alpha_no_dq K HKa) as HKd.
    destruct H1 as [->|[p ->]]; destruct Hpre as [->|[p' ->]]; simpl in E.
    + subst; auto.
    + exfalso; apply H2; rewrite E.
      apply in_app_iff; left; apply in_app_iff; right; left; reflexivity.
    + exfalso; apply HKd; rewrite <- E.
      apply in_app_iff; left; apply in_app_iff; right; left; reflexivity.
    + rewrite <- !app_assoc in E; simpl in E.
      apply (f_equal (@rev ascii)) in E; rewrite !rev_app_distr in E; simpl in E.
      rewrite <- !app_assoc in E; simpl in E.
      apply (sep_unique (fun c => negb (Ascii.eqb c dq))) in E.
      * destruct E as [E _]; apply (f_equal (@rev ascii)) in E.
        rewrite !rev_involutive in E; subst; auto.
      * apply Forall_rev, no_dq_forall; auto.
      * apply Forall_rev, no_dq_forall; auto.
      * reflexivity.
      * reflexivity.
  - intros HK; exists k1, k2; auto.
Qed.

(** One object member: a match exactly when the key is a hit and the value
    a string holding an internal name; the scan then goes on in the value. *)
Lemma scan_member k v rest :
  delim rest ->
  exists l, exec_all re_prop (quote k ++ ":"%char :: stringify v ++ rest)
            = l ++ exec_all re_prop (stringify v ++ rest)
    /\ (forall x, In x l <-> key_hit k /\ v = JStr x /\ is_ident x).
Proof.
  intros Hd.
  destruct (last_dq_split k) as [k1 [k2 [Ek [H2 H1]]]].
  destruct (scan_key_tail k2 v rest H2 Hd) as [l [El Hl]].
  exists l; split.
  - rewrite <- El.
    destruct H1 as [->|[p ->]]; subst k.
    + unfold quote; simpl; rewrite <- app_assoc; reflexivity.
    + unfold quote; rewrite !esc_app.
      change (esc [dq]) with [bs; dq].
      transitivity (exec_all re_prop
        ((dq :: esc p ++ [bs]) ++ dq :: esc k2 ++ dq :: ":"%char :: stringify v ++ rest)).
      { f_equal; simpl; rewrite <- !app_assoc; reflexivity. }
      apply (scan_prefix (dq :: esc p ++ [bs])); intros Xa c Xb E.
      destruct (ascii_dec c dq) as [->|Hc]; [|apply re_prop_not_dq; auto].
      apply re_prop_none_of; intros cap r Hm.
      rewrite app_comm_cons in E; apply split_snoc in E.
      destruct E as [[_ [_ E]]|[Xb' [-> E]]]; [discriminate|].
      apply esc_suffix in E; destruct E as [a Ea].
      assert (Hs : esc (p ++ dq :: k2) = a ++ (Xb' ++ [bs; dq] ++ esc k2)).
      { rewrite esc_app, esc_cons, Ea, <- !app_assoc; reflexivity. }
      replace ((Xb' ++ [bs]) ++ dq :: esc k2 ++ dq :: ":"%char :: stringify v ++ rest)
        with ((Xb' ++ [bs; dq] ++ esc k2) ++ dq :: ":"%char :: stringify v ++ rest)
        in Hm by (rewrite <- !app_assoc; reflexivity).
      apply (string_tail _ _ _ _ _ _ Hs) in Hm.
      destruct Hm as [HK _]; apply key_suffix_alpha in HK; destruct HK as [HK _].
      rewrite Forall_app in HK; destruct HK as [_ HK]; inversion HK; discriminate.
  - intros x; rewrite Hl, (key_hit_iff k k1 k2); tauto.
Qed.

Lemma sep_skip (b : bool) (X : jstr) :
  exec_all re_prop ((if b then [] else [","%char]) ++ X) = exec_all re_prop X.
Proof.
  destruct b; [reflexivity|].
  apply exec_prop_skip; intros [H|[]]; discriminate.
Qed.

Lemma delim_elems l rest : delim (ser_elems false l ++ "]"%char :: rest).
Proof.
  right; destruct l as [|x l]; simpl; do 2 eexists; split; try reflexivity; simpl; auto.
Qed.

Lemma delim_mems kvs rest : delim (ser_mems false kvs ++ "}"%char :: rest).
Proof.
  right; destruct kvs as [|[k v] kvs]; simpl; do 2 eexists; split; try reflexivity;
    simpl; auto.
Qed.

Lemma scan_close c rest :
  c <> dq -> exec_all re_prop (c :: rest) = exec_all re_prop rest.
Proof.
  intros Hc; rewrite exec_all_cons by apply re_prop_shortening.
  rewrite re_prop_not_dq; auto.
Qed.

Lemma scan_elems l rest b :
  Forall json_scan_ok l -> delim rest ->
  exists L, exec_all re_prop (ser_elems b l ++ "]"%char :: rest)
            = L ++ exec_all re_prop rest
    /\ (forall v, In v L <->
          exists k, In (k, JStr v) (flat_map members l) /\ key_hit k /\ is_ident v).
Proof.
  intros H Hd; revert b; induction H as [|x l' Hx Hl' IH]; intros b.
  - exists []; split.
    + simpl; apply scan_close; discriminate.
    + intros v; simpl; split; [intros []|intros [k [[] _]]].
  - cbn [ser_elems]; rewrite <- !app_assoc, sep_skip.
    destruct (Hx _ (delim_elems l' rest)) as [L1 [E1 H1]].
    destruct (IH false) as [L2 [E2 H2]].
    exists (L1 ++ L2); split.
    + rewrite E1, E2, app_assoc; reflexivity.
    + intros v; rewrite in_app_iff, H1, H2; unfold prop_hit; cbn [flat_map].
      split.
      * intros [[k [Hk [Hh Hi]]]|[k [Hk [Hh Hi]]]];
          exists k; rewrite in_app_iff; auto.
      * intros [k [Hk [Hh Hi]]]; apply in_app_iff in Hk.
        destruct Hk; [left|right]; exists k; auto.
Qed.

Lemma scan_mems kvs rest b :
  Forall (fun kv => json_scan_ok (snd kv)) kvs -> delim rest ->
  exists L, exec_all re_prop (ser_mems b kvs ++ "}"%char :: rest)
            = L ++ exec_all re_prop rest
    /\ (forall v, In v L <->
          exists k, In (k, JStr v) (flat_map (fun kv => kv :: members (snd kv)) kvs)
                    /\ key_hit k /\ is_ident v).
Proof.
  intros H Hd; revert b; induction H as [|[k v0] r Hx Hr IH]; intros b.
  - exists []; split.
    + simpl; apply scan_close; discriminate.
    + intros v; simpl; split; [intros []|intros [k [[] _]]].
  - cbn [ser_mems]; simpl in Hx.
    assert (Eq : ((if b then [] else [","%char]) ++ quote k ++ ":"%char ::
                    stringify v0 ++ ser_mems false r) ++ "}"%char :: rest
                 = (if b then [] else [","%char]) ++ quote k ++ ":"%char ::
                    stringify v0 ++ (ser_mems false r ++ "}"%char :: rest))
      by (destruct b; simpl; repeat (rewrite <- app_assoc || rewrite <- app_comm_cons);
          reflexivity).
    rewrite Eq, sep_skip.
    destruct (scan_member k v0 _ (delim_mems r rest)) as [L0 [E0 H0]].
    rewrite E0.
    destruct (Hx _ (delim_mems r rest)) as [L1 [E1 H1]].
    destruct (IH false) as [L2 [E2 H2]].
    exists (L0 ++ L1 ++ L2); split.
    + rewrite E1, E2, !app_assoc; reflexivity.
    + intros v; rewrite !in_app_iff, H0, H1, H2; unfold prop_hit; cbn [flat_map snd].
      split.
      * intros [[Hh [-> Hi]]|[[k' [Hk [Hh Hi]]]|[k' [Hk [Hh Hi]]]]].
        -- exists k; simpl; auto.
        -- exists k'; simpl; rewrite in_app_iff; auto.
        -- exists k'; simpl; rewrite in_app_iff; auto.
      * intros [k' [Hk [Hh Hi]]]; simpl in Hk; rewrite in_app_iff in Hk.
        destruct Hk as [Hk|[Hk|Hk]].
        -- injection Hk as -> ->; left; auto.
        -- right; left; exists k'; auto.
        -- right; right; exists k'; auto.
Qed.

Lemma scan_json j : json_scan_ok j.
Proof.
  induction j as [| b | z | s | l Hl | kvs Hkvs] using json_ind';
    intros rest Hd.
  - exists []; split.
    + apply exec_prop_skip; intros H; simpl in H;
        repeat destruct H as [H|H]; try discriminate; contradiction.
    + intros v; simpl; split; [intros []|intros [k [[] _]]].
  - exists []; split.
    + destruct b; apply exec_prop_skip; intros H; simpl in H;
        repeat destruct H as [H|H]; try discriminate; contradiction.
    + intros v; simpl; split; [intros []|intros [k [[] _]]].
  - exists []; split.
    + apply exec_prop_skip; intros H; cbn [stringify] in H.
      pose proof (z_to_jstr_chars z) as Hz; rewrite Forall_forall in Hz.
      apply Hz, num_char_not_dq_ws in H; tauto.
    + intros v; simpl; split; [intros []|intros [k [[] _]]].
  - exists []; split.
    + apply scan_string; auto.
    + intros v; simpl; split; [intros []|intros [k [[] _]]].
  - rewrite stringify_arr; simpl; rewrite <- app_assoc; simpl.
    rewrite scan_close by discriminate.
    destruct (scan_elems l rest true Hl Hd) as [L [E H]].
    exists L; split; auto.
  - rewrite stringify_obj; simpl; rewrite <- app_assoc; simpl.
    rewrite scan_close by discriminate.
    destruct (scan_mems kvs rest true Hkvs Hd) as [L [E H]].
    exists L; split; auto.
Qed.

(** ** JavaScript [Set] membership *)

Lemma jstr_eqb_eq a b : jstr_eqb a b = true <-> a = b.
Proof.
  unfold jstr_eqb; destruct (list_eq_dec ascii_dec a b); split; congruence.
Qed.

Section SetAdd.
Context {A : Type} (eqb : A -> A -> bool).
Hypothesis eqb_eq : forall a b, eqb a b = true <-> a = b.

Lemma set_add_in x s y : In y (set_add eqb x s) <-> In y s \/ x = y.
Proof.
  unfold set_add; destruct (existsb (eqb x) s) eqn:E.
  - apply existsb_exists in E; destruct E as [z [Hz Ez]].
    apply eqb_eq in Ez; subst z; split; [auto|intros [H| <-]; auto].
  - rewrite in_app_iff; simpl; split; intros [H|H]; auto.
    + destruct H as [H|[]]; auto.
Qed.

Lemma set_add_nodup x s : NoDup s -> NoDup (set_add eqb x s).
Proof.
  unfold set_add; destruct (existsb (eqb x) s) eqn:E; auto; intros H.
  apply NoDup_app; auto.
  - constructor; auto; constructor.
  - intros y Hy [<-|[]].
    assert (Hx : existsb (eqb x) s = true).
    { apply existsb_exists; exists x; split; auto; apply eqb_eq; auto. }
    congruence.
Qed.

Lemma set_add_all_in s xs y :
  In y (set_add_all eqb s xs) <-> In y s \/ In y xs.
Proof.
  unfold set_add_all; revert s; induction xs as [|x xs IH]; intros s; simpl.
  - tauto.
  - rewrite IH, set_add_in; tauto.
Qed.

Lemma set_add_all_nodup s xs : NoDup s -> NoDup (set_add_all eqb s xs).
Proof.
  unfold set_add_all; revert s; induction xs as [|x xs IH]; intros s H; simpl; auto.
  apply IH, set_add_nodup; auto.
Qed.
End SetAdd.

Lemma exec_prop_stringify j :
  forall v, In v (exec_all re_prop (stringify j)) <-> prop_hit j v.
Proof.
  destruct (scan_json j [] (or_introl eq_refl)) as [l [E H]].
  rewrite app_nil_r, exec_all_nil, app_nil_r in E by reflexivity.
  rewrite E; exact H.
Qed.

(** C1, as the code has it: on [JSON.stringify(j)] the structural strategy
    returns, without repetition, exactly the string values [v] of object
    members at any depth such that [v] has the shape [[a-z][a-z0-9_]*] and
    the member's key is a hit: the part of the key after its last double
    quote (the whole key if it has none) is made of ASCII letters and
    matches [[a-zA-Z]*[Pp]roperty(?:[Nn]ame)?]. The two examples of the
    specification hold. *)
Theorem extractPropNamesFromJson_members (j : json) :
  NoDup (extractPropNamesFromJson (stringify j))
  /\ (forall v, In v (extractPropNamesFromJson (stringify j)) <->
        exists k, In (k, JStr v) (members j) /\ key_hit k /\ is_ident v)
  /\ extractPropNamesFromJson (stringify (obj1 "filterProperty" "lead_status"))
     = [lit "lead_status"]
  /\ extractPropNamesFromJson (stringify (obj1 "propertyType" "ENUMERATION")) = [].
Proof.
  split; [|split; [|split; reflexivity]].
  - apply set_add_all_nodup; [apply jstr_eqb_eq | constructor].
  - intros v; unfold extractPropNamesFromJson.
    rewrite (set_add_all_in jstr_eqb jstr_eqb_eq), exec_prop_stringify.
    unfold prop_hit; simpl; tauto.
Qed.

(** C1, the claim as stated fails: a key ending in [_property] after an
    underscore, or written [PROPERTY] in capitals, ends in Property
    (regardless of prefix, case-insensitively), yet nothing is extracted. *)
Lemma extractPropNamesFromJson_suffix_counterexample :
  extractPropNamesFromJson (stringify (obj1 "filter_property" "lead_status")) = []
  /\ extractPropNamesFromJson (stringify (obj1 "PROPERTY" "lead_status")) = []
  /\ extractPropNamesFromJson (stringify (obj1 "fromPROPERTYNAME" "lead_status")) = [].
Proof. repeat split; reflexivity. Qed.

(** ** The token expression *)

Lemma firstn_gen {A} (x : A) a b n :
  n = S (List.length a) -> firstn n (x :: a ++ b) = x :: a.
Proof.
  intros ->; simpl; f_equal.
  rewrite firstn_app, Nat.sub_diag, firstn_all; simpl; apply app_nil_r.
Qed.

Lemma re_token_sound s f rest :
  re_token s = Some (f, rest) -> token_match s f rest.
Proof.
  unfold re_token; intros H.
  peel H. peel H. peel H. peel H. peel H. peel H. peel H. peel H. peel H.
  peel H. peel H. injection H as <- <-.
  rewrite firstn_gen by (rewrite ?length_app; simpl; lia).
  match goal with
  | |- token_match (_ :: _ :: ?x :: ?pre ++ _) _ _ =>
      exists (x :: pre); simpl; repeat split; auto; try discriminate
  end.
Qed.

Lemma re_token_complete s f rest : token_match s f rest -> re_token s <> None.
Proof.
  intros [src [-> [Hs [Hsrc [Hf Hff]]]]].
  destruct src as [|x src]; [congruence|]; destruct f as [|y f]; [congruence|].
  inversion Hsrc; inversion Hff; subst.
  unfold re_token; fwd.
  apply m_star_complete; [assumption|]; fwd.
  apply m_star_complete; [assumption|]; fwd; discriminate.
Qed.

Lemma dot_not_lower_us : is_lower_us "."%char = false. Proof. reflexivity. Qed.
Lemma brace_not_name : is_name_char "}"%char = false. Proof. reflexivity. Qed.

Lemma token_match_unique s f1 r1 f2 r2 :
  token_match s f1 r1 -> token_match s f2 r2 -> f1 = f2 /\ r1 = r2.
Proof.
  intros [a1 [-> [_ [Ha1 [_ Hf1]]]]] [a2 [E [_ [Ha2 [_ Hf2]]]]].
  injection E as E.
  apply (sep_unique is_lower_us) in E; auto.
  destruct E as [_ [_ E]].
  apply (sep_unique is_name_char) in E; auto.
  destruct E as [-> [_ E]]; injection E as ->; auto.
Qed.

Lemma re_token_spec s f rest :
  re_token s = Some (f, rest) <-> token_match s f rest.
Proof.
  split; [apply re_token_sound|].
  intros H; destruct (re_token s) as [[f' r']|] eqn:E.
  - apply re_token_sound in E.
    destruct (token_match_unique s f rest f' r' H E) as [-> ->]; reflexivity.
  - exfalso; apply (re_token_complete s f rest H); auto.
Qed.

Lemma re_token_shortening : shortening re_token.
Proof.
  intros s f rest H; apply re_token_sound in H.
  destruct H as [src [-> _]].
  simpl; repeat (rewrite length_app; simpl); lia.
Qed.

Lemma re_token_nil : re_token [] = None.
Proof. reflexivity. Qed.

Lemma token_match_not_nil f rest : ~ token_match [] f rest.
Proof. intros [src [E _]]; discriminate. Qed.

(** A placeholder cannot start strictly inside an earlier one: inside a
    match, an opening brace only occurs at its first two positions. *)
Lemma token_no_overlap s f rest a t f' rest' :
  token_match s f rest -> s = a ++ t -> token_match t f' rest' -> a <> [] ->
  exists a', rest = a' ++ t.
Proof.
  intros [src [Es [Hs [Hsrc [Hf Hff]]]]] Eat Ht Ha.
  set (M := "{"%char :: "{"%char :: src ++ "."%char :: f ++ ["}"%char; "}"%char]).
  assert (EM : s = M ++ rest)
    by (rewrite Es; unfold M; simpl;
        repeat (rewrite <- app_assoc || rewrite <- app_comm_cons); reflexivity).
  rewrite EM in Eat.
  apply app_eq_app in Eat; destruct Eat as [l [[E1 E2]|[E1 E2]]].
  - destruct Ht as [src' [Et _]].
    destruct l as [|w l].
    { exists []; simpl in E2; auto. }
    exfalso; rewrite Et in E2; injection E2 as <- E2.
    destruct a as [|x a]; [congruence|].
    unfold M in E1; injection E1 as _ E1.
    destruct a as [|z a].
    + simpl in E1; injection E1 as E1; subst l.
      destruct src as [|y src]; [congruence|].
      simpl in E2; injection E2 as <- _; inversion Hsrc; discriminate.
    + injection E1 as _ E1.
      assert (Hw : In "{"%char (src ++ "."%char :: f ++ ["}"%char; "}"%char])).
      { rewrite E1; apply in_app_iff; right; left; reflexivity. }
      apply in_app_iff in Hw; destruct Hw as [Hw|[Hw|Hw]].
      * rewrite Forall_forall in Hsrc; apply Hsrc in Hw; discriminate.
      * discriminate.
      * apply in_app_iff in Hw; destruct Hw as [Hw|[Hw|[Hw|[]]]];
          try discriminate.
        rewrite Forall_forall in Hff; apply Hff in Hw; discriminate.
  - exists l; auto.
Qed.

Lemma token_match_suffix s f rest :
  token_match s f rest -> exists m, s = m ++ rest.
Proof.
  intros [src [-> _]].
  exists ("{"%char :: "{"%char :: src ++ "."%char :: f ++ ["}"%char; "}"%char]).
  simpl; repeat (rewrite <- app_assoc || rewrite <- app_comm_cons); reflexivity.
Qed.

Lemma token_occ_app m s f : token_occ s f -> token_occ (m ++ s) f.
Proof.
  intros [a [t [rest [-> Ht]]]]; exists (m ++ a), t, rest; split; auto.
  apply app_assoc.
Qed.

Lemma token_occ_nil f : ~ token_occ [] f.
Proof.
  intros [a [t [rest [E Ht]]]].
  destruct a, t; try discriminate; eapply token_match_not_nil; eauto.
Qed.

(** The [g]-flag loop of the token expression finds the field id of every
    placeholder occurring in the text. *)
Lemma exec_token_iff s f :
  In f (exec_all re_token s) <-> token_occ s f.
Proof.
  remember (List.length s) as n eqn:En.
  assert (Hn : List.length s <= n) by lia; clear En.
  revert s Hn; induction n as [|n IH]; intros s Hn;
    (destruct s as [|c s];
     [rewrite exec_all_nil by reflexivity; simpl; split;
      [intros []|intros H; apply token_occ_nil in H; contradiction]|]).
  - simpl in Hn; lia.
  - rewrite exec_all_cons by apply re_token_shortening.
    destruct (re_token (c :: s)) as [[f0 r]|] eqn:E.
    + pose proof E as Hm; apply re_token_spec in Hm.
      pose proof (re_token_shortening _ _ _ E) as Hlen.
      simpl; rewrite IH by (simpl in *; lia).
      split.
      * intros [<-|Ho].
        -- exists [], (c :: s), r; auto.
        -- destruct (token_match_suffix _ _ _ Hm) as [m Em].
           rewrite Em; apply token_occ_app; auto.
      * intros [a [t [rest [Ea Ht]]]].
        destruct a as [|x a].
        -- simpl in Ea; subst t; left.
           destruct (token_match_unique _ _ _ _ _ Hm Ht); auto.
        -- right; destruct (token_no_overlap _ _ _ _ _ _ _ Hm Ea Ht) as [a' ->];
             [discriminate|].
           exists a', t, rest; auto.
    + rewrite IH by (simpl in *; lia).
      split.
      * intros H; apply (token_occ_app [c]) in H; exact H.
      * intros [a [t [rest [Ea Ht]]]].
        destruct a as [|x a].
        -- simpl in Ea; subst t; apply re_token_spec in Ht; congruence.
        -- injection Ea as -> Ea; exists a, t, rest; auto.
Qed.

(** C3, as the code has it: on the serialised item the token strategy
    yields exactly the field ids [f] of the placeholders
    [{{<source>.<f>}}] occurring in it, with [<source>] one or more of
    [[a-z_]] and [f] one or more of [[a-z0-9_]] (so [f] may start with a
    digit or an underscore); workflow and email extraction return these
    together with the structural names of C1, without repetition; a text
    holding [{{contact.favorite_color}}] yields [favorite_color]. *)
Theorem extractPropsFromJsonWithTokens_tokens (obj : json) :
  (forall f, In f (exec_all re_token (stringify obj)) <-> token_occ (stringify obj) f)
  /\ (forall f, In f (extractWorkflowProps obj) <->
                prop_hit obj f \/ token_occ (stringify obj) f)
  /\ (forall f, In f (extractEmailProps obj) <->
                prop_hit obj f \/ token_occ (stringify obj) f)
  /\ NoDup (extractPropsFromJsonWithTokens obj)
  /\ In (lit "favorite_color")
        (extractEmailProps (obj1 "html" "<p>Hi {{contact.favorite_color}}</p>")).
Proof.
  assert (Hin : forall f, In f (extractPropsFromJsonWithTokens obj) <->
                prop_hit obj f \/ token_occ (stringify obj) f).
  { intros f; unfold extractPropsFromJsonWithTokens.
    rewrite (set_add_all_in jstr_eqb jstr_eqb_eq), exec_token_iff.
    unfold extractPropNamesFromJson.
    rewrite (set_add_all_in jstr_eqb jstr_eqb_eq), exec_prop_stringify; simpl; tauto. }
  split; [intros f; apply exec_token_iff|].
  split; [exact Hin|]; split; [exact Hin|]; split.
  - apply set_add_all_nodup; [apply jstr_eqb_eq|].
    apply set_add_all_nodup; [apply jstr_eqb_eq|constructor].
  - vm_compute; auto.
Qed.

(** C3, the claim as stated fails: the token expression's field id is
    [[a-z0-9_]+], so a placeholder whose id starts with a digit is
    extracted although the id does not have the internal-name shape. *)
Lemma extractPropsFromJsonWithTokens_digit_counterexample :
  exec_all re_token (stringify (obj1 "body" "{{contact.9lives}}")) = [lit "9lives"]
  /\ extractWorkflowProps (obj1 "body" "{{contact.9lives}}") = [lit "9lives"]
  /\ ~ is_ident (lit "9lives").
Proof.
  split; [reflexivity|]; split; [reflexivity|].
  intros [c [t [E [Hc _]]]]; injection E as <- _; discriminate.
Qed.

(** ** The Cursor Paginator *)

Lemma jstr_eqb_refl a : jstr_eqb a a = true.
Proof. apply jstr_eqb_eq; reflexivity. Qed.

Lemma jstr_eqb_neq a b : a <> b -> jstr_eqb a b = false.
Proof.
  intros H; destruct (jstr_eqb a b) eqn:E; auto; apply jstr_eqb_eq in E; congruence.
Qed.

(** One iteration of the loop on a non-null body. *)
Lemma paginate_go_S srv token url key extra fuel items a d :
  srv (page_request token url extra a) = inr d -> d <> JNull ->
  paginate_go srv token url key extra (S fuel) items a =
    (let items' := items ++ page_batch key d in
     if truthy (next_cursor d)
     then let p := paginate_go srv token url key extra fuel items' (next_cursor d) in
          (page_request token url extra a :: fst p, snd p)
     else ([page_request token url extra a], Ret items')).
Proof.
  intros Hs Hd; cbn [paginate_go]; rewrite Hs.
  assert (Hm : member d key = inr (js_get d key)) by (destruct d; [congruence|reflexivity..]).
  rewrite Hm; unfold page_batch.
  destruct (js_get d key) as [[]|]; rewrite ?app_nil_r; reflexivity.
Qed.

(** One iteration of the loop on a [null] body: [res.data[key]] throws. *)
Lemma paginate_go_null srv token url key extra fuel items a :
  srv (page_request token url extra a) = inr JNull ->
  paginate_go srv token url key extra (S fuel) items a =
    ([page_request token url extra a],
     Throw (type_error (lit "Cannot read properties of null (reading '" ++ key ++ lit "')"))).
Proof. intros Hs; cbn [paginate_go]; rewrite Hs; reflexivity. Qed.

Lemma paginate_pages srv token url key extra a ds a' :
  pages_from srv token url extra a ds a' ->
  forall fuel items, List.length ds <= fuel ->
  paginate_go srv token url key extra fuel items a =
    (let p := paginate_go srv token url key extra (fuel - List.length ds)
                (items ++ concat (map (page_batch key) ds)) a' in
     (map (page_request token url extra) (cursors a ds) ++ fst p, snd p)).
Proof.
  induction 1 as [a|a d ds a' Hs Hd Ht _ IH]; intros fuel items Hf; simpl.
  - rewrite Nat.sub_0_r, app_nil_r; destruct (paginate_go _ _ _ _ _ _ _ _); reflexivity.
  - destruct fuel as [|fuel]; [simpl in Hf; lia|].
    rewrite (paginate_go_S _ _ _ _ _ _ _ _ _ Hs Hd); simpl; rewrite Ht.
    rewrite (IH fuel) by (simpl in Hf; lia); simpl.
    rewrite app_assoc; reflexivity.
Qed.

Lemma obj_set_keys k v o : map fst (obj_set k v o) =
  if existsb (jstr_eqb k) (map fst o) then map fst o else map fst o ++ [k].
Proof.
  induction o as [|[k' v'] o IH]; simpl; auto.
  destruct (jstr_eqb k k') eqn:E; simpl; auto.
  rewrite IH; destruct (existsb (jstr_eqb k) (map fst o)); reflexivity.
Qed.

Lemma obj_set_nodup k v o : NoDup (map fst o) -> NoDup (map fst (obj_set k v o)).
Proof.
  intros H; rewrite obj_set_keys.
  pose proof (set_add_nodup jstr_eqb jstr_eqb_eq k (map fst o) H) as H'.
  unfold set_add in H'; exact H'.
Qed.

Lemma assoc_last_notin {A} k (o : list (jstr * A)) :
  ~ In k (map fst o) -> assoc_last k o = None.
Proof.
  induction o as [|[k' v'] o IH]; simpl; intros H; auto.
  rewrite IH by tauto; rewrite jstr_eqb_neq; auto.
Qed.

Lemma assoc_last_obj_set k k' v o : NoDup (map fst o) ->
  assoc_last k (obj_set k' v o) = if jstr_eqb k k' then Some v else assoc_last k o.
Proof.
  induction o as [|[k1 v1] o IH]; simpl; intros Hn.
  - destruct (jstr_eqb k k'); reflexivity.
  - inversion Hn as [|? ? Hk1 Hn']; subst.
    destruct (jstr_eqb k' k1) eqn:E1; simpl.
    + apply jstr_eqb_eq in E1; subst k1.
      destruct (jstr_eqb k k') eqn:E.
      * apply jstr_eqb_eq in E; subst k.
        rewrite (assoc_last_notin k' o Hk1); reflexivity.
      * destruct (assoc_last k o); reflexivity.
    + rewrite IH by exact Hn'.
      destruct (jstr_eqb k k'); auto.
Qed.

Lemma obj_assign_nodup o src : NoDup (map fst o) -> NoDup (map fst (obj_assign o src)).
Proof.
  unfold obj_assign; revert o; induction src as [|[k v] src IH]; intros o H; simpl; auto.
  apply IH, obj_set_nodup, H.
Qed.

Lemma assoc_last_obj_assign k o src : NoDup (map fst o) ->
  assoc_last k (obj_assign o src) =
    match assoc_last k src with Some v => Some v | None => assoc_last k o end.
Proof.
  unfold obj_assign; revert o; induction src as [|[k1 v1] src IH]; intros o H; simpl; auto.
  rewrite IH by (apply obj_set_nodup, H).
  rewrite assoc_last_obj_set by exact H.
  destruct (assoc_last k src); auto; destruct (jstr_eqb k k1); auto.
Qed.

Lemma hubspot_params_lookup extra a k :
  assoc_last k (hubspot_params extra a) =
    match (if truthy a then assoc_last k [(lit "after", a)] else None) with
    | Some v => Some v
    | None => match assoc_last k extra with
              | Some v => Some v
              | None => assoc_last k [(lit "limit", JNum 100)]
              end
    end.
Proof.
  unfold hubspot_params.
  rewrite assoc_last_obj_assign
    by (apply obj_assign_nodup; repeat constructor; simpl; tauto).
  rewrite assoc_last_obj_assign by (repeat constructor; simpl; tauto).
  destruct (truthy a); reflexivity.
Qed.

(** C4, as the code has it: while the bodies are not [null], the loop
    drains the pages and returns their items concatenated in fetch order,
    one request per page; a failing request ends it with that exception
    and no items, and so does a [null] body with a TypeError; the query
    of each request holds every parameter of [extra], [limit: 100] unless
    [extra] sets [limit], and [after] set to the cursor when the cursor is
    truthy; 100/100/37 items give 237 items in order with 3 requests. *)
Theorem paginateHubSpot_spec :
  (forall srv token url key extra ds a d fuel,
     pages_from srv token url extra JNull ds a ->
     srv (page_request token url extra a) = inr d -> d <> JNull ->
     truthy (next_cursor d) = false -> List.length ds < fuel ->
     paginateHubSpot fuel srv token url key extra =
       (map (page_request token url extra) (cursors JNull ds ++ [a]),
        Ret (concat (map (page_batch key) (ds ++ [d])))))
  /\ (forall srv token url key extra ds a e fuel,
     pages_from srv token url extra JNull ds a ->
     srv (page_request token url extra a) = inl e -> List.length ds < fuel ->
     paginateHubSpot fuel srv token url key extra =
       (map (page_request token url extra) (cursors JNull ds ++ [a]), Throw e))
  /\ (forall srv token url key extra ds a fuel,
     pages_from srv token url extra JNull ds a ->
     srv (page_request token url extra a) = inr JNull -> List.length ds < fuel ->
     paginateHubSpot fuel srv token url key extra =
       (map (page_request token url extra) (cursors JNull ds ++ [a]),
        Throw (type_error (lit "Cannot read properties of null (reading '" ++ key ++ lit "')"))))
  /\ (forall extra a k,
     assoc_last k (hubspot_params extra a) =
       if truthy a && jstr_eqb k (lit "after") then Some a
       else match assoc_last k extra with
            | Some v => Some v
            | None => if jstr_eqb k (lit "limit") then Some (JNum 100) else None
            end)
  /\ (let run := paginateHubSpot 10 srv_237 (JStr (lit "pat-token"))
                   (lit "https://api.hubapi.com/marketing/v3/forms") (lit "results") [] in
      List.length (fst run) = 3
      /\ snd run = Ret (map (fun i => JNum (Z.of_nat i)) (seq 0 237))).
Proof.
  split; [|split; [|split; [|split]]].
  - intros srv token url key extra ds a d fuel Hp Hs Hd Ht Hf.
    unfold paginateHubSpot.
    rewrite (paginate_pages _ _ _ _ _ _ _ _ Hp fuel [] ltac:(lia)); simpl.
    destruct (fuel - List.length ds) as [|f] eqn:Ef; [lia|].
    rewrite (paginate_go_S _ _ _ _ _ _ _ _ _ Hs Hd), Ht; simpl.
    rewrite !map_app, concat_app; simpl; rewrite app_nil_r; reflexivity.
  - intros srv token url key extra ds a e fuel Hp Hs Hf.
    unfold paginateHubSpot.
    rewrite (paginate_pages _ _ _ _ _ _ _ _ Hp fuel [] ltac:(lia)); simpl.
    destruct (fuel - List.length ds) as [|f] eqn:Ef; [lia|].
    simpl; rewrite Hs; simpl; rewrite map_app; reflexivity.
  - intros srv token url key extra ds a fuel Hp Hs Hf.
    unfold paginateHubSpot.
    rewrite (paginate_pages _ _ _ _ _ _ _ _ Hp fuel [] ltac:(lia)); simpl.
    destruct (fuel - List.length ds) as [|f] eqn:Ef; [lia|].
    rewrite (paginate_go_null _ _ _ _ _ _ _ _ Hs); simpl; rewrite map_app; reflexivity.
  - intros extra a k; rewrite hubspot_params_lookup.
    destruct (truthy a); cbn [andb assoc_last].
    + destruct (jstr_eqb k (lit "after")); [reflexivity|].
      destruct (assoc_last k extra); reflexivity.
    + destruct (assoc_last k extra); [reflexivity|].
      destruct (jstr_eqb k (lit "limit")); reflexivity.
  - vm_compute; split; reflexivity.
Qed.

(** C4, the claim as stated fails: the parameters are spread after
    [limit: 100], so a [limit] among the extra parameters replaces it. *)
Lemma paginateHubSpot_limit_counterexample :
  map req_params (fst (paginateHubSpot 10 srv_237 (JStr (lit "pat-token"))
                         (lit "https://api.hubapi.com/marketing/v3/forms") (lit "results")
                         [(lit "limit", JNum 5)]))
  = [[(lit "limit", JNum 5)];
     [(lit "limit", JNum 5); (lit "after", JStr (lit "p2"))];
     [(lit "limit", JNum 5); (lit "after", JStr (lit "p3"))]].
Proof. vm_compute; reflexivity. Qed.

(** C10, the claim as stated fails: a body that is [null] makes
    [res.data[key]] throw, and the paginator fails with that TypeError. *)
Lemma paginateHubSpot_null_body_counterexample :
  paginateHubSpot 10 (fun _ => inr JNull) (JStr (lit "pat-token"))
    (lit "https://api.hubapi.com/marketing/v3/forms") (lit "results") []
  = ([page_request (JStr (lit "pat-token"))
        (lit "https://api.hubapi.com/marketing/v3/forms") [] JNull],
     Throw (type_error (lit "Cannot read properties of null (reading 'results')"))).
Proof. vm_compute; reflexivity. Qed.

(** C10, as the code has it: at any point of the loop, a page whose body
    is not [null] but has no array under [key] adds no item, and the loop
    continues with its cursor when that is truthy and returns the items
    so far otherwise, without throwing; a page whose body is [null] ends
    the loop with the TypeError of [res.data[key]], its request being the
    last one issued. *)
Theorem paginate_go_malformed_page :
  (forall srv token url key extra fuel items after data,
     srv (page_request token url extra after) = inr data ->
     data <> JNull ->
     (forall l, js_get data key <> Some (JArr l)) ->
     paginate_go srv token url key extra (S fuel) items after =
       (if truthy (next_cursor data)
        then let p := paginate_go srv token url key extra fuel items (next_cursor data) in
             (page_request token url extra after :: fst p, snd p)
        else ([page_request token url extra after], Ret items)))
  /\ (forall srv token url key extra fuel items after,
     srv (page_request token url extra after) = inr JNull ->
     paginate_go srv token url key extra (S fuel) items after =
       ([page_request token url extra after],
        Throw (type_error (lit "Cannot read properties of null (reading '" ++ key ++ lit "')")))).
Proof.
  split; [|intros; apply paginate_go_null; assumption].
  intros srv token url key extra fuel items after data Hs Hd Hk.
  rewrite (paginate_go_S _ _ _ _ _ _ _ _ _ Hs Hd).
  assert (Hb : page_batch key data = []).
  { unfold page_batch; destruct (js_get data key) as [[]|] eqn:E; auto.
    exfalso; exact (Hk l eq_refl). }
  rewrite Hb, app_nil_r; reflexivity.
Qed.

Lemma paginate_go_malformed_page_witness :
  paginate_go srv_malformed (JStr (lit "pat-token")) (lit "https://api.hubapi.com/crm/v3/lists")
    (lit "results") [] 3 [] JNull
  = ([page_request (JStr (lit "pat-token")) (lit "https://api.hubapi.com/crm/v3/lists") [] JNull;
      page_request (JStr (lit "pat-token")) (lit "https://api.hubapi.com/crm/v3/lists") []
        (JStr (lit "p2"))],
     Ret [JNum 1])
  /\ paginate_go (fun _ => inr JNull) (JStr (lit "pat-token"))
       (lit "https://api.hubapi.com/crm/v3/lists") (lit "lists") [] 3 [JNum 1] (JStr (lit "p2"))
     = ([page_request (JStr (lit "pat-token")) (lit "https://api.hubapi.com/crm/v3/lists") []
           (JStr (lit "p2"))],
        Throw (type_error (lit "Cannot read properties of null (reading 'lists')"))).
Proof.
  split.
  - rewrite (proj1 paginate_go_malformed_page srv_malformed (JStr (lit "pat-token"))
               (lit "https://api.hubapi.com/crm/v3/lists") (lit "results") [] 2 [] JNull
               (JObj [(lit "results", JStr (lit "oops"));
                      (lit "paging", JObj [(lit "next", JObj [(lit "after", JStr (lit "p2"))])])])
               eq_refl ltac:(discriminate) ltac:(intros l H; vm_compute in H; discriminate)).
    vm_compute; reflexivity.
  - apply (proj2 paginate_go_malformed_page (fun _ => inr JNull) (JStr (lit "pat-token"))
             (lit "https://api.hubapi.com/crm/v3/lists") (lit "lists") [] 2 [JNum 1]
             (JStr (lit "p2"))).
    reflexivity.
Defined.

(** ** The form walk *)

Lemma ofold_spec {A B} (f : list A -> B -> outcome (list A)) (Q : B -> A -> Prop)
  (l : list B) (acc : list A) :
  (forall x acc, In x l ->
     exists acc', f acc x = Ret acc' /\ forall y, In y acc' <-> In y acc \/ Q x y) ->
  exists r, ofold f acc l = Ret r /\
    forall y, In y r <-> In y acc \/ exists x, In x l /\ Q x y.
Proof.
  revert acc; induction l as [|x l IH]; intros acc H; simpl.
  - exists acc; split; [reflexivity|]; intros y; split; [auto|].
    intros [Hy|[x [[] _]]]; auto.
  - destruct (H x acc (or_introl eq_refl)) as [acc1 [E1 H1]]; rewrite E1; simpl.
    destruct (IH acc1) as [r [Er Hr]]; [intros x' a Hx'; apply H; right; exact Hx'|].
    exists r; split; [exact Er|]; intros y; rewrite Hr, H1; split.
    + intros [[Hy|Hy]|[x' [Hx' Hq]]]; eauto.
    + intros [Hy|[x' [[<-|Hx'] Hq]]]; eauto.
Qed.

Lemma same_value_zero_sound a b : same_value_zero a b = true -> a = b.
Proof.
  destruct a, b; simpl; try discriminate; intros H; auto.
  - apply Bool.eqb_prop in H; subst; reflexivity.
  - apply Z.eqb_eq in H; subst; reflexivity.
  - apply jstr_eqb_eq in H; subst; reflexivity.
Qed.

Lemma set_add_sv_in x s y :
  In y (set_add same_value_zero x s) <-> In y s \/ x = y.
Proof.
  unfold set_add; destruct (existsb (same_value_zero x) s) eqn:E.
  - apply existsb_exists in E; destruct E as [z [Hz Ez]].
    apply same_value_zero_sound in Ez; subst z.
    split; [auto|intros [H| <-]; auto].
  - rewrite in_app_iff; simpl; split; intros [H|H]; auto.
    destruct H as [H|[]]; auto.
Qed.

Lemma iterate_ok w v : list_ok v -> iterate w v = inr (arr v).
Proof.
  destruct v as [j|]; simpl; auto.
  destruct j as [|b|z|s|l|kvs]; simpl; intros H; try discriminate; auto.
  - rewrite H; reflexivity.
  - rewrite H; reflexivity.
  - rewrite H; reflexivity.
Qed.

Lemma member_obj j k : is_obj j -> member j k = inr (js_get j k).
Proof. intros [kvs ->]; reflexivity. Qed.

Lemma size_in x l : In x l -> json_size x < json_size (JArr l).
Proof.
  induction l as [|y l IH]; simpl; [tauto|].
  intros [<-|H]; [lia|]. specialize (IH H); simpl in IH; lia.
Qed.

Lemma size_assoc k kvs w : assoc_last k kvs = Some w -> json_size w < json_size (JObj kvs).
Proof.
  induction kvs as [|[k' v] kvs IH]; simpl; [discriminate|].
  destruct (assoc_last k kvs) eqn:E.
  - intros [= <-]; specialize (IH eq_refl); simpl in IH; lia.
  - destruct (jstr_eqb k k'); [intros [= <-]; lia|discriminate].
Qed.

Lemma size_get j k : is_obj j -> size_opt (js_get j k) < json_size j.
Proof.
  intros [kvs ->]; simpl.
  destruct (assoc_last k kvs) eqn:E; simpl; [exact (size_assoc _ _ _ E)|lia].
Qed.

Lemma size_arr x v : In x (arr v) -> json_size x < size_opt v.
Proof.
  destruct v as [j|]; [destruct j|]; simpl; try tauto; apply size_in.
Qed.

Lemma reach_iff v h :
  reach v h <-> exists f, In f (arr v) /\ (h = f \/ below f h).
Proof.
  split.
  - intros H; inversion H; subst; eauto.
  - intros [f [Hf [->|Hb]]]; [apply reach_here | apply (reach_below _ f)]; auto.
Qed.

Lemma below_iff f h :
  below f h <-> exists dep, In dep (arr (js_get f (lit "dependentFields"))) /\
    ((exists flt g, In flt (arr (js_get dep (lit "dependentFieldFilters")))
                    /\ js_get flt (lit "dependentFormField") = Some g /\ truthy g = true
                    /\ reach (Some (JArr [g])) h)
     \/ reach (js_get dep (lit "fields")) h).
Proof.
  split.
  - intros H; inversion H; subst; eauto 10.
  - intros [dep [Hd [[flt [g [Hf [Hg [Ht Hr]]]]]|Hr]]].
    + exact (below_cond _ _ _ _ _ Hd Hf Hg Ht Hr).
    + exact (below_legacy _ _ _ Hd Hr).
Qed.

Lemma scanFields_spec fuel : forall v names, fields_ok v -> size_opt v < fuel ->
  exists r, scanFields fuel v names = Ret r /\
    forall y, In y r <-> In y names \/ exists h, reach v h /\ field_name h y.
Proof.
  induction fuel as [|fuel IH]; intros v names Hv Hs; [lia|].
  inversion Hv as [v' Hl Hf]; subst v'.
  cbn [scanFields]; rewrite (iterate_ok _ _ Hl); cbn [obind of_sum].
  match goal with |- exists _, ofold ?F ?a ?l = Ret _ /\ _ =>
    destruct (ofold_spec F (fun f y => exists h, (h = f \/ below f h) /\ field_name h y) l a)
      as [r [Er Hr]] end.
  2:{ exists r; split; [exact Er|]. intros y; rewrite Hr; split.
        - intros [H|[f [Hf1 [h [Hh Hn]]]]]; [left; exact H|].
          right; exists h; split; [apply reach_iff; eauto|exact Hn].
        - intros [H|[h [Hh Hn]]]; [left; exact H|].
          apply reach_iff in Hh; destruct Hh as [f [Hf1 Hh]].
          right; exists f; split; [exact Hf1|exists h; auto]. }
  intros f acc Hfi.
  pose proof (size_arr _ _ Hfi) as Hsf.
  destruct (Hf f Hfi) as [f' Hfo Hdl Hdeps].
  cbv beta zeta; rewrite (member_obj _ _ Hfo); cbn [obind of_sum].
  rewrite (member_obj _ _ Hfo); cbn [obind of_sum].
  rewrite (iterate_ok _ _ Hdl); cbn [obind of_sum].
  match goal with |- context [ofold _ ?n1 _] =>
    assert (Hn1 : forall y, In y n1 <-> In y acc \/ field_name f' y);
    [|remember n1 as names1 eqn:En1; clear En1] end.
  { intros y; unfold field_name; destruct (js_get f' (lit "name")) as [w|].
    - destruct (truthy w) eqn:Ew.
      + rewrite set_add_sv_in; split; intros [H|H]; auto.
        * right; subst; auto.
        * right; destruct H as [[= ->] _]; reflexivity.
      + split; [auto|intros [H|[[= <-] H]]; [auto|congruence]].
    - split; [auto|intros [H|[H _]]; [auto|discriminate]]. }
  match goal with |- exists _, ofold ?F ?a ?l = Ret _ /\ _ =>
    destruct (ofold_spec F (fun dep y =>
       (exists flt g, In flt (arr (js_get dep (lit "dependentFieldFilters")))
                      /\ js_get flt (lit "dependentFormField") = Some g /\ truthy g = true
                      /\ exists h, reach (Some (JArr [g])) h /\ field_name h y)
       \/ exists h, reach (js_get dep (lit "fields")) h /\ field_name h y) l a)
      as [rd [Erd Hrd]] end.
  2:{ exists rd; split; [exact Erd|]. intros y; rewrite Hrd, Hn1.
      split.
      - intros [[H|H]|[dep [Hd Hq]]]; [left; exact H|right|right].
        + exists f'; auto.
        + destruct Hq as [[flt [g [Hflt [Hg [Ht [h [Hh Hn]]]]]]]|[h [Hh Hn]]];
            exists h; (split; [right; apply below_iff; exists dep; split; [exact Hd|]|exact Hn]).
          * left; exists flt, g; auto.
          * right; exact Hh.
      - intros [H|[h [[->|Hb] Hn]]]; [left; left; exact H|left; right; exact Hn|].
        apply below_iff in Hb; destruct Hb as [dep [Hd [[flt [g [Hflt [Hg [Ht Hh]]]]]|Hh]]];
          right; exists dep; split; auto.
        + left; exists flt, g; repeat split; auto; exists h; auto.
        + right; exists h; auto. }
  intros dep acc1 Hdi.
  assert (Hsd : json_size dep < json_size f')
    by (pose proof (size_arr _ _ Hdi); pose proof (size_get f' (lit "dependentFields") Hfo); lia).
  destruct (Hdeps dep Hdi) as [dep' Hdo Hfl Hflts Hdf].
  cbv beta zeta; rewrite (member_obj _ _ Hdo); cbn [obind of_sum].
  rewrite (iterate_ok _ _ Hfl); cbn [obind of_sum].
  match goal with |- exists _, obind (ofold ?F ?a ?l) _ = Ret _ /\ _ =>
    destruct (ofold_spec F (fun flt y =>
       exists g, js_get flt (lit "dependentFormField") = Some g /\ truthy g = true
                 /\ exists h, reach (Some (JArr [g])) h /\ field_name h y) l a)
      as [rf [Erf Hrf]] end.
  2:{ rewrite Erf; cbn [obind]; rewrite (member_obj _ _ Hdo); cbn [obind of_sum].
      destruct (IH (js_get dep' (lit "fields")) rf Hdf) as [rs [Ers Hrs]].
      { pose proof (size_get dep' (lit "fields") Hdo); lia. }
      exists rs; split; [exact Ers|]; intros y; rewrite Hrs, Hrf.
      split.
      - intros [[H|[flt [Hflt [g [Hg [Ht Hh]]]]]]|H]; [left; exact H|right; left|right; right; exact H].
        exists flt, g; auto.
      - intros [H|[[flt [g [Hflt [Hg [Ht Hh]]]]]|H]]; [left; left; exact H| |right; exact H].
        left; right; exists flt; split; [exact Hflt|exists g; auto]. }
  intros flt acc2 Hfli.
  assert (Hsflt : json_size flt < json_size dep')
    by (pose proof (size_arr _ _ Hfli);
        pose proof (size_get dep' (lit "dependentFieldFilters") Hdo); lia).
  destruct (Hflts flt Hfli) as [flt' Hflo Hg].
  cbv beta zeta; rewrite (member_obj _ _ Hflo); cbn [obind of_sum].
  destruct (js_get flt' (lit "dependentFormField")) as [g|] eqn:Eg.
  - destruct (truthy g) eqn:Et.
    + destruct (IH (Some (JArr [g])) acc2) as [rg [Erg Hrg]].
      * constructor; [exact I|]; intros f0 [<-|[]]; apply Hg; auto.
      * pose proof (size_get flt' (lit "dependentFormField") Hflo) as Hsg.
        rewrite Eg in Hsg; simpl in Hsg |- *; lia.
      * exists rg; split; [exact Erg|]; intros y; rewrite Hrg; split.
        -- intros [H|H]; [left; exact H|right; exists g; auto].
        -- intros [H|[g' [[= <-] [_ H]]]]; [left; exact H|right; exact H].
    + exists acc2; split; [reflexivity|]; intros y; split; [auto|].
      intros [H|[g' [[= <-] [Ht' _]]]]; [exact H|congruence].
  - exists acc2; split; [reflexivity|]; intros y; split; [auto|].
    intros [H|[g' [Hg' _]]]; [exact H|discriminate].
Qed.

Lemma rows_first_code l :
  (0 <? List.length l) && is_arr (nth 0 l JNull) = rows_first l.
Proof. destruct l; reflexivity. Qed.

(** C2, as the code has it: on a form of the expected shape (every list
    the walk reads is an array or absent or falsy, every group, field,
    dependent entry and filter is an object, and the rows of a row-major
    legacy list are arrays or falsy) the walk does not fail, and returns
    exactly the truthy names of the fields reached from
    [fieldGroups[].fields], through the conditional
    [dependentFields[].dependentFieldFilters[].dependentFormField] fields
    and the legacy [dependentFields[].fields] lists, and from the legacy
    [formFields] list, flat or row by row. *)
Theorem extractFormProps_fields (form : json) (Hok : form_ok form) :
  exists names, extractFormProps form = Ret names /\
    forall y, In y names <-> exists h, form_field form h /\ field_name h y.
Proof.
  destruct Hok as [Ho [Hgl [Hgr Hleg]]].
  unfold extractFormProps, extractFormProps_go.
  rewrite (member_obj _ _ Ho); cbn [obind of_sum].
  rewrite (iterate_ok _ _ Hgl); cbn [obind of_sum].
  match goal with |- exists _, obind (ofold ?F ?a ?l) _ = Ret _ /\ _ =>
    destruct (ofold_spec F (fun grp y =>
       exists h, reach (js_get grp (lit "fields")) h /\ field_name h y) l a)
      as [rg [Erg Hrg]] end.
  2:{ rewrite Erg; cbn [obind]; rewrite (member_obj _ _ Ho); cbn [obind of_sum].
      assert (Hg : forall y, In y rg <-> exists h,
                (exists grp, In grp (arr (js_get form (lit "fieldGroups")))
                             /\ reach (js_get grp (lit "fields")) h) /\ field_name h y).
      { intros y; rewrite Hrg; split.
        - intros [[]|[grp [Hgi [h [Hh Hn]]]]]; exists h; split; [exists grp|]; auto.
        - intros [h [[grp [Hgi Hh]] Hn]]; right; exists grp; split; [|exists h]; auto. }
      unfold form_field.
      destruct (js_get form (lit "formFields")) as [j|] eqn:Ef;
        [destruct j as [|b|z|s|l|kvs]|].
      all: try (exists rg; split; [reflexivity|]; intros y; rewrite Hg; split;
                [intros [h [H Hn]]; exists h; split; [left; exact H|exact Hn]
                |intros [h [[H|[l [Hl _]]] Hn]]; [exists h; auto|discriminate]]).
      pose proof (Hleg l eq_refl) as Hl.
      assert (Hsl : json_size (JArr l) < json_size form).
      { pose proof (size_get form (lit "formFields") Ho) as H; rewrite Ef in H; exact H. }
      rewrite rows_first_code; destruct (rows_first l) eqn:Erf.
      - match goal with |- exists _, ofold ?F ?a ?l = Ret _ /\ _ =>
          destruct (ofold_spec F (fun row y =>
             exists h, reach (Some row) h /\ field_name h y) l a)
            as [rr [Err Hrr]] end.
        2:{ exists rr; split; [exact Err|]; intros y; rewrite Hrr, Hg; split.
            - intros [[h [H Hn]]|[row [Hr [h [Hh Hn]]]]]; exists h; split; auto.
              right; exists l; split; [reflexivity|rewrite Erf; exists row; auto].
            - intros [h [[H|[l' [E' Hh]]] Hn]].
              + left; exists h; auto.
              + injection E' as <-; rewrite Erf in Hh; destruct Hh as [row [Hr Hh]].
                right; exists row; split; [|exists h]; auto. }
        intros row acc Hr.
        destruct (scanFields_spec (json_size form) (Some row) acc (Hl row Hr))
          as [rs [Ers Hrs]].
        { pose proof (size_in _ _ Hr); unfold size_opt; lia. }
        exists rs; split; [exact Ers|]; exact Hrs.
      - destruct (scanFields_spec (json_size form) (Some (JArr l)) rg Hl)
          as [rs [Ers Hrs]]; [exact Hsl|].
        exists rs; split; [exact Ers|]; intros y; rewrite Hrs, Hg; split.
        + intros [[h [H Hn]]|[h [Hh Hn]]]; exists h; split; auto.
          right; exists l; split; [reflexivity|rewrite Erf; exact Hh].
        + intros [h [[H|[l' [E' Hh]]] Hn]]; [left; exists h; auto|].
          injection E' as <-; rewrite Erf in Hh; right; exists h; auto. }
  intros grp acc Hgi.
  destruct (Hgr grp Hgi) as [Hgo Hgf].
  cbv beta zeta; rewrite (member_obj _ _ Hgo); cbn [obind of_sum].
  destruct (scanFields_spec (json_size form) (js_get grp (lit "fields")) acc Hgf)
    as [rs [Ers Hrs]].
  { pose proof (size_get grp (lit "fields") Hgo); pose proof (size_arr _ _ Hgi);
    pose proof (size_get form (lit "fieldGroups") Ho); lia. }
  exists rs; split; [exact Ers|exact Hrs].
Qed.

Lemma extractFormProps_fields_witness :
  exists names, extractFormProps form_demo = Ret names /\
    forall y, In y names <-> exists h, form_field form_demo h /\ field_name h y.
Proof.
  apply extractFormProps_fields.
  unfold form_ok; split; [eexists; reflexivity|]; split; [exact I|]; split.
  - intros grp Hg; vm_compute in Hg; destruct Hg as [<-|[]]; split; [eexists; reflexivity|].
    vm_compute; constructor; [exact I|]; intros f Hf; destruct Hf as [<-|[]].
    constructor; [eexists; reflexivity|vm_compute; exact I|].
    intros dep Hd; vm_compute in Hd; destruct Hd as [<-|[]].
    constructor; [eexists; reflexivity|vm_compute; exact I| |].
    + intros flt Hflt; vm_compute in Hflt; destruct Hflt as [<-|[]].
      constructor; [eexists; reflexivity|]; intros g Hg Ht; vm_compute in Hg; injection Hg as <-.
      constructor; [eexists; reflexivity|vm_compute; exact I|].
      intros d Hd; vm_compute in Hd; destruct Hd.
    + vm_compute; constructor; [exact I|]; intros f Hf; destruct Hf as [<-|[]].
      constructor; [eexists; reflexivity|vm_compute; exact I|].
      intros d Hd; vm_compute in Hd; destruct Hd.
  - intros l Hl; vm_compute in Hl; injection Hl as <-; vm_compute.
    intros row Hr; destruct Hr as [<-|[]].
    constructor; [exact I|]; intros f Hf; destruct Hf as [<-|[]].
    constructor; [eexists; reflexivity|vm_compute; exact I|].
    intros d Hd; vm_compute in Hd; destruct Hd.
Defined.

(** C2, the claim as stated fails: a field whose name is falsy (here the
    empty string) is reached but its name is not captured, and a field
    that is [null] makes the walk throw instead of returning names. *)
Lemma extractFormProps_falsy_name_counterexample :
  extractFormProps form_empty_name = Ret [JStr (lit "email")]
  /\ form_field form_empty_name (JObj [(lit "name", JStr [])])
  /\ js_get (JObj [(lit "name", JStr [])]) (lit "name") = Some (JStr [])
  /\ extractFormProps form_null_field
     = Throw (type_error (lit "Cannot read properties of null (reading 'name')")).
Proof.
  split; [vm_compute; reflexivity|]; split; [|split; vm_compute; reflexivity].
  left; eexists; split; [vm_compute; left; reflexivity|].
  apply reach_here; vm_compute; left; reflexivity.
Qed.

(** ** The usage scan *)

Lemma mbind_ret {A B} (m : M A) (f : A -> M B) s s' a :
  m s = (s', Ret a) -> mbind m f s = f a s'.
Proof. intros H; unfold mbind; rewrite H; reflexivity. Qed.

Lemma mseq_ret (m k : M unit) s s' :
  m s = (s', Ret tt) -> mseq m k s = k s'.
Proof. intros H; unfold mseq, mbind; rewrite H; reflexivity. Qed.

Lemma try_catch_ret l body s s' :
  body s = (s', Ret tt) -> try_catch l body s = (s', Ret tt).
Proof. intros H; unfold try_catch; rewrite H; reflexivity. Qed.

Lemma try_catch_throw l body s s' e :
  body s = (s', Throw e) -> try_catch l body s = (push_warning (warning l e) s', Ret tt).
Proof. intros H; unfold try_catch; rewrite H; reflexivity. Qed.

Lemma fold_left_const {A B} (l : list B) (a : A) : fold_left (fun a _ => a) l a = a.
Proof. revert a; induction l; simpl; auto. Qed.

Lemma member_nonnull v k : v <> JNull -> member v k = inr (js_get v k).
Proof. destruct v; [congruence|reflexivity..]. Qed.

Lemma workflow_name_ok wf : wf <> JNull -> exists n, workflow_name wf = Ret n.
Proof.
  intros H; unfold workflow_name.
  rewrite (member_nonnull wf (lit "name") H), (member_nonnull wf (lit "id") H).
  cbn [obind of_sum]; unfold or_else_m.
  destruct (js_get wf (lit "name")) as [v|]; [destruct (truthy v)|]; eexists; reflexivity.
Qed.

Lemma name_or_id_ok k1 k2 d it : it <> JNull -> exists n, name_or_id k1 k2 d it = Ret n.
Proof.
  intros H; unfold name_or_id.
  rewrite (member_nonnull it k1 H), (member_nonnull it k2 H).
  cbn [obind of_sum]; unfold or_else_m.
  destruct (js_get it k1) as [v|]; [destruct (truthy v)|]; eexists; reflexivity.
Qed.

(** The names of one item: each is added to the set of the source, and
    the other parts of the state the set does not see change. *)
Lemma item_names_spec {K} (add : K -> scan -> scan) key kind id nm (names : list K) :
  forall s, exists s',
    mfor names (fun name =>
      mseq (modify (add name))
           (modify (fun s => set_usage s (addUsage (usageDetails s) (key name) kind (id, nm))))) s
    = (s', Ret tt)
    /\ forall B (Pr : scan -> B) (g : B -> K -> B),
         (forall n s, Pr (add n s) = g (Pr s) n) ->
         (forall s h, Pr (set_usage s h) = Pr s) ->
         Pr s' = fold_left g names (Pr s).
Proof.
  induction names as [|x r IH]; intros s.
  - exists s; split; [reflexivity|intros; reflexivity].
  - destruct (IH (set_usage (add x s) (addUsage (usageDetails (add x s)) (key x) kind (id, nm))))
      as [s' [E P]].
    exists s'; split.
    + cbn [mfor]; rewrite (mseq_ret _ _ s _ eq_refl); exact E.
    + intros B Pr g Ha Hu; rewrite (P B Pr g Ha Hu), Hu, Ha; reflexivity.
Qed.

(** The loop of a source over items it can name and scan: it ends
    normally, and its set receives the names of every item, in order. *)
Lemma item_loop_spec {K} name_of (extract : json -> outcome (list K)) add key kind
  (exf : json -> list K) items :
  (forall it, In it items -> exists n, name_of it = Ret n) ->
  (forall it, In it items -> extract it = Ret (exf it)) ->
  forall s, exists s', item_loop name_of extract add key kind items s = (s', Ret tt)
    /\ forall B (Pr : scan -> B) (g : B -> K -> B),
         (forall n s, Pr (add n s) = g (Pr s) n) ->
         (forall s h, Pr (set_usage s h) = Pr s) ->
         (forall s i, Pr (set_items s i) = Pr s) ->
         Pr s' = fold_left g (flat_map exf items) (Pr s).
Proof.
  intros Hn Hx; unfold item_loop; induction items as [|it r IH]; intros s.
  - exists s; split; [reflexivity|intros; reflexivity].
  - destruct (Hn it (or_introl eq_refl)) as [n En].
    pose proof (Hx it (or_introl eq_refl)) as Ex.
    destruct (item_names_spec add key kind (items_seen s) n (exf it)
                (set_items s (S (items_seen s)))) as [s1 [E1 P1]].
    destruct (IH (fun i Hi => Hn i (or_intror Hi)) (fun i Hi => Hx i (or_intror Hi)) s1)
      as [s2 [E2 P2]].
    exists s2; split.
    + cbn [mfor]; rewrite (mseq_ret _ _ s s1); [exact E2|].
      cbv beta iota delta [mbind lift next_item]; rewrite En, Ex; exact E1.
    + intros B Pr g Ha Hu Hi; rewrite (P2 B Pr g Ha Hu Hi), (P1 B Pr g Ha Hu), Hi.
      simpl flat_map; rewrite fold_left_app; reflexivity.
Qed.

Lemma fold_set_add {A} (eqb : A -> A -> bool) l s :
  fold_left (fun a n => set_add eqb n a) l s = set_add_all eqb s l.
Proof. reflexivity. Qed.

Ltac keep P Pr :=
  rewrite (P _ Pr (fun a _ => a)) by (intros; reflexivity); rewrite fold_left_const.

(** When the request for the forms throws and the five other sources
    answer with items that are not [null], the scan ends normally with
    exactly one warning, the one of the forms, no form field, and for
    each other source the set of the names its reference extractor finds
    in its items. *)
Lemma usage_scan_forms_down fuel srv tok wfs e ls dd pd tk pt ems rd rs
  (Htok : truthy tok = true)
  (Hwf : snd (paginateHubSpot fuel srv tok url_workflows (lit "workflows") []) = Ret wfs)
  (Hfm : snd (paginateHubSpot fuel srv tok url_forms (lit "results") []) = Throw e)
  (Hls : snd (paginateHubSpot fuel srv tok url_lists (lit "lists")
                [(lit "includeFilters", JBool true)]) = Ret ls)
  (Hd : srv (pipeline_request tok (lit "deals")) = inr dd) (Hd' : pipeline_items dd = inr pd)
  (Ht : srv (pipeline_request tok (lit "tickets")) = inr tk) (Ht' : pipeline_items tk = inr pt)
  (Hem : snd (paginateHubSpot fuel srv tok url_emails (lit "results") []) = Ret ems)
  (Hrp : srv (report_request tok) = inr rd) (Hrp' : report_items rd = inr rs)
  (Hnn : Forall (fun x => x <> JNull) (wfs ++ ls ++ pd ++ pt ++ ems ++ rs)) :
  exists s, fetch_usage_context fuel srv (Some tok) = Ret (Usage s)
    /\ warnings s = [warning (lit "Forms") e]
    /\ formProps s = []
    /\ (forall v, In v (workflowProps s) <->
                  exists wf, In wf wfs /\ In v (extractWorkflowProps wf))
    /\ (forall v, In v (listProps s) <->
                  exists l, In l ls /\ In v (extractListProps l))
    /\ (forall v, In v (pipelineProps s) <->
                  exists p, In p (pd ++ pt) /\ In v (extractPipelineProps p))
    /\ (forall v, In v (emailProps s) <->
                  exists m, In m ems /\ In v (extractEmailProps m))
    /\ (forall v, In v (reportProps s) <->
                  exists r, In r rs /\ In v (extractReportProps r)).
Proof.
  rewrite !Forall_app, !Forall_forall in Hnn; destruct Hnn as (Nw & Nl & Nd & Nt & Ne & Nr).
  destruct (item_loop_spec workflow_name (fun wf => Ret (extractWorkflowProps wf)) add_workflow
              (fun n => n) (lit "workflows") extractWorkflowProps wfs
              (fun it Hi => workflow_name_ok it (Nw it Hi)) (fun _ _ => eq_refl) init_scan)
    as [s1 [E1 P1]].
  set (s2 := push_warning (warning (lit "Forms") e) s1).
  destruct (item_loop_spec (name_or_id (lit "name") (lit "listId") (lit "Unnamed List"))
              (fun l => Ret (extractListProps l)) add_list (fun n => n) (lit "lists")
              extractListProps ls (fun it Hi => name_or_id_ok _ _ _ it (Nl it Hi))
              (fun _ _ => eq_refl) s2) as [s3 [E3 P3]].
  destruct (item_loop_spec (name_or_id (lit "label") (lit "id") (lit "Unnamed Pipeline"))
              (fun p => Ret (extractPipelineProps p)) add_pipeline (fun n => n) (lit "pipelines")
              extractPipelineProps pd (fun it Hi => name_or_id_ok _ _ _ it (Nd it Hi))
              (fun _ _ => eq_refl) s3) as [s4 [E4 P4]].
  destruct (item_loop_spec (name_or_id (lit "label") (lit "id") (lit "Unnamed Pipeline"))
              (fun p => Ret (extractPipelineProps p)) add_pipeline (fun n => n) (lit "pipelines")
              extractPipelineProps pt (fun it Hi => name_or_id_ok _ _ _ it (Nt it Hi))
              (fun _ _ => eq_refl) s4) as [s5 [E5 P5]].
  destruct (item_loop_spec (name_or_id (lit "name") (lit "id") (lit "Unnamed Email"))
              (fun m => Ret (extractEmailProps m)) add_email (fun n => n) (lit "emails")
              extractEmailProps ems (fun it Hi => name_or_id_ok _ _ _ it (Ne it Hi))
              (fun _ _ => eq_refl) s5) as [s6 [E6 P6]].
  destruct (item_loop_spec (name_or_id (lit "name") (lit "id") (lit "Unnamed Report"))
              (fun r => Ret (extractReportProps r)) add_report (fun n => n) (lit "reports")
              extractReportProps rs (fun it Hi => name_or_id_ok _ _ _ it (Nr it Hi))
              (fun _ _ => eq_refl) s6) as [s7 [E7 P7]].
  assert (SA : scan_all fuel srv tok init_scan = (s7, Ret tt)).
  { unfold scan_all.
    rewrite (mseq_ret _ _ _ s1) by (apply try_catch_ret; unfold workflows_block; rewrite Hwf; exact E1).
    rewrite (mseq_ret _ _ _ s2) by (apply try_catch_throw; unfold forms_block; rewrite Hfm; reflexivity).
    rewrite (mseq_ret _ _ _ s3) by (apply try_catch_ret; unfold lists_block; rewrite Hls; exact E3).
    rewrite (mseq_ret _ _ _ s5).
    2:{ apply try_catch_ret; unfold pipelines_block; cbn [mfor].
        rewrite (mseq_ret _ _ _ s4).
        2:{ cbv beta iota delta [mbind lift of_sum]; rewrite Hd;
            cbv beta iota delta [mbind lift of_sum]; rewrite Hd'; exact E4. }
        rewrite (mseq_ret _ _ _ s5); [reflexivity|].
        cbv beta iota delta [mbind lift of_sum]; rewrite Ht;
        cbv beta iota delta [mbind lift of_sum]; rewrite Ht'; exact E5. }
    rewrite (mseq_ret _ _ _ s6) by (apply try_catch_ret; unfold emails_block; rewrite Hem; exact E6).
    apply try_catch_ret; unfold reports_block.
    cbv beta iota delta [mbind lift of_sum]; rewrite Hrp;
    cbv beta iota delta [mbind lift of_sum]; rewrite Hrp'; exact E7. }
  exists s7; split; [unfold fetch_usage_context; rewrite Htok, SA; reflexivity|].
  split; [keep P7 warnings; keep P6 warnings; keep P5 warnings; keep P4 warnings;
          keep P3 warnings; unfold s2; cbn [push_warning warnings]; keep P1 warnings; reflexivity|].
  split; [keep P7 formProps; keep P6 formProps; keep P5 formProps; keep P4 formProps;
          keep P3 formProps; unfold s2; cbn [push_warning formProps]; keep P1 formProps; reflexivity|].
  pose proof (set_add_all_in jstr_eqb jstr_eqb_eq) as SA'.
  split; [|split; [|split; [|split]]]; intros v.
  - keep P7 workflowProps; keep P6 workflowProps; keep P5 workflowProps; keep P4 workflowProps;
      keep P3 workflowProps; unfold s2; cbn [push_warning workflowProps].
    rewrite (P1 _ workflowProps (fun a n => set_add jstr_eqb n a)) by (intros; reflexivity).
    rewrite fold_set_add.
    rewrite SA', in_flat_map; simpl; tauto.
  - keep P7 listProps; keep P6 listProps; keep P5 listProps; keep P4 listProps.
    rewrite (P3 _ listProps (fun a n => set_add jstr_eqb n a)) by (intros; reflexivity).
    unfold s2; cbn [push_warning listProps]; keep P1 listProps.
    rewrite fold_set_add.
    rewrite SA', in_flat_map; simpl; tauto.
  - keep P7 pipelineProps; keep P6 pipelineProps.
    rewrite (P5 _ pipelineProps (fun a n => set_add jstr_eqb n a)) by (intros; reflexivity).
    rewrite (P4 _ pipelineProps (fun a n => set_add jstr_eqb n a)) by (intros; reflexivity).
    keep P3 pipelineProps; unfold s2; cbn [push_warning pipelineProps]; keep P1 pipelineProps.
    rewrite <- fold_left_app, <- flat_map_app.
    rewrite fold_set_add.
    rewrite SA', in_flat_map; simpl; tauto.
  - keep P7 emailProps.
    rewrite (P6 _ emailProps (fun a n => set_add jstr_eqb n a)) by (intros; reflexivity).
    keep P5 emailProps; keep P4 emailProps; keep P3 emailProps; unfold s2; cbn [push_warning emailProps]; keep P1 emailProps.
    rewrite fold_set_add.
    rewrite SA', in_flat_map; simpl; tauto.
  - rewrite (P7 _ reportProps (fun a n => set_add jstr_eqb n a)) by (intros; reflexivity).
    keep P6 reportProps; keep P5 reportProps; keep P4 reportProps; keep P3 reportProps;
      unfold s2; cbn [push_warning reportProps]; keep P1 reportProps.
    rewrite fold_set_add.
    rewrite SA', in_flat_map; simpl; tauto.
Qed.

Lemma mseq_ext (m k k' : M unit) s :
  (forall s', k s' = k' s') -> mseq m k s = mseq m k' s.
Proof. intros H; unfold mseq, mbind; destruct (m s) as [s' [a|e|]]; auto. Qed.

Lemma run_isolated_cons label b r s : r <> [] ->
  run_isolated ((label, b) :: r) s = mseq (try_catch label b) (run_isolated r) s.
Proof.
  intros _; cbn [run_isolated]; unfold mseq, mbind, try_catch.
  destruct (b s) as [s' [[]|e|]]; reflexivity.
Qed.

Lemma run_isolated_one label b s :
  run_isolated [(label, b)] s = try_catch label b s.
Proof.
  cbn [run_isolated]; unfold try_catch.
  destruct (b s) as [s' [[]|e|]]; reflexivity.
Qed.

Lemma run_isolated_no_throw bs : forall s s' e, run_isolated bs s <> (s', Throw e).
Proof.
  induction bs as [|[label b] r IH]; intros s s' e; cbn [run_isolated]; [discriminate|].
  destruct (b s) as [s1 [a|e1|]]; [apply IH|apply IH|discriminate].
Qed.

(** C5.  The sources fail independently: the scan runs the six sources
    one after the other, each from the state the previous one left, and
    a source that throws (a failed request or any other exception) adds
    exactly one warning [<label>: <message>] and does not stop the
    sources after it, so the handler itself never throws; in particular,
    when the request for the forms throws and the five other sources
    answer with items that are not [null], the scan ends normally with
    exactly one warning, the one of the forms, no form field, and for
    each other source the set of the names its reference extractor finds
    in its items. *)
Theorem fetch_usage_context_sources_isolated :
  (forall fuel srv t s, scan_all fuel srv t s = run_isolated (usage_sources fuel srv t) s)
  /\ (forall fuel srv tok e, fetch_usage_context fuel srv tok <> Throw e)
  /\ (forall fuel srv tok wfs e ls dd pd tk pt ems rd rs,
     truthy tok = true ->
     snd (paginateHubSpot fuel srv tok url_workflows (lit "workflows") []) = Ret wfs ->
     snd (paginateHubSpot fuel srv tok url_forms (lit "results") []) = Throw e ->
     snd (paginateHubSpot fuel srv tok url_lists (lit "lists")
            [(lit "includeFilters", JBool true)]) = Ret ls ->
     srv (pipeline_request tok (lit "deals")) = inr dd -> pipeline_items dd = inr pd ->
     srv (pipeline_request tok (lit "tickets")) = inr tk -> pipeline_items tk = inr pt ->
     snd (paginateHubSpot fuel srv tok url_emails (lit "results") []) = Ret ems ->
     srv (report_request tok) = inr rd -> report_items rd = inr rs ->
     Forall (fun x => x <> JNull) (wfs ++ ls ++ pd ++ pt ++ ems ++ rs) ->
     exists s, fetch_usage_context fuel srv (Some tok) = Ret (Usage s)
       /\ warnings s = [warning (lit "Forms") e]
       /\ formProps s = []
       /\ (forall v, In v (workflowProps s) <->
                     exists wf, In wf wfs /\ In v (extractWorkflowProps wf))
       /\ (forall v, In v (listProps s) <->
                     exists l, In l ls /\ In v (extractListProps l))
       /\ (forall v, In v (pipelineProps s) <->
                     exists p, In p (pd ++ pt) /\ In v (extractPipelineProps p))
       /\ (forall v, In v (emailProps s) <->
                     exists m, In m ems /\ In v (extractEmailProps m))
       /\ (forall v, In v (reportProps s) <->
                     exists r, In r rs /\ In v (extractReportProps r))).
Proof.
  assert (Hall : forall fuel srv t s,
             scan_all fuel srv t s = run_isolated (usage_sources fuel srv t) s).
  { intros fuel srv t s; unfold scan_all, usage_sources.
    rewrite run_isolated_cons by discriminate; apply mseq_ext; intros s1.
    rewrite run_isolated_cons by discriminate; apply mseq_ext; intros s2.
    rewrite run_isolated_cons by discriminate; apply mseq_ext; intros s3.
    rewrite run_isolated_cons by discriminate; apply mseq_ext; intros s4.
    rewrite run_isolated_cons by discriminate; apply mseq_ext; intros s5.
    symmetry; apply run_isolated_one. }
  split; [exact Hall|split].
  - intros fuel srv tok e; unfold fetch_usage_context.
    destruct tok as [t|]; [|discriminate].
    destruct (truthy t); [|discriminate].
    rewrite Hall.
    destruct (run_isolated (usage_sources fuel srv t) init_scan) as [s' o] eqn:E.
    destruct o as [a|e'|]; try discriminate.
    exfalso; exact (run_isolated_no_throw _ _ _ _ E).
  - intros fuel srv tok wfs e ls dd pd tk pt ems rd rs.
    apply usage_scan_forms_down.
Qed.

Lemma fetch_usage_context_sources_isolated_witness :
  exists s, fetch_usage_context 10 srv_forms_down (Some (JStr (lit "tok"))) = Ret (Usage s)
    /\ warnings s = [warning (lit "Forms") forms_error]
    /\ formProps s = []
    /\ (forall v, In v (workflowProps s) <->
                  exists wf, In wf [demo_workflow] /\ In v (extractWorkflowProps wf))
    /\ (forall v, In v (listProps s) <->
                  exists l, In l [demo_list] /\ In v (extractListProps l))
    /\ (forall v, In v (pipelineProps s) <->
                  exists p, In p ([demo_pipeline] ++ []) /\ In v (extractPipelineProps p))
    /\ (forall v, In v (emailProps s) <->
                  exists m, In m [demo_email] /\ In v (extractEmailProps m))
    /\ (forall v, In v (reportProps s) <->
                  exists r, In r [demo_report] /\ In v (extractReportProps r)).
Proof.
  apply (proj2 (proj2 fetch_usage_context_sources_isolated) 10 srv_forms_down (JStr (lit "tok")) [demo_workflow]
           forms_error [demo_list] deals_page [demo_pipeline] tickets_page [] [demo_email]
           reports_page [demo_report]);
    try (vm_compute; reflexivity).
  cbn [app]; repeat constructor; discriminate.
Defined.

(** The scan of [srv_proto]: the token [{{contact.__proto__}}] makes
    [addUsage] create [Object.prototype.workflows]; [phone], read by the
    list only, then reads a workflow in [usageDetails.phone.workflows],
    while the reply has no such entry. *)
Lemma usage_proto_pollution :
  exists s, fetch_usage_context 10 srv_proto (Some (JStr (lit "tok"))) = Ret (Usage s)
    /\ In (lit "__proto__") (workflowProps s)
    /\ In (lit "phone") (listProps s)
    /\ ~ In (lit "phone") (workflowProps s)
    /\ usage_read (usageDetails s) (lit "phone") (lit "workflows") = Some [(0, JStr (lit "W"))]
    /\ usage_reply (usageDetails s) (lit "phone") (lit "workflows") = None.
Proof.
  exists (match fetch_usage_context 10 srv_proto (Some (JStr (lit "tok"))) with
          | Ret (Usage s) => s
          | _ => init_scan
          end).
  vm_compute; split; [reflexivity|].
  split; [left; reflexivity|]; split; [left; reflexivity|]; split; [|split; reflexivity].
  intros [H|[]]; discriminate H.
Qed.

(** ** The other routes *)

Lemma assoc_last_in {A} k (kvs : list (jstr * A)) :
  assoc_last k kvs <> None <-> In k (map fst kvs).
Proof.
  induction kvs as [|[k' v] r IH]; simpl.
  - split; [congruence | tauto].
  - destruct (assoc_last k r) eqn:E.
    + split; [intros _; right; apply IH; congruence | congruence].
    + destruct (jstr_eqb k k') eqn:Ek.
      * apply jstr_eqb_eq in Ek; subst; split; [auto | congruence].
      * split; [congruence|]. intros [H|H].
        -- subst. rewrite (proj2 (jstr_eqb_eq k k) eq_refl) in Ek; discriminate.
        -- apply IH in H; contradiction.
Qed.

Lemma const_lookup_none {A} (tbl : list (jstr * A)) k :
  const_lookup tbl k = CG_none <-> ~ In k (map fst tbl) /\ is_proto_key k = false.
Proof.
  unfold const_lookup. destruct (assoc_last k tbl) eqn:E.
  - split; [discriminate|]. intros [H _]. exfalso; apply H, assoc_last_in; congruence.
  - destruct (is_proto_key k) eqn:P.
    + split; [discriminate|]. intros [_ H]; discriminate.
    + split; [|reflexivity]. intros _; split; [|reflexivity].
      intros H; apply assoc_last_in in H; contradiction.
Qed.

Lemma const_lookup_found {A} (tbl : list (jstr * A)) k :
  const_lookup tbl k <> CG_none <-> In k (map fst tbl) \/ is_proto_key k = true.
Proof.
  unfold const_lookup. destruct (assoc_last k tbl) eqn:E.
  - split; [intros _; left; apply assoc_last_in; congruence | discriminate].
  - destruct (is_proto_key k) eqn:P.
    + split; [auto | discriminate].
    + split; [congruence|]. intros [H|H]; [apply assoc_last_in in H; contradiction | discriminate].
Qed.

Lemma existsb_jstr_in a l : existsb (jstr_eqb a) l = true <-> In a l.
Proof.
  rewrite existsb_exists. split.
  - intros [x [Hx E]]. apply jstr_eqb_eq in E; subst; auto.
  - intros H; exists a; split; auto; apply jstr_eqb_eq; reflexivity.
Qed.

Lemma blank_false v : blank v = false <-> exists s, v = Some s /\ trim s <> [].
Proof.
  destruct v as [s|]; unfold blank.
  - destruct s as [|c s].
    + split; [discriminate|]. intros [s' [E H]]. inversion E; subst. exfalso; apply H; reflexivity.
    + destruct (trim (c :: s)) eqn:T.
      * split; [discriminate|]. intros [s' [E H]]. inversion E; subst. exfalso; contradiction.
      * split; [|reflexivity]. intros _; exists (c :: s); split; [reflexivity|].
        rewrite T; discriminate.
  - split; [discriminate| intros [s [E _]]; discriminate].
Qed.

Lemma row_errors_nil i row : row_errors i row = [] <-> row_valid row.
Proof.
  unfold row_errors, row_valid.
  destruct (blank (row_get row (lit "Name"))) eqn:BN.
  - split; [discriminate|]. intros [[s [E T]] _].
    assert (blank (row_get row (lit "Name")) = false) by (apply blank_false; eauto).
    congruence.
  - apply blank_false in BN. rewrite app_nil_l.
    destruct (blank (row_get row (lit "Type"))) eqn:BT.
    + split; [discriminate|]. intros [_ [t [E [T _]]]].
      assert (blank (row_get row (lit "Type")) = false) by (apply blank_false; eauto).
      congruence.
    + pose proof BT as BT'. apply blank_false in BT' as [t [Et Tt]].
      unfold cell; rewrite Et.
      destruct (const_lookup PROPERTY_TYPES (trim t)) eqn:CL.
      * split; [|reflexivity]. intros _; split; [exact BN|].
        exists t; repeat split; auto. apply const_lookup_found; rewrite CL; discriminate.
      * split; [|reflexivity]. intros _; split; [exact BN|].
        exists t; repeat split; auto. apply const_lookup_found; rewrite CL; discriminate.
      * split; [discriminate|]. intros [_ [t' [E' [_ H]]]].
        inversion E'; subst t'.
        apply (proj2 (const_lookup_found PROPERTY_TYPES (trim t))) in H; contradiction.
Qed.

Lemma row_errors_concat_nil k records :
  concat (mapi_from row_errors k records) = [] <-> Forall row_valid records.
Proof.
  revert k; induction records as [|r rs IH]; intros k; simpl.
  - split; auto.
  - split.
    + intros H. apply app_eq_nil in H as [H1 H2].
      constructor; [apply (row_errors_nil k); auto | apply (IH (S k)); auto].
    + intros H; inversion H; subst.
      rewrite (proj2 (row_errors_nil k r) H2), (proj2 (IH (S k)) H3). reflexivity.
Qed.

Lemma in_concat_mapi {A B} (f : nat -> A -> list B) k l e :
  In e (concat (mapi_from f k l)) <-> exists i x, nth_error l i = Some x /\ In e (f (k + i) x).
Proof.
  revert k; induction l as [|x l IH]; intros k; simpl.
  - split; [tauto| intros [i [y [H _]]]; destruct i; discriminate].
  - rewrite in_app_iff, IH. split.
    + intros [H|[i [y [H1 H2]]]].
      * exists 0, x; rewrite Nat.add_0_r; auto.
      * exists (S i), y; rewrite <- Nat.add_succ_comm; auto.
    + intros [[|i] [y [H1 H2]]]; simpl in H1.
      * inversion H1; subst; left; rewrite Nat.add_0_r in H2; auto.
      * right; exists i, y; split; auto; rewrite Nat.add_succ_comm; auto.
Qed.

Lemma row_errors_prefix i row e :
  In e (row_errors i row) -> exists rest, e = row_prefix i ++ rest.
Proof.
  unfold row_errors. rewrite in_app_iff. intros [H|H].
  - destruct (blank _); cbn [In] in H; [destruct H as [<-|[]]; eauto | contradiction].
  - destruct (blank _); [cbn [In] in H; destruct H as [<-|[]]; eauto|].
    destruct (const_lookup _ _); cbn [In] in H; try contradiction.
    destruct H as [<-|[]]; eauto.
Qed.

Lemma parse_csv_headers_ok (r0 : csv_row) (rest : list csv_row) :
  In (lit "Name") (map (fun kv => trim (fst kv)) r0) ->
  In (lit "Type") (map (fun kv => trim (fst kv)) r0) ->
  parse_csv (Some (inr (r0 :: rest))) =
  match concat (mapi_from row_errors 0 (r0 :: rest)) with
  | [] => Csv_parsed (map normalize_row (r0 :: rest)) (List.length (r0 :: rest))
  | errors => Csv_rejected errors
  end.
Proof.
  intros HN HT. unfold parse_csv; cbv beta iota zeta.
  rewrite (proj2 (existsb_jstr_in _ _) HN), (proj2 (existsb_jstr_in _ _) HT).
  reflexivity.
Qed.

(** X1: [parse-csv] accepts a file exactly when it has rows, its first row
    has the columns [Name] and [Type] (after trimming), and every row has
    a non-blank [Name] and a [Type] that, trimmed, is a key of
    [PROPERTY_TYPES] or the name of an [Object.prototype] property (such
    as [constructor]); it then returns every row, trimmed, and their
    number. *)
Theorem parse_csv_accepts (records : list csv_row) (data : list csv_data) (n : nat) :
  parse_csv (Some (inr records)) = Csv_parsed data n <->
  (exists r0 rest, records = r0 :: rest
     /\ In (lit "Name") (map (fun kv => trim (fst kv)) r0)
     /\ In (lit "Type") (map (fun kv => trim (fst kv)) r0))
  /\ Forall row_valid records
  /\ data = map normalize_row records /\ n = List.length records.
Proof.
  destruct records as [|r0 rest].
  - simpl. split; [discriminate|]. intros [[r [x [E _]]] _]; discriminate.
  - destruct (existsb (jstr_eqb (lit "Name")) (map (fun kv => trim (fst kv)) r0)) eqn:HN;
    destruct (existsb (jstr_eqb (lit "Type")) (map (fun kv => trim (fst kv)) r0)) eqn:HT.
    + apply existsb_jstr_in in HN, HT.
      rewrite (parse_csv_headers_ok r0 rest HN HT).
      destruct (concat (mapi_from row_errors 0 (r0 :: rest))) eqn:C.
      * split.
        -- intros H; inversion H; subst. split; [exists r0, rest; auto|].
           split; [apply (row_errors_concat_nil 0); auto | auto].
        -- intros [_ [_ [-> ->]]]; reflexivity.
      * split; [discriminate|]. intros [_ [F _]].
        apply (row_errors_concat_nil 0) in F. congruence.
    + split; [unfold parse_csv; cbv beta iota zeta; rewrite HN, HT; discriminate|].
      intros [[r [x [E [_ HT']]]] _]. inversion E; subst.
      apply existsb_jstr_in in HT'. congruence.
    + split; [unfold parse_csv; cbv beta iota zeta; rewrite HN; discriminate|].
      intros [[r [x [E [HN' _]]]] _]. inversion E; subst.
      apply existsb_jstr_in in HN'. congruence.
    + split; [unfold parse_csv; cbv beta iota zeta; rewrite HN; discriminate|].
      intros [[r [x [E [HN' _]]]] _]. inversion E; subst.
      apply existsb_jstr_in in HN'. congruence.
Qed.

(** X2: once the columns are there, the errors of a rejected file name its
    invalid rows: every invalid row, at index [i] of the records, gets
    an error starting with [Row <i+2>: ], and every error starts so for an
    invalid row [i]. *)
Theorem parse_csv_row_errors (records : list csv_row) (errs : list jstr) :
  parse_csv (Some (inr records)) = Csv_rejected errs ->
  (exists r0 rest, records = r0 :: rest
     /\ In (lit "Name") (map (fun kv => trim (fst kv)) r0)
     /\ In (lit "Type") (map (fun kv => trim (fst kv)) r0)) ->
  (forall i row, nth_error records i = Some row -> ~ row_valid row ->
     exists e rest, In e errs /\ e = row_prefix i ++ rest)
  /\ (forall e, In e errs ->
        exists i row rest, nth_error records i = Some row /\ ~ row_valid row
                           /\ e = row_prefix i ++ rest).
Proof.
  intros H [r0 [rest [-> [HN HT]]]].
  rewrite (parse_csv_headers_ok r0 rest HN HT) in H.
  destruct (concat (mapi_from row_errors 0 (r0 :: rest))) as [|e0 es] eqn:C;
    [discriminate|].
  inversion H; subst errs. rewrite <- C. split.
  - intros i row Hi Hv.
    destruct (row_errors i row) as [|e es'] eqn:RE.
    { exfalso; apply Hv; apply (row_errors_nil i); auto. }
    destruct (row_errors_prefix i row e) as [r Hr]; [rewrite RE; left; auto|].
    exists e, r; split; auto. apply in_concat_mapi. exists i, row; split; auto.
    rewrite Nat.add_0_l, RE; left; auto.
  - intros e He. apply in_concat_mapi in He as [i [row [Hi He]]].
    rewrite Nat.add_0_l in He.
    destruct (row_errors_prefix _ _ _ He) as [r Hr].
    exists i, row, r; repeat split; auto.
    intros Hv. apply (row_errors_nil i) in Hv. rewrite Hv in He. destruct He.
Qed.

Lemma parse_csv_row_errors_witness :
  parse_csv (Some (inr csv_demo)) = Csv_rejected (concat (mapi_from row_errors 0 csv_demo))
  /\ ((forall i row, nth_error csv_demo i = Some row -> ~ row_valid row ->
        exists e rest, In e (concat (mapi_from row_errors 0 csv_demo)) /\ e = row_prefix i ++ rest)
      /\ (forall e, In e (concat (mapi_from row_errors 0 csv_demo)) ->
           exists i row rest, nth_error csv_demo i = Some row /\ ~ row_valid row
                              /\ e = row_prefix i ++ rest)).
Proof.
  assert (H : parse_csv (Some (inr csv_demo))
              = Csv_rejected (concat (mapi_from row_errors 0 csv_demo)))
    by (vm_compute; reflexivity).
  split; [exact H|].
  apply (parse_csv_row_errors csv_demo _ H).
  exists (hd [] csv_demo), (tl csv_demo); split; [reflexivity|].
  split; apply existsb_jstr_in; vm_compute; reflexivity.
Defined.

Lemma find_not_hubspot_objs l :
  Forall (fun g => exists kvs, g = JObj kvs) l ->
  find_not_hubspot l = inr (find (fun g => negb (truthy_u (js_get g (lit "hubspotDefined")))) l).
Proof.
  induction l as [|g l IH]; intros Hl; [reflexivity|].
  inversion Hl as [|? ? [kvs ->] Hr]; subst.
  cbn [find_not_hubspot find]. rewrite member_nonnull by discriminate.
  destruct (truthy_u (js_get (JObj kvs) (lit "hubspotDefined"))); simpl; auto.
Qed.

Lemma preferred_group_objs data l :
  js_get data (lit "results") = Some (JArr l) ->
  Forall (fun g => exists kvs, g = JObj kvs) l ->
  preferred_group data
  = inr (or_else_u (find (fun g => negb (truthy_u (js_get g (lit "hubspotDefined")))) l)
                   (nth_error l 0)).
Proof.
  intros Hr Hl. unfold preferred_group.
  rewrite member_nonnull by (intros ->; discriminate).
  rewrite Hr. cbn [or_else truthy]. rewrite (find_not_hubspot_objs l Hl). reflexivity.
Qed.

Lemma find_some_in {A} (p : A -> bool) l x : find p l = Some x -> In x l.
Proof. intros H; apply find_some in H; tauto. Qed.

(** X3: for an object type that is neither a standard object nor a
    property of [Object.prototype], [resolveGroupName] makes one request
    for the groups of the type and returns the name of the first group
    that is not [hubspotDefined], else the name of the first group, else
    [<objectType>information]. *)
Theorem resolveGroupName_custom (srv : api) (token objectType data : json) (l : list json) :
  ~ In (js_to_string objectType) (map fst DEFAULT_GROUPS) ->
  is_proto_key (js_to_string objectType) = false ->
  srv (get_call (groups_url (js_to_string objectType)) token []) = inr data ->
  js_get data (lit "results") = Some (JArr l) ->
  Forall (fun g => exists kvs, g = JObj kvs) l ->
  resolveGroupName srv token objectType =
  ([get_call (groups_url (js_to_string objectType)) token []],
   match find (fun g => negb (truthy_u (js_get g (lit "hubspotDefined")))) l with
   | Some g => match js_get g (lit "name") with Some n => JSV n | None => JSUndef end
   | None =>
       match l with
       | g :: _ => match js_get g (lit "name") with Some n => JSV n | None => JSUndef end
       | [] => JSV (JStr (js_to_string objectType ++ lit "information"))
       end
   end).
Proof.
  intros Hstd Hproto Hsrv Hr Hl. unfold resolveGroupName; cbv zeta.
  rewrite (proj2 (const_lookup_none _ _) (conj Hstd Hproto)), Hsrv.
  rewrite (preferred_group_objs data l Hr Hl).
  destruct (find _ l) as [g|] eqn:F.
  - apply find_some_in in F. apply (proj1 (Forall_forall _ l) Hl) in F as [kvs ->].
    reflexivity.
  - destruct l as [|g l']; [reflexivity|].
    inversion Hl as [|? ? [kvs ->] _]; subst. reflexivity.
Qed.

Lemma resolveGroupName_custom_witness :
  resolveGroupName groups_demo (JStr (lit "t")) (JStr (lit "p_1"))
  = ([get_call (groups_url (lit "p_1")) (JStr (lit "t")) []], JSV (JStr (lit "own_group"))).
Proof.
  rewrite (resolveGroupName_custom groups_demo (JStr (lit "t")) (JStr (lit "p_1"))
             groups_demo_data groups_demo_list).
  - vm_compute; reflexivity.
  - intros H; apply existsb_jstr_in in H; vm_compute in H; discriminate.
  - vm_compute; reflexivity.
  - reflexivity.
  - vm_compute; reflexivity.
  - repeat constructor; eexists; reflexivity.
Defined.

(** X4: for such an object type, [resolveGroupName] falls back to
    [<objectType>information] when the groups request fails, or when its
    response has no groups ([results] missing, falsy or an empty
    array). *)
Theorem resolveGroupName_fallback (srv : api) (token objectType : json) :
  ~ In (js_to_string objectType) (map fst DEFAULT_GROUPS) ->
  is_proto_key (js_to_string objectType) = false ->
  (exists err, srv (get_call (groups_url (js_to_string objectType)) token []) = inl err)
  \/ (exists data, srv (get_call (groups_url (js_to_string objectType)) token []) = inr data
        /\ (truthy_u (get_opt (Some data) (lit "results")) = false
            \/ get_opt (Some data) (lit "results") = Some (JArr []))) ->
  resolveGroupName srv token objectType =
  ([get_call (groups_url (js_to_string objectType)) token []],
   JSV (JStr (js_to_string objectType ++ lit "information"))).
Proof.
  intros Hstd Hproto H. unfold resolveGroupName; cbv zeta.
  rewrite (proj2 (const_lookup_none _ _) (conj Hstd Hproto)).
  destruct H as [[err E]|[data [E H]]]; rewrite E; [reflexivity|].
  unfold preferred_group.
  destruct data as [|b|z|s|a|kvs]; [reflexivity|..];
    rewrite member_nonnull by discriminate; cbn [get_opt] in H;
    (destruct H as [H|H];
     [ destruct (js_get _ (lit "results")) as [r|]; cbn [truthy_u or_else] in *;
       [rewrite H|]; reflexivity
     | rewrite H; reflexivity ]).
Qed.

Lemma resolveGroupName_fallback_witness :
  resolveGroupName api_forbidden (JStr (lit "t")) (JStr (lit "p_1"))
  = ([get_call (groups_url (lit "p_1")) (JStr (lit "t")) []],
     JSV (JStr (lit "p_1information"))).
Proof.
  apply (resolveGroupName_fallback api_forbidden (JStr (lit "t")) (JStr (lit "p_1"))).
  - intros H; apply existsb_jstr_in in H; vm_compute in H; discriminate.
  - vm_compute; reflexivity.
  - left; exists forbidden; reflexivity.
Defined.

Lemma assoc_last_app {A} k (l1 l2 : list (jstr * A)) :
  assoc_last k (l1 ++ l2)
  = match assoc_last k l2 with Some v => Some v | None => assoc_last k l1 end.
Proof.
  induction l1 as [|[k' v] l1 IH]; simpl.
  - destruct (assoc_last k l2); reflexivity.
  - rewrite IH. destruct (assoc_last k l2); reflexivity.
Qed.

Lemma assoc_last_opt_field k k' v :
  assoc_last k (opt_field k' v) = if jstr_eqb k k' then v else None.
Proof. destruct v; simpl; destruct (jstr_eqb k k'); reflexivity. Qed.

Lemma proto_key_cases k :
  is_proto_key k = true -> In k (lit "__proto__" :: object_prototype_methods).
Proof.
  unfold is_proto_key; rewrite orb_true_iff, existsb_jstr_in.
  intros [H|H]; [left; apply jstr_eqb_eq in H; auto | right; auto].
Qed.

Lemma proto_not_property_type k :
  is_proto_key k = true -> assoc_last k PROPERTY_TYPES = None.
Proof.
  intros H; apply proto_key_cases in H.
  repeat (destruct H as [<-|H]; [vm_compute; reflexivity|]). destruct H.
Qed.

Lemma or_else_truthy a b : truthy b = true -> truthy (or_else a b) = true.
Proof. intros H; destruct a as [v|]; simpl; [destruct (truthy v) eqn:E|]; auto. Qed.

Lemma create_error_message_truthy err : truthy (create_error_message err) = true.
Proof.
  unfold create_error_message. apply or_else_truthy, or_else_truthy.
  destruct (str_truthy (he_message err)) eqn:E; [exact E | reflexivity].
Qed.

Lemma error_status_nonzero err : error_status err <> 0%Z.
Proof.
  unfold error_status. destruct (he_response err) as [[st d]|]; [|discriminate].
  destruct (Z.eqb st 0) eqn:E; [discriminate|]. apply Z.eqb_neq; exact E.
Qed.

Lemma resolveGroupName_gets srv token objectType :
  Forall (fun c => call_method c = lit "GET") (fst (resolveGroupName srv token objectType)).
Proof.
  unfold resolveGroupName; cbv zeta.
  destruct (const_lookup DEFAULT_GROUPS (js_to_string objectType)); simpl; auto.
Qed.

Ltac split_matches H :=
  repeat match type of H with
         | context [match ?x with _ => _ end] => destruct x eqn:?
         end.

(** What [create-property] ends in: a reply [200] that starts with
    [success: true], a reply [{ success: false, error }] with a truthy
    [error] and a status that is not [0], or an exception thrown before
    the POST, after at most the GET of the groups. *)
Lemma create_property_cases srv req :
  match create_property srv req with
  | (_, Ret r) =>
      (reply_status r = 200%Z /\ hd_error (reply_body r) = Some (lit "success", JBool true))
      \/ (exists e, reply_body r = [(lit "success", JBool false); (lit "error", e)]
                    /\ truthy e = true /\ reply_status r <> 0%Z)
  | (calls, _) => Forall (fun c => call_method c = lit "GET") calls
  end.
Proof.
  assert (Hbad : forall msg, str_truthy msg = true ->
            exists e, reply_body (bad_request msg) = [(lit "success", JBool false); (lit "error", e)]
                      /\ truthy e = true /\ reply_status (bad_request msg) <> 0%Z)
    by (intros msg H; exists (JStr msg); repeat split; [exact H | discriminate]).
  assert (Herr : forall err,
            exists e, reply_body (create_error_reply err)
                      = [(lit "success", JBool false); (lit "error", e)]
                      /\ truthy e = true /\ reply_status (create_error_reply err) <> 0%Z)
    by (intros err; exists (create_error_message err); repeat split;
        [apply create_error_message_truthy | apply error_status_nonzero]).
  unfold create_property.
  destruct (js_get req (lit "token")) as [token|]; [|right; apply Hbad; reflexivity].
  destruct (js_get req (lit "objectType")) as [objectType|]; [|right; apply Hbad; reflexivity].
  destruct (js_get req (lit "property")) as [property|]; [|right; apply Hbad; reflexivity].
  destruct (truthy token && truthy objectType && truthy property);
    [|right; apply Hbad; reflexivity].
  unfold create_property_go; cbv zeta.
  destruct (const_lookup PROPERTY_TYPES (js_to_string_u (js_get property (lit "Type"))))
    as [ti|k|] eqn:Hti;
    [| | right; apply Hbad; reflexivity];
  (assert (Hg : Forall (fun c => call_method c = lit "GET")
            (fst (match js_get req (lit "defaultGroup") with
                  | Some d => if truthy d then ([], JSV d) else resolveGroupName srv token objectType
                  | None => resolveGroupName srv token objectType
                  end)))
     by (destruct (js_get req (lit "defaultGroup")) as [d|];
         [destruct (truthy d); [apply Forall_nil|]|]; apply resolveGroupName_gets);
   destruct (match js_get req (lit "defaultGroup") with
             | Some d => if truthy d then ([], JSV d) else resolveGroupName srv token objectType
             | None => resolveGroupName srv token objectType
             end) as [calls groupName];
   cbn [fst] in Hg;
   (destruct (internal_name_of (js_get property (lit "Name"))) as [e|internalName]; [exact Hg|]);
   match goal with
   | |- context [if is_enumeration ?t then _ else _] => destruct (is_enumeration t);
       [destruct (options_of (js_get property (lit "Options"))) as [e|os]; [exact Hg|]|]
   end;
   cbv beta iota;
   match goal with
   | |- context [srv ?c] => destruct (srv c) as [err|data]; [right; apply Herr|]
   end;
   (destruct (member data (lit "name")) as [e|n]; [right; apply Herr|]);
   left; split; reflexivity).
Qed.

(** X5: [create-property] without a truthy [token], [objectType] or
    [property] answers [400 Missing required fields.] and sends no
    request. *)
Theorem create_property_missing (srv : api) (req : json) :
  truthy_u (js_get req (lit "token")) = false
  \/ truthy_u (js_get req (lit "objectType")) = false
  \/ truthy_u (js_get req (lit "property")) = false ->
  create_property srv req = ([], Ret (bad_request (lit "Missing required fields."))).
Proof.
  intros H. unfold create_property.
  destruct (js_get req (lit "token")) as [t|]; [|reflexivity].
  destruct (js_get req (lit "objectType")) as [o|]; [|reflexivity].
  destruct (js_get req (lit "property")) as [p|]; [|reflexivity].
  cbn [truthy_u] in H.
  destruct (truthy t), (truthy o), (truthy p); destruct H as [H|[H|H]];
    try discriminate; reflexivity.
Qed.

Lemma create_property_missing_witness :
  create_property api_created (JObj [(lit "token", JStr (lit "t"))])
  = ([], Ret (bad_request (lit "Missing required fields."))).
Proof.
  apply create_property_missing. right; left; reflexivity.
Defined.

(** X6: with the fields present, a [property.Type] that is neither a key
    of [PROPERTY_TYPES] nor a property of [Object.prototype] is answered
    [400 Unknown property type: <Type>] ([undefined] when absent) before
    any request. *)
Theorem create_property_unknown_type (srv : api) (req token objectType property : json) :
  js_get req (lit "token") = Some token ->
  js_get req (lit "objectType") = Some objectType ->
  js_get req (lit "property") = Some property ->
  truthy token = true -> truthy objectType = true -> truthy property = true ->
  ~ In (js_to_string_u (js_get property (lit "Type"))) VALID_TYPES ->
  is_proto_key (js_to_string_u (js_get property (lit "Type"))) = false ->
  create_property srv req =
  ([], Ret (bad_request (lit "Unknown property type: "
                         ++ js_to_string_u (js_get property (lit "Type"))))).
Proof.
  intros Ht Ho Hp Tt To Tp Hn Hk. unfold create_property.
  rewrite Ht, Ho, Hp, Tt, To, Tp. cbn [andb].
  unfold create_property_go; cbv zeta.
  rewrite (proj2 (const_lookup_none _ _) (conj Hn Hk)). reflexivity.
Qed.

Lemma create_property_unknown_type_witness :
  create_property api_created (create_req (JObj [(lit "Name", JStr (lit "Score"))]))
  = ([], Ret (bad_request (lit "Unknown property type: undefined"))).
Proof.
  apply (create_property_unknown_type api_created
           (create_req (JObj [(lit "Name", JStr (lit "Score"))]))
           (JStr (lit "t")) (JStr (lit "contacts")) (JObj [(lit "Name", JStr (lit "Score"))]));
    try reflexivity.
  intros H; apply existsb_jstr_in in H; vm_compute in H; discriminate.
Defined.

(** X7: for a known type and a string [Name], [create-property] sends one
    POST to [/crm/v3/properties/<objectType>], after the groups request of
    [resolveGroupName] when no truthy [defaultGroup] is given.  The body
    has the internal name [toInternalName(Name)], the label [Name], the
    [type] and [fieldType] of the entry, the given or resolved group, and
    [options] (from [Options]) exactly for the enumeration types.  The
    handler then replies, without throwing. *)
Theorem create_property_request (srv : api) (req token objectType property : json)
    (label name : jstr) (ti : type_info) (os : list ChoiceOption) :
  js_get req (lit "token") = Some token ->
  js_get req (lit "objectType") = Some objectType ->
  js_get req (lit "property") = Some property ->
  truthy token = true -> truthy objectType = true -> truthy property = true ->
  js_get property (lit "Type") = Some (JStr label) ->
  assoc_last label PROPERTY_TYPES = Some ti ->
  js_get property (lit "Name") = Some (JStr name) ->
  (ti_enumeration ti = true -> options_of (js_get property (lit "Options")) = inr os) ->
  exists body r,
    create_property srv req =
      ((if truthy_u (js_get req (lit "defaultGroup")) then []
        else fst (resolveGroupName srv token objectType))
       ++ [mkCall (lit "POST") (properties_url (js_to_string objectType)) (bearer token) []
                  (Some body)],
       Ret r)
    /\ js_get body (lit "name") = Some (JStr (toInternalName name))
    /\ js_get body (lit "label") = Some (JStr name)
    /\ js_get body (lit "type") = Some (JStr (ti_type ti))
    /\ js_get body (lit "fieldType") = Some (JStr (ti_fieldType ti))
    /\ js_get body (lit "groupName")
       = (if truthy_u (js_get req (lit "defaultGroup")) then js_get req (lit "defaultGroup")
          else jsval_json (snd (resolveGroupName srv token objectType)))
    /\ js_get body (lit "options")
       = (if ti_enumeration ti then Some (JArr (map option_json os)) else None).
Proof.
  intros Ht Ho Hp Tt To Tp Hty Hti Hn Hopt.
  unfold create_property. rewrite Ht, Ho, Hp, Tt, To, Tp. cbn [andb].
  unfold create_property_go; cbv zeta. rewrite Hty.
  assert (Hl : const_lookup PROPERTY_TYPES (js_to_string_u (Some (JStr label))) = CG_own ti)
    by (unfold const_lookup; cbn [js_to_string_u js_to_string]; rewrite Hti; reflexivity).
  rewrite Hl, Hn. cbn [internal_name_of is_enumeration type_fields opt_field].
  destruct (ti_enumeration ti) eqn:He; [rewrite (Hopt eq_refl)|]; cbv beta iota;
  (destruct (js_get req (lit "defaultGroup")) as [d|]; [destruct (truthy d) eqn:Td|]);
  try (destruct (resolveGroupName srv token objectType) as [gc g]);
  cbv beta iota; cbn [truthy_u fst snd]; rewrite ?Td;
  do 2 eexists; (split; [reflexivity|]);
  unfold js_get; rewrite !assoc_last_app, !assoc_last_opt_field;
  try destruct (jsval_json g); repeat split; vm_compute; reflexivity.
Qed.

Lemma create_property_request_witness :
  exists body r,
    create_property api_created
      (create_req (property_demo (JStr (lit "Lead temperature")) (JStr (lit "Radio Select"))))
    = ([mkCall (lit "POST") (properties_url (lit "contacts")) (bearer (JStr (lit "t"))) []
               (Some body)], Ret r)
    /\ js_get body (lit "name") = Some (JStr (lit "lead_temperature"))
    /\ js_get body (lit "label") = Some (JStr (lit "Lead temperature"))
    /\ js_get body (lit "type") = Some (JStr (lit "enumeration"))
    /\ js_get body (lit "fieldType") = Some (JStr (lit "radio"))
    /\ js_get body (lit "groupName") = Some (JStr (lit "contactinformation"))
    /\ js_get body (lit "options")
       = Some (JArr (map option_json (parseOptions (lit "Hot; Cold")))).
Proof.
  destruct (create_property_request api_created
              (create_req (property_demo (JStr (lit "Lead temperature")) (JStr (lit "Radio Select"))))
              (JStr (lit "t")) (JStr (lit "contacts"))
              (property_demo (JStr (lit "Lead temperature")) (JStr (lit "Radio Select")))
              (lit "Radio Select") (lit "Lead temperature")
              (mkTypeInfo (lit "enumeration") (lit "radio") true)
              (parseOptions (lit "Hot; Cold")))
    as [body [r [E [H1 [H2 [H3 [H4 [H5 H6]]]]]]]];
    try reflexivity.
  exists body, r. repeat split; auto.
Defined.

(** X8: every reply of [create-property] is either a [200] that starts
    with [success: true], or [{ success: false, error }] whose [error] is
    truthy (never empty: [Unknown error] at the end of the chain) and
    whose status is not [0]. *)
Theorem create_property_reply (srv : api) (req : json) (calls : list http_call) (r : http_reply) :
  create_property srv req = (calls, Ret r) ->
  (reply_status r = 200%Z /\ hd_error (reply_body r) = Some (lit "success", JBool true))
  \/ (exists e, reply_body r = [(lit "success", JBool false); (lit "error", e)]
                /\ truthy e = true /\ reply_status r <> 0%Z).
Proof.
  intros H. pose proof (create_property_cases srv req) as C. rewrite H in C. exact C.
Qed.

Lemma create_property_reply_witness :
  (reply_status (create_error_reply forbidden) = 200%Z
   /\ hd_error (reply_body (create_error_reply forbidden)) = Some (lit "success", JBool true))
  \/ (exists e, reply_body (create_error_reply forbidden)
                = [(lit "success", JBool false); (lit "error", e)]
                /\ truthy e = true /\ reply_status (create_error_reply forbidden) <> 0%Z).
Proof.
  apply (create_property_reply api_forbidden
           (create_req (property_demo (JStr (lit "Score")) (JStr (lit "Number"))))
           (fst (create_property api_forbidden
                   (create_req (property_demo (JStr (lit "Score")) (JStr (lit "Number"))))))).
  vm_compute; reflexivity.
Defined.

(** X9: when [create-property] throws (a [Name] that is not a string, or
    an [Options] of an enumeration type that is truthy but not a string),
    it has sent no POST: at most the GET of the groups. *)
Theorem create_property_throw_no_post (srv : api) (req : json) (calls : list http_call)
    (e : js_error) :
  create_property srv req = (calls, Throw e) ->
  Forall (fun c => call_method c = lit "GET") calls.
Proof.
  intros H. pose proof (create_property_cases srv req) as C. rewrite H in C. exact C.
Qed.

Lemma create_property_throw_no_post_witness :
  Forall (fun c => call_method c = lit "GET") (fst (create_property api_created throwing_req)).
Proof.
  apply (create_property_throw_no_post api_created throwing_req _
           (type_error (lit "label.toLowerCase is not a function"))).
  vm_compute; reflexivity.
Defined.

(** X10: with the fields present and a known type, a [Name] that is not a
    string makes [create-property] throw instead of replying. *)
Theorem create_property_name_not_string (srv : api) (req token objectType property : json) :
  js_get req (lit "token") = Some token ->
  js_get req (lit "objectType") = Some objectType ->
  js_get req (lit "property") = Some property ->
  truthy token = true -> truthy objectType = true -> truthy property = true ->
  In (js_to_string_u (js_get property (lit "Type"))) VALID_TYPES
  \/ is_proto_key (js_to_string_u (js_get property (lit "Type"))) = true ->
  (forall s, js_get property (lit "Name") <> Some (JStr s)) ->
  exists calls e, create_property srv req = (calls, Throw e).
Proof.
  intros Ht Ho Hp Tt To Tp HT HN. unfold create_property.
  rewrite Ht, Ho, Hp, Tt, To, Tp. cbn [andb].
  unfold create_property_go; cbv zeta.
  assert (He : exists e, internal_name_of (js_get property (lit "Name")) = inl e).
  { destruct (js_get property (lit "Name")) as [[| | |s| |]|];
      try (eexists; reflexivity).
    exfalso; apply (HN s); reflexivity. }
  destruct He as [e He]. rewrite He.
  destruct (const_lookup PROPERTY_TYPES (js_to_string_u (js_get property (lit "Type"))))
    eqn:Hti;
    [| | exfalso; apply (proj2 (const_lookup_found _ _) HT); exact Hti];
  (destruct (match js_get req (lit "defaultGroup") with
             | Some d => if truthy d then ([], JSV d) else resolveGroupName srv token objectType
             | None => resolveGroupName srv token objectType
             end) as [calls g];
   exists calls, e; reflexivity).
Qed.

Lemma create_property_name_not_string_witness :
  exists calls e,
    create_property api_created
      (create_req (property_demo (JNum 42) (JStr (lit "Number")))) = (calls, Throw e).
Proof.
  apply (create_property_name_not_string api_created
           (create_req (property_demo (JNum 42) (JStr (lit "Number"))))
           (JStr (lit "t")) (JStr (lit "contacts"))
           (property_demo (JNum 42) (JStr (lit "Number")))); try reflexivity.
  - left; apply existsb_jstr_in; vm_compute; reflexivity.
  - intros s; discriminate.
Defined.

(** X11: a [property.Type] naming a property of [Object.prototype] (such as
    [constructor] or [toString]) passes the type check of
    [create-property]: the POST is sent with neither [type] nor
    [fieldType] nor [options] in its body. *)
Theorem create_property_proto_type (srv : api) (req token objectType property : json)
    (label name : jstr) :
  js_get req (lit "token") = Some token ->
  js_get req (lit "objectType") = Some objectType ->
  js_get req (lit "property") = Some property ->
  truthy token = true -> truthy objectType = true -> truthy property = true ->
  js_get property (lit "Type") = Some (JStr label) ->
  is_proto_key label = true ->
  js_get property (lit "Name") = Some (JStr name) ->
  exists body r,
    create_property srv req =
      ((if truthy_u (js_get req (lit "defaultGroup")) then []
        else fst (resolveGroupName srv token objectType))
       ++ [mkCall (lit "POST") (properties_url (js_to_string objectType)) (bearer token) []
                  (Some body)],
       Ret r)
    /\ js_get body (lit "type") = None
    /\ js_get body (lit "fieldType") = None
    /\ js_get body (lit "options") = None.
Proof.
  intros Ht Ho Hp Tt To Tp Hty Hk Hn.
  unfold create_property. rewrite Ht, Ho, Hp, Tt, To, Tp. cbn [andb].
  unfold create_property_go; cbv zeta. rewrite Hty.
  assert (Hl : const_lookup PROPERTY_TYPES (js_to_string_u (Some (JStr label))) = CG_proto label)
    by (unfold const_lookup; cbn [js_to_string_u js_to_string];
        rewrite (proto_not_property_type label Hk), Hk; reflexivity).
  rewrite Hl, Hn. cbn [internal_name_of is_enumeration type_fields opt_field].
  cbv beta iota;
  (destruct (js_get req (lit "defaultGroup")) as [d|]; [destruct (truthy d) eqn:Td|]);
  try (destruct (resolveGroupName srv token objectType) as [gc g]);
  cbv beta iota; cbn [truthy_u fst snd]; rewrite ?Td;
  do 2 eexists; (split; [reflexivity|]);
  unfold js_get; rewrite !assoc_last_app, !assoc_last_opt_field;
  try destruct (jsval_json g); repeat split; vm_compute; reflexivity.
Qed.

Lemma create_property_proto_type_witness :
  exists body r,
    create_property api_created
      (create_req (property_demo (JStr (lit "Score")) (JStr (lit "constructor"))))
    = ([mkCall (lit "POST") (properties_url (lit "contacts")) (bearer (JStr (lit "t"))) []
               (Some body)], Ret r)
    /\ js_get body (lit "type") = None
    /\ js_get body (lit "fieldType") = None
    /\ js_get body (lit "options") = None.
Proof.
  destruct (create_property_proto_type api_created
              (create_req (property_demo (JStr (lit "Score")) (JStr (lit "constructor"))))
              (JStr (lit "t")) (JStr (lit "contacts"))
              (property_demo (JStr (lit "Score")) (JStr (lit "constructor")))
              (lit "constructor") (lit "Score"))
    as [body [r [E H]]]; try reflexivity.
  exists body, r. split; [rewrite E; reflexivity | exact H].
Defined.

(** X12: [list-object-types] without a truthy [token] answers
    [400 token is required.] and sends no request. *)
Theorem list_object_types_no_token (srv : api) (token : option json) :
  truthy_u token = false ->
  list_object_types srv token = ([], bad_request (lit "token is required.")).
Proof.
  intros H. unfold list_object_types.
  destruct token as [t|]; [|reflexivity]. cbn [truthy_u] in H. rewrite H. reflexivity.
Qed.

Lemma list_object_types_no_token_witness :
  list_object_types api_forbidden (Some (JStr [])) = ([], bad_request (lit "token is required.")).
Proof. apply list_object_types_no_token. reflexivity. Defined.

Lemma custom_objects_first srv t :
  exists rest, fst (custom_objects srv t)
               = get_call schemas_url t [(lit "archived", JBool false)] :: rest.
Proof.
  unfold custom_objects.
  destruct (srv (get_call schemas_url t [(lit "archived", JBool false)])) as [err|data];
    [eexists; reflexivity|].
  destruct (member data (lit "results")) as [e|r]; [eexists; reflexivity|].
  destruct (or_else r (JArr [])); eexists; reflexivity.
Qed.

(** X13: with a token, [list-object-types] always answers [200] with
    [success: true] and object types that start with the five standard
    objects, after a first request for the schemas; when that request
    fails, the object types are the standard ones alone and the warning
    is [Custom objects could not be loaded: <message>]. *)
Theorem list_object_types_standard (srv : api) (t : json) :
  truthy t = true ->
  exists calls customs warning,
    list_object_types srv (Some t) =
      (get_call schemas_url t [(lit "archived", JBool false)] :: calls,
       mkReply 200 [(lit "success", JBool true);
                    (lit "objectTypes", JArr (STANDARD_OBJECTS ++ customs));
                    (lit "warning", warning)])
    /\ (forall err, srv (get_call schemas_url t [(lit "archived", JBool false)]) = inl err ->
          calls = [] /\ customs = []
          /\ warning = JStr (lit "Custom objects could not be loaded: "
                             ++ js_to_string (route_error_message err))).
Proof.
  intros H. unfold list_object_types. rewrite H.
  destruct (custom_objects_first srv t) as [rest Hr].
  destruct (custom_objects srv t) as [calls res] eqn:C. cbn [fst] in Hr. subst calls.
  exists rest, (match res with inr vs => vs | inl _ => [] end),
         (match res with
          | inl err => JStr (lit "Custom objects could not be loaded: "
                             ++ js_to_string (route_error_message err))
          | inr _ => JNull
          end).
  split; [reflexivity|]. intros err E.
  unfold custom_objects in C. rewrite E in C. inversion C; subst. auto.
Qed.

Lemma list_object_types_standard_witness :
  exists calls customs warning,
    list_object_types api_forbidden (Some (JStr (lit "t"))) =
      (get_call schemas_url (JStr (lit "t")) [(lit "archived", JBool false)] :: calls,
       mkReply 200 [(lit "success", JBool true);
                    (lit "objectTypes", JArr (STANDARD_OBJECTS ++ customs));
                    (lit "warning", warning)])
    /\ (forall err, api_forbidden (get_call schemas_url (JStr (lit "t"))
                                     [(lit "archived", JBool false)]) = inl err ->
          calls = [] /\ customs = []
          /\ warning = JStr (lit "Custom objects could not be loaded: "
                             ++ js_to_string (route_error_message err))).
Proof. apply list_object_types_standard. reflexivity. Defined.

Lemma js_get_obj kvs k : js_get (JObj kvs) k = assoc_last k kvs.
Proof. reflexivity. Qed.

Lemma schema_entry_nonnull srv t s :
  s <> JNull ->
  exists e,
    schema_entry srv t s
    = ([get_call (groups_url (js_to_string_u (js_get s (lit "objectTypeId")))) t []], inr e)
    /\ js_get e (lit "value") = js_get s (lit "objectTypeId")
    /\ js_get e (lit "label")
       = or_else_u (get_opt (js_get s (lit "labels")) (lit "plural")) (js_get s (lit "name"))
    /\ (forall err, srv (get_call (groups_url (js_to_string_u (js_get s (lit "objectTypeId")))) t [])
                    = inl err -> js_get e (lit "defaultGroup") = Some JNull).
Proof.
  intros Hs. unfold schema_entry. rewrite (member_nonnull s _ Hs).
  eexists; split; [reflexivity|].
  rewrite !js_get_obj, !assoc_last_app, !assoc_last_opt_field.
  destruct (js_get s (lit "objectTypeId")) as [oid|];
    destruct (or_else_u (get_opt (js_get s (lit "labels")) (lit "plural")) (js_get s (lit "name")));
    (split; [vm_compute; reflexivity|]); (split; [vm_compute; reflexivity|]);
    intros err E; rewrite E; vm_compute; reflexivity.
Qed.

Lemma schema_entry_null srv t : schema_entry srv t JNull = ([], inl null_schema_error).
Proof. reflexivity. Qed.

Lemma promise_all_null srv t l :
  In JNull l -> promise_all (map snd (map (schema_entry srv t) l)) = inl null_schema_error.
Proof.
  induction l as [|s l IH]; intros H; [destruct H|].
  cbn [map promise_all].
  destruct s as [|b|z|str|a|kvs]; [rewrite schema_entry_null; reflexivity|..];
  (match goal with
   | |- context [schema_entry srv t ?x] =>
       destruct (schema_entry_nonnull srv t x ltac:(discriminate)) as [e [E _]]
   end;
   rewrite E; cbn [snd];
   destruct H as [H|H]; [discriminate| rewrite (IH H); reflexivity]).
Qed.

(** X14: with a token, one [null] among the schemas makes
    [list-object-types] drop every custom object: the object types are
    the standard ones and the warning is the [TypeError] on
    [objectTypeId], although the groups of every other schema are still
    requested. *)
Theorem list_object_types_null_schema (srv : api) (t data : json) (l : list json) :
  truthy t = true ->
  srv (get_call schemas_url t [(lit "archived", JBool false)]) = inr data ->
  js_get data (lit "results") = Some (JArr l) ->
  In JNull l ->
  exists calls,
    list_object_types srv (Some t) =
      (get_call schemas_url t [(lit "archived", JBool false)] :: calls,
       mkReply 200 [(lit "success", JBool true);
                    (lit "objectTypes", JArr STANDARD_OBJECTS);
                    (lit "warning", JStr (lit "Custom objects could not be loaded: Cannot read properties of null (reading 'objectTypeId')"))])
    /\ (forall s, In s l -> s <> JNull ->
          In (get_call (groups_url (js_to_string_u (js_get s (lit "objectTypeId")))) t []) calls).
Proof.
  intros Ht Hsrv Hr Hn. unfold list_object_types. rewrite Ht. unfold custom_objects.
  rewrite Hsrv, member_nonnull by (intros ->; discriminate). rewrite Hr.
  cbn [or_else truthy]. cbv zeta.
  rewrite (promise_all_null srv t l Hn).
  exists (concat (map fst (map (schema_entry srv t) l))). split; [reflexivity|].
  intros s Hs Hnn. apply in_concat. exists (fst (schema_entry srv t s)). split.
  - apply in_map_iff. exists (schema_entry srv t s). split; auto. apply in_map; auto.
  - destruct (schema_entry_nonnull srv t s Hnn) as [e [E _]]. rewrite E. left; reflexivity.
Qed.

Lemma list_object_types_null_schema_witness :
  exists calls,
    list_object_types (schemas_demo [JNull; schema_demo]) (Some (JStr (lit "t"))) =
      (get_call schemas_url (JStr (lit "t")) [(lit "archived", JBool false)] :: calls,
       mkReply 200 [(lit "success", JBool true);
                    (lit "objectTypes", JArr STANDARD_OBJECTS);
                    (lit "warning", JStr (lit "Custom objects could not be loaded: Cannot read properties of null (reading 'objectTypeId')"))])
    /\ (forall s, In s [JNull; schema_demo] -> s <> JNull ->
          In (get_call (groups_url (js_to_string_u (js_get s (lit "objectTypeId"))))
                       (JStr (lit "t")) []) calls).
Proof.
  apply (list_object_types_null_schema (schemas_demo [JNull; schema_demo]) (JStr (lit "t"))
           (JObj [(lit "results", JArr [JNull; schema_demo])])).
  - reflexivity.
  - vm_compute; reflexivity.
  - reflexivity.
  - left; reflexivity.
Defined.

Lemma schema_entries_nonnull srv t l :
  Forall (fun s => s <> JNull) l ->
  exists entries,
    concat (map fst (map (schema_entry srv t) l))
      = map (fun s => get_call (groups_url (js_to_string_u (js_get s (lit "objectTypeId")))) t []) l
    /\ promise_all (map snd (map (schema_entry srv t) l)) = inr entries
    /\ Forall2 (fun s e =>
          js_get e (lit "value") = js_get s (lit "objectTypeId")
          /\ js_get e (lit "label")
             = or_else_u (get_opt (js_get s (lit "labels")) (lit "plural")) (js_get s (lit "name"))
          /\ (forall err,
                srv (get_call (groups_url (js_to_string_u (js_get s (lit "objectTypeId")))) t [])
                = inl err -> js_get e (lit "defaultGroup") = Some JNull)) l entries.
Proof.
  induction l as [|s l IH]; intros H.
  - exists []; split; [reflexivity|split; [reflexivity|constructor]].
  - inversion H as [|? ? Hs Hl]; subst.
    destruct (IH Hl) as [es [E1 [E2 E3]]].
    destruct (schema_entry_nonnull srv t s Hs) as [e [E [P1 [P2 P3]]]].
    exists (e :: es). cbn [map concat promise_all]. rewrite E. cbn [fst snd].
    rewrite E1, E2. split; [reflexivity|]. split; [reflexivity|]. constructor; auto.
Qed.

(** X15: with a token, when the schemas are all non-[null],
    [list-object-types] requests the groups of each schema in order and
    answers the standard objects followed by one entry per schema, with
    no warning.  An entry's [value] is the schema's [objectTypeId], its
    [label] is [labels.plural] when truthy and [name] otherwise, and its
    [defaultGroup] is [null] when the groups request fails. *)
Theorem list_object_types_custom (srv : api) (t data : json) (l : list json) :
  truthy t = true ->
  srv (get_call schemas_url t [(lit "archived", JBool false)]) = inr data ->
  js_get data (lit "results") = Some (JArr l) ->
  Forall (fun s => s <> JNull) l ->
  exists entries,
    list_object_types srv (Some t) =
      (get_call schemas_url t [(lit "archived", JBool false)]
         :: map (fun s => get_call (groups_url (js_to_string_u (js_get s (lit "objectTypeId")))) t []) l,
       mkReply 200 [(lit "success", JBool true);
                    (lit "objectTypes", JArr (STANDARD_OBJECTS ++ entries));
                    (lit "warning", JNull)])
    /\ Forall2 (fun s e =>
          js_get e (lit "value") = js_get s (lit "objectTypeId")
          /\ js_get e (lit "label")
             = or_else_u (get_opt (js_get s (lit "labels")) (lit "plural")) (js_get s (lit "name"))
          /\ (forall err,
                srv (get_call (groups_url (js_to_string_u (js_get s (lit "objectTypeId")))) t [])
                = inl err -> js_get e (lit "defaultGroup") = Some JNull)) l entries.
Proof.
  intros Ht Hsrv Hr Hl. unfold list_object_types. rewrite Ht. unfold custom_objects.
  rewrite Hsrv, member_nonnull by (intros ->; discriminate). rewrite Hr.
  cbn [or_else truthy]. cbv zeta.
  destruct (schema_entries_nonnull srv t l Hl) as [es [E1 [E2 E3]]].
  rewrite E1, E2. exists es. split; [reflexivity|exact E3].
Qed.

Lemma list_object_types_custom_witness :
  exists entries,
    list_object_types (schemas_demo [schema_demo]) (Some (JStr (lit "t"))) =
      (get_call schemas_url (JStr (lit "t")) [(lit "archived", JBool false)]
         :: map (fun s => get_call (groups_url (js_to_string_u (js_get s (lit "objectTypeId"))))
                                   (JStr (lit "t")) []) [schema_demo],
       mkReply 200 [(lit "success", JBool true);
                    (lit "objectTypes", JArr (STANDARD_OBJECTS ++ entries));
                    (lit "warning", JNull)])
    /\ Forall2 (fun s e =>
          js_get e (lit "value") = js_get s (lit "objectTypeId")
          /\ js_get e (lit "label")
             = or_else_u (get_opt (js_get s (lit "labels")) (lit "plural")) (js_get s (lit "name"))
          /\ (forall err,
                schemas_demo [schema_demo]
                  (get_call (groups_url (js_to_string_u (js_get s (lit "objectTypeId"))))
                            (JStr (lit "t")) [])
                = inl err -> js_get e (lit "defaultGroup") = Some JNull)) [schema_demo] entries.
Proof.
  apply (list_object_types_custom (schemas_demo [schema_demo]) (JStr (lit "t"))
           (JObj [(lit "results", JArr [schema_demo])]) [schema_demo]).
  - reflexivity.
  - vm_compute; reflexivity.
  - reflexivity.
  - constructor; [discriminate|constructor].
Defined.

(** X16: [check-property-records] and [delete-property] without a truthy
    [token], [objectType] or [propertyName] answer
    [400 token, objectType, propertyName are required.] and send no
    request. *)
Theorem check_delete_missing_fields (srv : api) (req : json) :
  truthy_u (js_get req (lit "token")) = false
  \/ truthy_u (js_get req (lit "objectType")) = false
  \/ truthy_u (js_get req (lit "propertyName")) = false ->
  check_property_records srv req = ([], missing_fields)
  /\ delete_property srv req = ([], missing_fields).
Proof.
  intros H. unfold check_property_records, delete_property.
  destruct (js_get req (lit "token")) as [t|]; [|split; reflexivity].
  destruct (js_get req (lit "objectType")) as [o|]; [|split; reflexivity].
  destruct (js_get req (lit "propertyName")) as [p|]; [|split; reflexivity].
  cbn [truthy_u] in H.
  destruct (truthy t), (truthy o), (truthy p); destruct H as [H|[H|H]];
    try discriminate; split; reflexivity.
Qed.

Lemma check_delete_missing_fields_witness :
  check_property_records api_total0 (JObj [(lit "token", JStr (lit "t"))]) = ([], missing_fields)
  /\ delete_property api_total0 (JObj [(lit "token", JStr (lit "t"))]) = ([], missing_fields).
Proof. apply check_delete_missing_fields. right; left; reflexivity. Defined.

(** X17: with the three fields, [check-property-records] sends one search
    for the records that have the property ([HAS_PROPERTY], limit 1) and,
    on a non-[null] response, answers [200] with the response's [total],
    or [0] when that is absent or [null] (a [0] or [false] is kept). *)
Theorem check_property_records_total (srv : api) (req token objectType propertyName data : json) :
  js_get req (lit "token") = Some token ->
  js_get req (lit "objectType") = Some objectType ->
  js_get req (lit "propertyName") = Some propertyName ->
  truthy token = true -> truthy objectType = true -> truthy propertyName = true ->
  srv (search_call token objectType propertyName) = inr data -> data <> JNull ->
  check_property_records srv req =
  ([search_call token objectType propertyName],
   mkReply 200 [(lit "success", JBool true);
                (lit "total", match js_get data (lit "total") with
                              | None | Some JNull => JNum 0
                              | Some v => v
                              end)]).
Proof.
  intros Ht Ho Hp Tt To Tp Hsrv Hd. unfold check_property_records.
  rewrite Ht, Ho, Hp, Tt, To, Tp. cbn [andb]. cbv zeta.
  rewrite Hsrv, (member_nonnull data _ Hd).
  destruct (js_get data (lit "total")) as [[]|]; reflexivity.
Qed.

Lemma check_property_records_total_witness :
  check_property_records api_total0 check_req =
  ([search_call (JStr (lit "t")) (JStr (lit "contacts")) (JStr (lit "lead_temperature"))],
   mkReply 200 [(lit "success", JBool true); (lit "total", JNum 0)]).
Proof.
  apply (check_property_records_total api_total0 check_req (JStr (lit "t"))
           (JStr (lit "contacts")) (JStr (lit "lead_temperature"))
           (JObj [(lit "total", JNum 0)])); try reflexivity.
  discriminate.
Defined.
